(** * The parallel action executor of src-cli (cmd/src/actions_exec_backend.go)

  A shallow embedding of [actionExecutor]: the status map with its delta
  update, the patch collection, and the dispatch / join protocol of
  [start] and [wait] over the bounded concurrency primitive. *)

From Stdlib Require Import ZArith String.
From stdpp Require Import gmap list fin_maps relations strings.

Local Open Scope string_scope.
Local Open Scope Z_scope.
Local Open Scope list_scope.

(** ** Go's [time.Time]

  An instant (seconds and nanoseconds counted from January 1, year 1, UTC)
  with a location.  [IsZero] looks at the instant only, so it is weaker than
  equality with the zero value [Time{}]. *)

Record Time := mkTime { t_sec : Z; t_nsec : Z; t_loc : string }.

Definition zeroTime : Time := mkTime 0 0 "".

Definition IsZero (t : Time) : bool := (t_sec t =? 0) && (t_nsec t =? 0).

#[global] Instance Time_eq_dec : EqDecision Time.
Proof. solve_decision. Defined.

(** ** Outcomes of one goroutine running a piece of code to its end

  [Ret a s]: it returns [a] and leaves the shared state [s];
  [Blocked]: it waits for ever on a mutex or a channel (nobody else runs);
  [Panicked]: it panics. *)

Inductive outcome (S A : Type) : Type :=
| Ret (a : A) (s : S)
| Blocked
| Panicked.
Arguments Ret {S A} a s.
Arguments Blocked {S A}.
Arguments Panicked {S A}.

Definition M (S A : Type) : Type := S -> outcome S A.

Definition ret {S A} (a : A) : M S A := fun s => Ret a s.

Definition bind {S A B} (m : M S A) (k : A -> M S B) : M S B :=
fun s => match m s with
         | Ret a s' => k a s'
         | Blocked => Blocked
         | Panicked => Panicked
         end.

(** What it returns, when it returns. *)
Definition returnValue {S A} (o : outcome S A) : option A :=
  match o with Ret a _ => Some a | Blocked | Panicked => None end.

Definition get {S} : M S S := fun s => Ret s s.
Definition modify {S} (f : S -> S) : M S unit := fun s => Ret tt (f s).
Definition when {S} (b : bool) (m : M S unit) : M S unit := if b then m else ret tt.

Declare Scope go_scope.
Delimit Scope go_scope with go.
Notation "x <- m ;; k" := (bind m (fun x => k))
(at level 100, m at level 99, right associativity) : go_scope.
Notation "m ;;; k" := (bind m (fun _ => k))
(at level 100, right associativity) : go_scope.

(** ** The bounded concurrency primitive, [parallel.Run]

  Modelled from the spec: the package github.com/neelance/parallel is
  imported, not part of the sources.  Its contract (section 4.2): [Acquire]
  blocks until fewer than N permits are outstanding, then grants one;
  [Release] returns a permit; [Error] records a failure without blocking
  (the first one is kept); [Wait] blocks until all acquired permits have
  been released and returns the first recorded error, or none.  [NewRun]
  makes a channel of capacity N, which panics for a negative N. *)

Section Run.
Context {Error : Type}.

Record Run := mkRun {
  limit : Z;                      (* N *)
  outstanding : Z;                (* permits granted and not yet released *)
  firstErr : option Error         (* nil until the first Error call *)
}.

Definition NewRun (maxPar : Z) : option Run :=
  if maxPar <? 0 then None else Some (mkRun maxPar 0 None).

Definition Acquire : M Run unit := fun r =>
  if outstanding r <? limit r
  then Ret tt (mkRun (limit r) (outstanding r + 1) (firstErr r))
  else Blocked.

Definition Release : M Run unit := fun r =>
  if 0 <? outstanding r
  then Ret tt (mkRun (limit r) (outstanding r - 1) (firstErr r))
  else Blocked.

Definition ReportError (e : Error) : M Run unit := fun r =>
  Ret tt (mkRun (limit r) (outstanding r)
                (match firstErr r with Some e0 => Some e0 | None => Some e end)).

Definition Wait : M Run (option Error) := fun r =>
  if outstanding r =? 0 then Ret (firstErr r) r else Blocked.
End Run.
Arguments Run : clear implicits.

(** ** The executor *)

Section Executor.
(** [ActionRepo], [PatchInput] and the dynamic type of [error] values are
    declared outside the sources: a hashable key type, a comparable struct
    with its zero value [PatchInput{}], and any type of non-nil errors (an
    [error] is then an [option]). *)
Context {ActionRepo : Type} `{Countable ActionRepo}.
Context {PatchInput : Type} `{EqDecision PatchInput}.
Context {Error : Type}.
Variable zeroPatch : PatchInput.

Record ActionRepoStatus := mkStatus {
  LogFile : string;
  EnqueuedAt : Time;
  StartedAt : Time;
  FinishedAt : Time;
  Patch : PatchInput;
  Err : option Error
}.

(** The zero value [ActionRepoStatus{}], which a map read gives for a
    missing key. *)
Definition zeroStatus : ActionRepoStatus :=
  mkStatus "" zeroTime zeroTime zeroTime zeroPatch None.

Definition set_LogFile (v : string) (s : ActionRepoStatus) :=
  mkStatus v (EnqueuedAt s) (StartedAt s) (FinishedAt s) (Patch s) (Err s).
Definition set_EnqueuedAt (v : Time) (s : ActionRepoStatus) :=
  mkStatus (LogFile s) v (StartedAt s) (FinishedAt s) (Patch s) (Err s).
Definition set_StartedAt (v : Time) (s : ActionRepoStatus) :=
  mkStatus (LogFile s) (EnqueuedAt s) v (FinishedAt s) (Patch s) (Err s).
Definition set_FinishedAt (v : Time) (s : ActionRepoStatus) :=
  mkStatus (LogFile s) (EnqueuedAt s) (StartedAt s) v (Patch s) (Err s).
Definition set_Patch (v : PatchInput) (s : ActionRepoStatus) :=
  mkStatus (LogFile s) (EnqueuedAt s) (StartedAt s) (FinishedAt s) v (Err s).
Definition set_Err (v : option Error) (s : ActionRepoStatus) :=
  mkStatus (LogFile s) (EnqueuedAt s) (StartedAt s) (FinishedAt s) (Patch s) v.

Definition isNil (e : option Error) : bool :=
  match e with None => true | Some _ => false end.

(** What the executor does that the outside can see: the mutex operations
    and the calls of the observer [opt.onUpdate], each with the map it is
    handed. *)
Inductive event : Type :=
| EvLock
| EvUnlock
| EvOnUpdate (m : gmap ActionRepo ActionRepoStatus).

(** [actionExecutor].  [opt.onUpdate] is kept as "configured or nil", its
    calls are recorded in [events]; [reposMu] is [true] while held; a
    channel of [struct{}] that is only ever closed is its "closed" flag;
    [logger.progress] is its two counters. *)
Record actionExecutor := mkExecutor {
  steps : nat;                                 (* len(x.action.Steps) *)
  onUpdate : bool;                             (* x.opt.onUpdate != nil *)
  reposMu : bool;
  repos : gmap ActionRepo ActionRepoStatus;
  par : Run Error;
  done : bool;
  doneEnqueuing : bool;
  totalSteps : Z;
  jobs : Z;
  events : list event
}.

Definition set_reposMu (v : bool) (x : actionExecutor) :=
  mkExecutor (steps x) (onUpdate x) v (repos x) (par x) (done x)
             (doneEnqueuing x) (totalSteps x) (jobs x) (events x).
Definition set_repos (v : gmap ActionRepo ActionRepoStatus) (x : actionExecutor) :=
  mkExecutor (steps x) (onUpdate x) (reposMu x) v (par x) (done x)
             (doneEnqueuing x) (totalSteps x) (jobs x) (events x).
Definition set_par (v : Run Error) (x : actionExecutor) :=
  mkExecutor (steps x) (onUpdate x) (reposMu x) (repos x) v (done x)
             (doneEnqueuing x) (totalSteps x) (jobs x) (events x).
Definition set_done (v : bool) (x : actionExecutor) :=
  mkExecutor (steps x) (onUpdate x) (reposMu x) (repos x) (par x) v
             (doneEnqueuing x) (totalSteps x) (jobs x) (events x).
Definition set_doneEnqueuing (v : bool) (x : actionExecutor) :=
  mkExecutor (steps x) (onUpdate x) (reposMu x) (repos x) (par x) (done x)
             v (totalSteps x) (jobs x) (events x).
Definition set_totalSteps (v : Z) (x : actionExecutor) :=
  mkExecutor (steps x) (onUpdate x) (reposMu x) (repos x) (par x) (done x)
             (doneEnqueuing x) v (jobs x) (events x).
Definition set_jobs (v : Z) (x : actionExecutor) :=
  mkExecutor (steps x) (onUpdate x) (reposMu x) (repos x) (par x) (done x)
             (doneEnqueuing x) (totalSteps x) v (events x).
Definition emit (e : event) (x : actionExecutor) :=
  mkExecutor (steps x) (onUpdate x) (reposMu x) (repos x) (par x) (done x)
             (doneEnqueuing x) (totalSteps x) (jobs x) (events x ++ [e]).

Local Open Scope go_scope.

(** [newActionExecutor]: an empty map, a fresh [parallel.Run], two open
    channels.  (The cache default and the logger play no part here.) *)
Definition newActionExecutor (nsteps : nat) (parallelism : Z) (observer : bool)
  : option actionExecutor :=
  match NewRun parallelism with
  | Some r => Some (mkExecutor nsteps observer false ∅ r false false 0 0 [])
  | None => None
  end.

(** [x.reposMu.Lock()] and [x.reposMu.Unlock()]. *)
Definition Lock : M actionExecutor unit := fun x =>
  if reposMu x then Blocked else Ret tt (emit EvLock (set_reposMu true x)).

Definition Unlock : M actionExecutor unit := fun x =>
  if reposMu x then Ret tt (emit EvUnlock (set_reposMu false x)) else Panicked.

(** [x.opt.onUpdate(x.repos)]: the observer gets the map itself. *)
Definition callOnUpdate : M actionExecutor unit := fun x =>
  Ret tt (emit (EvOnUpdate (repos x)) x).

(** Lines 61-79, the delta update of [status] against [prev]. *)
Definition deltaUpdate (prev status : ActionRepoStatus) : ActionRepoStatus :=
  let status := if String.eqb (LogFile status) ""
                then set_LogFile (LogFile prev) status else status in
  let status := if IsZero (EnqueuedAt status)
                then set_EnqueuedAt (EnqueuedAt prev) status else status in
  let status := if IsZero (StartedAt status)
                then set_StartedAt (StartedAt prev) status else status in
  let status := if IsZero (FinishedAt status)
                then set_FinishedAt (FinishedAt prev) status else status in
  let status := if bool_decide (Patch status = zeroPatch)
                then set_Patch (Patch prev) status else status in
  let status := if isNil (Err status)
                then set_Err (Err prev) status else status in
  status.

(** [updateRepoStatus]; the deferred [Unlock] runs last, after the observer
    has returned. *)
Definition updateRepoStatus (repo : ActionRepo) (status : ActionRepoStatus)
  : M actionExecutor unit :=
  Lock ;;;
  x <- get ;;
  let prev := default zeroStatus (repos x !! repo) in
  let status := deltaUpdate prev status in
  modify (set_repos (<[repo := status]> (repos x))) ;;;
  x <- get ;;
  when (onUpdate x) callOnUpdate ;;;
  Unlock.

(** [enqueueRepo]; [now] is what [time.Now()] reads. *)
Definition enqueueRepo (now : Time) (repo : ActionRepo) : M actionExecutor unit :=
  updateRepoStatus repo
    (mkStatus "" now zeroTime zeroTime zeroPatch None).

(** The loop body of [allPatches] over the entries in the order [range]
    yields them. *)
Fixpoint collectPatches (entries : list (ActionRepo * ActionRepoStatus))
         (patches : list PatchInput) : list PatchInput :=
  match entries with
  | [] => patches
  | (_, status) :: rest =>
      let patch := Patch status in
      if negb (bool_decide (patch = zeroPatch)) && isNil (Err status)
      then collectPatches rest (patches ++ [Patch status])
      else collectPatches rest patches
  end.

(** A [range] over a Go map visits every entry once, in an order that is
    not specified: any permutation of the entries. *)
Definition rangeOrder (m : gmap ActionRepo ActionRepoStatus)
           (order : list (ActionRepo * ActionRepoStatus)) : Prop :=
  order ≡ₚ map_to_list m.

(** [allPatches], for the order in which [range] visits the map. *)
Definition allPatches (order : list (ActionRepo * ActionRepoStatus))
  : M actionExecutor (list PatchInput) :=
  let patches := [] in
  Lock ;;;
  let patches := collectPatches order patches in
  Unlock ;;;
  ret patches.

(** *** [start] and [wait], statement by statement *)

(** An operation of [x.par] run on the executor. *)
Definition onPar {A} (m : M (Run Error) A) : M actionExecutor A := fun x =>
  match m (par x) with
  | Ret a r => Ret a (set_par r x)
  | Blocked => Blocked
  | Panicked => Panicked
  end.

(** [range] over the keys of a Go map: any permutation of them. *)
Definition keysOrder (m : gmap ActionRepo ActionRepoStatus)
           (order : list ActionRepo) : Prop :=
  order ≡ₚ (map_to_list m).*1.

#[global] Instance keysOrder_dec m order : Decision (keysOrder m order).
Proof. unfold keysOrder. apply _. Defined.

(** Lines 119-124: the key set is copied under the lock, in the order
    [range] yields the keys. *)
Definition snapshotRepos (order : list ActionRepo)
  : M actionExecutor (list ActionRepo) :=
  Lock ;;;
  let allRepos := order in
  Unlock ;;;
  ret allRepos.

(** Conversion to [int64] of a product computed in Go's 64-bit [int]. *)
Definition int64 (v : Z) : Z := (v + 2 ^ 63) mod 2 ^ 64 - 2 ^ 63.

(** Line 125: [SetTotalSteps(int64(len(x.repos) * len(x.action.Steps)))],
    which reads the map after the lock has been released. *)
Definition setTotalSteps : M actionExecutor unit :=
  x <- get ;;
  modify (set_totalSteps (int64 (Z.of_nat (size (repos x)) * Z.of_nat (steps x)))).

Definition IncJobs : M actionExecutor unit :=
  x <- get ;; modify (set_jobs (jobs x + 1)).

Definition DecJobs : M actionExecutor unit :=
  x <- get ;; modify (set_jobs (jobs x - 1)).

(** [close] of a channel panics when the channel is closed already; a receive
    from a channel nobody sends on blocks until the channel is closed. *)
Definition closeDoneEnqueuing : M actionExecutor unit := fun x =>
  if doneEnqueuing x then Panicked else Ret tt (set_doneEnqueuing true x).

Definition closeDone : M actionExecutor unit := fun x =>
  if done x then Panicked else Ret tt (set_done true x).

Definition recvDoneEnqueuing : M actionExecutor unit := fun x =>
  if doneEnqueuing x then Ret tt x else Blocked.

(** One round of the sampler goroutine of [start] (lines 110-112), taken
    when [x.done] is still open. *)
Definition sampleOnce : M actionExecutor unit :=
  Lock ;;; callOnUpdate ;;; Unlock.

(** [wait], run by one goroutine with nobody else moving. *)
Definition wait : M actionExecutor (option Error) :=
  recvDoneEnqueuing ;;;
  err <- onPar Wait ;;
  closeDone ;;;
  ret err.

(** *** The goroutines of a run

    Modelled from the spec: [x.do] is declared outside the sources.  It is
    "an opaque per-repository operation" that reports through
    [updateRepoStatus] and returns an error or nil: for each repository, the
    status updates it makes, in order, and the error it returns. *)
Variable do : ActionRepo -> list ActionRepoStatus * option Error.

(** Where the goroutine that calls [start] stands. *)
Inductive start_pc : Type :=
| StNotCalled
| StSetTotal (allRepos : list ActionRepo)        (* line 125 *)
| StLoop (rest : list ActionRepo)                (* line 127, repositories left *)
| StAcquired (repo : ActionRepo) (rest : list ActionRepo)   (* line 129 *)
| StReturned.

(** Where a goroutine launched at line 130 stands. *)
Inductive worker_pc : Type :=
| WkDo (updates : list ActionRepoStatus) (err : option Error)  (* inside x.do *)
| WkErr (err : Error)                            (* line 135 *)
| WkDecJobs                                      (* deferred, line 132 *)
| WkRelease.                                     (* deferred, line 131 *)

(** Where the goroutine that calls [wait] stands. *)
Inductive wait_pc : Type :=
| WtIdle
| WtRecv                                         (* line 144 *)
| WtJoin                                         (* line 145 *)
| WtClose (err : option Error).                  (* line 146 *)

(** The whole program: the executor, a client that still has some
    [enqueueRepo] calls to make, the caller of [start], the sampler, the
    workers, and a caller that makes [waitCalls] calls of [wait] one after
    the other.  An unrecovered panic ends the process ([crashed]).
    [snapshot], [dispatched] and [completed] keep the history: the keys
    copied by [start], the repositories a goroutine was launched for, and
    those whose [x.do] has returned. *)
Record system := mkSystem {
  exec : actionExecutor;
  crashed : bool;
  client : list (Time * ActionRepo);
  starter : start_pc;
  sampler : bool;
  workers : list (ActionRepo * worker_pc);
  waitCalls : nat;
  waiter : wait_pc;
  returned : list (option Error);
  snapshot : option (list ActionRepo);
  dispatched : list ActionRepo;
  completed : list ActionRepo
}.

Definition with_exec (v : actionExecutor) (s : system) :=
  mkSystem v (crashed s) (client s) (starter s) (sampler s) (workers s)
           (waitCalls s) (waiter s) (returned s) (snapshot s) (dispatched s)
           (completed s).
Definition with_crashed (v : bool) (s : system) :=
  mkSystem (exec s) v (client s) (starter s) (sampler s) (workers s)
           (waitCalls s) (waiter s) (returned s) (snapshot s) (dispatched s)
           (completed s).
Definition with_client (v : list (Time * ActionRepo)) (s : system) :=
  mkSystem (exec s) (crashed s) v (starter s) (sampler s) (workers s)
           (waitCalls s) (waiter s) (returned s) (snapshot s) (dispatched s)
           (completed s).
Definition with_starter (v : start_pc) (s : system) :=
  mkSystem (exec s) (crashed s) (client s) v (sampler s) (workers s)
           (waitCalls s) (waiter s) (returned s) (snapshot s) (dispatched s)
           (completed s).
Definition with_sampler (v : bool) (s : system) :=
  mkSystem (exec s) (crashed s) (client s) (starter s) v (workers s)
           (waitCalls s) (waiter s) (returned s) (snapshot s) (dispatched s)
           (completed s).
Definition with_workers (v : list (ActionRepo * worker_pc)) (s : system) :=
  mkSystem (exec s) (crashed s) (client s) (starter s) (sampler s) v
           (waitCalls s) (waiter s) (returned s) (snapshot s) (dispatched s)
           (completed s).
Definition with_waitCalls (v : nat) (s : system) :=
  mkSystem (exec s) (crashed s) (client s) (starter s) (sampler s) (workers s)
           v (waiter s) (returned s) (snapshot s) (dispatched s)
           (completed s).
Definition with_waiter (v : wait_pc) (s : system) :=
  mkSystem (exec s) (crashed s) (client s) (starter s) (sampler s) (workers s)
           (waitCalls s) v (returned s) (snapshot s) (dispatched s)
           (completed s).
Definition with_returned (v : list (option Error)) (s : system) :=
  mkSystem (exec s) (crashed s) (client s) (starter s) (sampler s) (workers s)
           (waitCalls s) (waiter s) v (snapshot s) (dispatched s)
           (completed s).
Definition with_snapshot (v : option (list ActionRepo)) (s : system) :=
  mkSystem (exec s) (crashed s) (client s) (starter s) (sampler s) (workers s)
           (waitCalls s) (waiter s) (returned s) v (dispatched s)
           (completed s).
Definition with_dispatched (v : list ActionRepo) (s : system) :=
  mkSystem (exec s) (crashed s) (client s) (starter s) (sampler s) (workers s)
           (waitCalls s) (waiter s) (returned s) (snapshot s) v
           (completed s).
Definition with_completed (v : list ActionRepo) (s : system) :=
  mkSystem (exec s) (crashed s) (client s) (starter s) (sampler s) (workers s)
           (waitCalls s) (waiter s) (returned s) (snapshot s) (dispatched s)
           v.

(** A goroutine runs [m] on the executor in one go: it cannot move when [m]
    blocks, and a panic takes the process down. *)
Definition atomically {A} (m : M actionExecutor A) (s : system)
           (k : A -> system -> system) : option system :=
  match m (exec s) with
  | Ret a x' => Some (k a (with_exec x' s))
  | Blocked => None
  | Panicked => Some (with_crashed true s)
  end.

(** Which goroutine moves.  [LStart order] is the call of [start] up to line
    124, with the order in which [range] yields the keys; [LWorker i] is the
    next move of the [i]-th live worker. *)
Inductive label : Type :=
| LEnqueue
| LStart (order : list ActionRepo)
| LSetTotal
| LAcquire
| LGo
| LCloseEnq
| LWorker (i : nat)
| LSamplerExit
| LWaitCall
| LWaitRecv
| LWaitJoin
| LWaitClose.

(** The next move of the worker for [repo] at [pc], when it is the [i]-th. *)
Definition worker_step (i : nat) (repo : ActionRepo) (pc : worker_pc)
           (s : system) : option system :=
  match pc with
  | WkDo (status :: updates) err =>
      atomically (updateRepoStatus repo status) s (fun _ s =>
        with_workers (<[i := (repo, WkDo updates err)]> (workers s)) s)
  | WkDo [] (Some err) =>
      Some (with_completed (completed s ++ [repo])
             (with_workers (<[i := (repo, WkErr err)]> (workers s)) s))
  | WkDo [] None =>
      Some (with_completed (completed s ++ [repo])
             (with_workers (<[i := (repo, WkDecJobs)]> (workers s)) s))
  | WkErr err =>
      atomically (onPar (ReportError err)) s (fun _ s =>
        with_workers (<[i := (repo, WkDecJobs)]> (workers s)) s)
  | WkDecJobs =>
      atomically DecJobs s (fun _ s =>
        with_workers (<[i := (repo, WkRelease)]> (workers s)) s)
  | WkRelease =>
      atomically (onPar Release) s (fun _ s =>
        with_workers (delete i (workers s)) s)
  end.

Definition step_fn (l : label) (s : system) : option system :=
  if crashed s then None else
  match l with
  | LEnqueue =>
      match client s with
      | (now, repo) :: calls =>
          atomically (enqueueRepo now repo) s (fun _ s => with_client calls s)
      | [] => None
      end
  | LStart order =>
      match starter s with
      | StNotCalled =>
          if bool_decide (keysOrder (repos (exec s)) order) then
            atomically (snapshotRepos order) s (fun allRepos s =>
              with_snapshot (Some allRepos)
                (with_sampler (onUpdate (exec s))
                  (with_starter (StSetTotal allRepos) s)))
          else None
      | _ => None
      end
  | LSetTotal =>
      match starter s with
      | StSetTotal allRepos =>
          atomically setTotalSteps s (fun _ s => with_starter (StLoop allRepos) s)
      | _ => None
      end
  | LAcquire =>
      match starter s with
      | StLoop (repo :: rest) =>
          atomically (onPar Acquire) s (fun _ s =>
            with_starter (StAcquired repo rest) s)
      | _ => None
      end
  | LGo =>
      match starter s with
      | StAcquired repo rest =>
          atomically IncJobs s (fun _ s =>
            with_dispatched (dispatched s ++ [repo])
              (with_workers (workers s ++ [(repo, WkDo (do repo).1 (do repo).2)])
                (with_starter (StLoop rest) s)))
      | _ => None
      end
  | LCloseEnq =>
      match starter s with
      | StLoop [] =>
          atomically closeDoneEnqueuing s (fun _ s => with_starter StReturned s)
      | _ => None
      end
  | LWorker i =>
      match workers s !! i with
      | Some (repo, pc) => worker_step i repo pc s
      | None => None
      end
  | LSamplerExit =>
      if sampler s && done (exec s) then Some (with_sampler false s) else None
  | LWaitCall =>
      match waiter s, waitCalls s with
      | WtIdle, S n => Some (with_waitCalls n (with_waiter WtRecv s))
      | _, _ => None
      end
  | LWaitRecv =>
      match waiter s with
      | WtRecv =>
          atomically recvDoneEnqueuing s (fun _ s => with_waiter WtJoin s)
      | _ => None
      end
  | LWaitJoin =>
      match waiter s with
      | WtJoin =>
          atomically (onPar Wait) s (fun err s => with_waiter (WtClose err) s)
      | _ => None
      end
  | LWaitClose =>
      match waiter s with
      | WtClose err =>
          atomically closeDone s (fun _ s =>
            with_returned (returned s ++ [err]) (with_waiter WtIdle s))
      | _ => None
      end
  end.

(** A move of the program proper. *)
Definition step (s s' : system) : Prop := exists l, step_fn l s = Some s'.

(** A round of the sampler: it is alive, finds [x.done] open, and shows the
    map to the observer. *)
Definition tick (s s' : system) : Prop :=
  crashed s = false /\ sampler s = true /\ done (exec s) = false /\
  exists x', sampleOnce (exec s) = Ret tt x' /\ s' = with_exec x' s.

Definition sys_step (s s' : system) : Prop := step s s' \/ tick s s'.

(** The program when the executor has just been made: nothing enqueued yet,
    [start] and [wait] not called. *)
Definition initial (nsteps : nat) (parallelism : Z) (observer : bool)
           (calls : list (Time * ActionRepo)) (nwait : nat) : option system :=
  match newActionExecutor nsteps parallelism observer with
  | Some x => Some (mkSystem x false calls StNotCalled false [] nwait WtIdle
                             [] None [] [])
  | None => None
  end.

(** [s] is a state of some run of the program. *)
Definition reachable (s : system) : Prop :=
  exists nsteps parallelism observer calls nwait s0,
    initial nsteps parallelism observer calls nwait = Some s0 /\
    rtc sys_step s0 s.

(** On every path of program moves, [P] comes to hold. *)
Inductive inevitably (P : system -> Prop) : system -> Prop :=
| inev_now s : P s -> inevitably P s
| inev_later s :
    (exists s', step s s') ->
    (forall s', step s s' -> inevitably P s') ->
    inevitably P s.

(** Runs a schedule, given as the list of its labels. *)
Fixpoint run (ls : list label) (s : system) : option system :=
  match ls with
  | [] => Some s
  | l :: ls => match step_fn l s with Some s' => run ls s' | None => None end
  end.

(** *** The merge the specification describes

    For one field: the last incoming value that is not empty, and the value
    stored before when every incoming value is empty. *)
Definition lastSet {A} (isEmpty : A -> bool) (prev : A) (incoming : list A) : A :=
  default prev (last (filter (fun v => isEmpty v = false) incoming)).

Definition emptyLogFile (v : string) : bool := String.eqb v "".
Definition emptyPatch (v : PatchInput) : bool := bool_decide (v = zeroPatch).

(** Field by field, over the statuses handed to the calls, in call order. *)
Definition mergedStatus (prev : ActionRepoStatus)
           (incoming : list ActionRepoStatus) : ActionRepoStatus :=
  mkStatus (lastSet emptyLogFile (LogFile prev) (LogFile <$> incoming))
           (lastSet IsZero (EnqueuedAt prev) (EnqueuedAt <$> incoming))
           (lastSet IsZero (StartedAt prev) (StartedAt <$> incoming))
           (lastSet IsZero (FinishedAt prev) (FinishedAt <$> incoming))
           (lastSet emptyPatch (Patch prev) (Patch <$> incoming))
           (lastSet isNil (Err prev) (Err <$> incoming)).

(** Every field that is set in [old] is set in [new]. *)
Definition keepsFields (old new : ActionRepoStatus) : Prop :=
  (emptyLogFile (LogFile old) = false -> emptyLogFile (LogFile new) = false) /\
  (IsZero (EnqueuedAt old) = false -> IsZero (EnqueuedAt new) = false) /\
  (IsZero (StartedAt old) = false -> IsZero (StartedAt new) = false) /\
  (IsZero (FinishedAt old) = false -> IsZero (FinishedAt new) = false) /\
  (emptyPatch (Patch old) = false -> emptyPatch (Patch new) = false) /\
  (isNil (Err old) = false -> isNil (Err new) = false).

(** The status of [repo] as a map read gives it. *)
Definition statusOf (x : actionExecutor) (repo : ActionRepo) : ActionRepoStatus :=
  default zeroStatus (repos x !! repo).

(** A sequence of [updateRepoStatus] calls, one after the other. *)
Fixpoint updateAll (calls : list (ActionRepo * ActionRepoStatus))
  : M actionExecutor unit :=
  match calls with
  | [] => ret tt
  | (repo, status) :: calls => updateRepoStatus repo status ;;; updateAll calls
  end.

(** The statuses of the calls made for [repo]. *)
Definition callsFor (repo : ActionRepo)
           (calls : list (ActionRepo * ActionRepoStatus)) : list ActionRepoStatus :=
  (filter (fun c => c.1 = repo) calls).*2.

(** The executor after an [updateRepoStatus] that found the lock free. *)
Definition afterUpdate (repo : ActionRepo) (status : ActionRepoStatus)
           (x : actionExecutor) : actionExecutor :=
  let m := <[repo := deltaUpdate (statusOf x repo) status]> (repos x) in
  mkExecutor (steps x) (onUpdate x) false m (par x) (done x) (doneEnqueuing x)
             (totalSteps x) (jobs x)
             (events x ++ [EvLock] ++
                (if onUpdate x then [EvOnUpdate m] else []) ++ [EvUnlock]).

(** ** Properties of the status map *)

Lemma updateRepoStatus_unlocked repo status x :
  reposMu x = false ->
  updateRepoStatus repo status x = Ret tt (afterUpdate repo status x).
Proof.
  intros Hmu. destruct x as [st ob mu m p d de ts j ev]. simpl in Hmu. subst mu.
  unfold updateRepoStatus, afterUpdate, statusOf, bind, Lock, get, modify, when,
    callOnUpdate, Unlock, ret, emit, set_repos, set_reposMu; simpl.
  destruct ob; simpl; rewrite <- ?app_assoc; reflexivity.
Qed.

Lemma updateRepoStatus_locked repo status x :
  reposMu x = true -> updateRepoStatus repo status x = Blocked.
Proof.
  intros Hmu. unfold updateRepoStatus, bind, Lock. rewrite Hmu. reflexivity.
Qed.

Lemma statusOf_afterUpdate repo status x :
  statusOf (afterUpdate repo status x) repo = deltaUpdate (statusOf x repo) status.
Proof. unfold statusOf at 1, afterUpdate; simpl. by rewrite lookup_insert_eq. Qed.

Lemma statusOf_afterUpdate_ne repo repo' status x :
  repo <> repo' ->
  statusOf (afterUpdate repo status x) repo' = statusOf x repo'.
Proof.
  intros Hne. unfold statusOf, afterUpdate; simpl. by rewrite lookup_insert_ne.
Qed.

Lemma deltaUpdate_fields prev status :
  deltaUpdate prev status =
  mkStatus (if emptyLogFile (LogFile status) then LogFile prev else LogFile status)
           (if IsZero (EnqueuedAt status) then EnqueuedAt prev else EnqueuedAt status)
           (if IsZero (StartedAt status) then StartedAt prev else StartedAt status)
           (if IsZero (FinishedAt status) then FinishedAt prev else FinishedAt status)
           (if emptyPatch (Patch status) then Patch prev else Patch status)
           (if isNil (Err status) then Err prev else Err status).
Proof.
  destruct status as [lf en sa fi pa er].
  unfold deltaUpdate, emptyLogFile, emptyPatch; simpl.
  destruct (String.eqb lf ""); simpl.
  all: destruct (IsZero en); simpl.
  all: destruct (IsZero sa); simpl.
  all: destruct (IsZero fi); simpl.
  all: destruct (bool_decide (pa = zeroPatch)); simpl.
  all: destruct (isNil er); reflexivity.
Qed.

Lemma lastSet_nil {A} (isEmpty : A -> bool) prev : lastSet isEmpty prev [] = prev.
Proof. reflexivity. Qed.

Lemma lastSet_cons {A} (isEmpty : A -> bool) prev v vs :
  lastSet isEmpty prev (v :: vs) =
  lastSet isEmpty (if isEmpty v then prev else v) vs.
Proof.
  unfold lastSet. rewrite filter_cons.
  destruct (isEmpty v) eqn:Hv.
  - rewrite decide_False by congruence. reflexivity.
  - rewrite decide_True by reflexivity. rewrite last_cons.
    destruct (last _); reflexivity.
Qed.

Lemma lastSet_keeps {A} (isEmpty : A -> bool) prev vs :
  isEmpty prev = false -> isEmpty (lastSet isEmpty prev vs) = false.
Proof.
  revert prev. induction vs as [|v vs IH]; intros prev Hp; [done|].
  rewrite lastSet_cons. apply IH. by destruct (isEmpty v) eqn:Hv.
Qed.

Lemma mergedStatus_nil prev : mergedStatus prev [] = prev.
Proof. by destruct prev. Qed.

Lemma mergedStatus_cons prev status incoming :
  mergedStatus prev (status :: incoming) =
  mergedStatus (deltaUpdate prev status) incoming.
Proof.
  rewrite deltaUpdate_fields. unfold mergedStatus. simpl.
  by rewrite !lastSet_cons.
Qed.

Lemma mergedStatus_keeps prev incoming :
  keepsFields prev (mergedStatus prev incoming).
Proof. unfold keepsFields, mergedStatus; simpl. repeat split; apply lastSet_keeps. Qed.

Lemma updateAll_unlocked calls x :
  reposMu x = false ->
  exists x', updateAll calls x = Ret tt x' /\ reposMu x' = false /\
    (forall repo, statusOf x' repo =
                  mergedStatus (statusOf x repo) (callsFor repo calls)) /\
    (forall repo, is_Some (repos x !! repo) -> is_Some (repos x' !! repo)) /\
    (forall repo, callsFor repo calls <> [] -> is_Some (repos x' !! repo)).
Proof.
  revert x. induction calls as [|[r st] calls IH]; intros x Hmu.
  - exists x. repeat split; [done| |done|done].
    intros repo. unfold callsFor. simpl. by rewrite mergedStatus_nil.
  - simpl. unfold bind. rewrite updateRepoStatus_unlocked by done.
    destruct (IH (afterUpdate r st x) eq_refl)
      as (x' & Hrun & Hmu' & Hst & Hkeep & Hin).
    exists x'. split; [done|]. split; [done|]. split; [|split].
    + intros repo. rewrite Hst. unfold callsFor. rewrite filter_cons. simpl.
      destruct (decide (r = repo)) as [->|Hne].
      * simpl. by rewrite mergedStatus_cons, statusOf_afterUpdate.
      * by rewrite statusOf_afterUpdate_ne.
    + intros repo Hs. apply Hkeep. simpl.
      destruct (decide (r = repo)) as [->|Hne].
      * rewrite lookup_insert_eq. by eexists.
      * by rewrite lookup_insert_ne.
    + intros repo. unfold callsFor. rewrite filter_cons. simpl.
      destruct (decide (r = repo)) as [->|Hne]; [|apply Hin].
      intros _. apply Hkeep. simpl. rewrite lookup_insert_eq. by eexists.
Qed.

(** C1.  Any sequence of [updateRepoStatus] calls made with the lock free
    runs to its end, and the status then stored for a repository is the
    field-wise merge of the calls made for it, in call order: for each of
    LogFile, EnqueuedAt, StartedAt, FinishedAt, Patch and Err the last
    incoming value that is not empty wins, an empty incoming value keeps what
    was stored, and no field that was set is left unset.  Calls for other
    repositories in between change nothing. *)
Theorem updateRepoStatus_last_nonempty_wins
        (x : actionExecutor) (repo : ActionRepo)
        (calls : list (ActionRepo * ActionRepoStatus)) :
  reposMu x = false ->
  exists x',
    updateAll calls x = Ret tt x' /\
    statusOf x' repo = mergedStatus (statusOf x repo) (callsFor repo calls) /\
    (callsFor repo calls <> [] ->
     repos x' !! repo =
       Some (mergedStatus (statusOf x repo) (callsFor repo calls))) /\
    keepsFields (statusOf x repo) (statusOf x' repo).
Proof.
  intros Hmu.
  destruct (updateAll_unlocked calls x Hmu) as (x' & Hrun & _ & Hst & _ & Hin).
  exists x'. split; [done|]. split; [apply Hst|]. split.
  - intros Hne. specialize (Hin repo Hne). specialize (Hst repo).
    unfold statusOf at 1 in Hst. destruct Hin as [st Hl].
    rewrite Hl in Hst |- *. simpl in Hst. by rewrite Hst.
  - rewrite Hst. apply mergedStatus_keeps.
Qed.

(** *** The observer *)

(** In a trace, every call of the observer comes after an [Unlock]. *)
Definition observedAfterUnlock (evs : list event) : Prop :=
  forall i m, evs !! i = Some (EvOnUpdate m) ->
              exists j, (j < i)%nat /\ evs !! j = Some EvUnlock.

(** C6, as the code has it.  An [updateRepoStatus] call that finds the lock
    free stores the merged status and then, when an observer is configured,
    calls it exactly once, with the whole map as it stands after the store,
    and releases the lock only after the observer has returned; with no
    observer configured there is no call. *)
Theorem updateRepoStatus_observer_under_lock
        (x : actionExecutor) (repo : ActionRepo) (status : ActionRepoStatus) :
  reposMu x = false ->
  exists x',
    updateRepoStatus repo status x = Ret tt x' /\
    repos x' = <[repo := deltaUpdate (statusOf x repo) status]> (repos x) /\
    reposMu x' = false /\
    events x' = events x ++
                (if onUpdate x
                 then [EvLock; EvOnUpdate (repos x'); EvUnlock]
                 else [EvLock; EvUnlock]).
Proof.
  intros Hmu. exists (afterUpdate repo status x).
  split; [by apply updateRepoStatus_unlocked|].
  split; [done|]. split; [done|]. simpl. by destruct (onUpdate x).
Qed.

(** *** [enqueueRepo] *)

(** C8, as the code has it.  With the lock free and a clock that does not
    read the zero instant, [enqueueRepo] sets EnqueuedAt to the clock's
    reading and leaves every other field as stored: for a repository not in
    the map the status has only the enqueued timestamp set; a second call
    keeps all of the first call's status but EnqueuedAt, which becomes the
    second reading. *)
Theorem enqueueRepo_sets_enqueued_only
        (x : actionExecutor) (repo : ActionRepo) (now1 now2 : Time) :
  reposMu x = false -> IsZero now1 = false -> IsZero now2 = false ->
  exists x1 x2,
    enqueueRepo now1 repo x = Ret tt x1 /\
    enqueueRepo now2 repo x1 = Ret tt x2 /\
    repos x1 !! repo = Some (set_EnqueuedAt now1 (statusOf x repo)) /\
    (repos x !! repo = None ->
     repos x1 !! repo = Some (mkStatus "" now1 zeroTime zeroTime zeroPatch None)) /\
    repos x2 !! repo = Some (set_EnqueuedAt now2 (statusOf x1 repo)) /\
    (now2 = now1 -> repos x2 = repos x1).
Proof.
  intros Hmu Hn1 Hn2.
  assert (Henq : forall now y, IsZero now = false ->
            deltaUpdate (statusOf y repo)
              (mkStatus "" now zeroTime zeroTime zeroPatch None)
            = set_EnqueuedAt now (statusOf y repo)).
  { intros now y Hn. rewrite deltaUpdate_fields. simpl. rewrite Hn.
    unfold emptyPatch. rewrite bool_decide_eq_true_2 by done. reflexivity. }
  exists (afterUpdate repo (mkStatus "" now1 zeroTime zeroTime zeroPatch None) x).
  eexists. unfold enqueueRepo.
  split; [by apply updateRepoStatus_unlocked|].
  split; [by apply updateRepoStatus_unlocked|].
  simpl. rewrite !lookup_insert_eq, !Henq by done.
  split; [done|]. split.
  { intros Hnone. unfold statusOf. by rewrite Hnone. }
  split; [done|].
  intros ->. rewrite insert_insert_eq. f_equal.
  unfold statusOf at 1. simpl. rewrite lookup_insert_eq. simpl.
  rewrite Henq by done. by destruct (statusOf x repo).
Qed.

(** *** [allPatches] *)

(** A status whose patch is collected: no error and a patch that is not the
    zero [PatchInput]. *)
Definition collectable (status : ActionRepoStatus) : Prop :=
  Err status = None /\ Patch status <> zeroPatch.

#[global] Instance collectable_dec status : Decision (collectable status).
Proof. unfold collectable. destruct (Err status); apply _. Defined.

Lemma collectPatches_filter entries acc :
  collectPatches entries acc =
  acc ++ (Patch <$> filter collectable entries.*2).
Proof.
  revert acc. induction entries as [|[r st] entries IH]; intros acc; simpl.
  { by rewrite app_nil_r. }
  rewrite filter_cons.
  destruct (decide (collectable st)) as [[He Hp]|Hn]; simpl.
  - rewrite He. simpl. rewrite bool_decide_eq_false_2 by done. simpl.
    rewrite IH. by rewrite <- app_assoc.
  - destruct (Err st) as [e|] eqn:He; simpl.
    + rewrite andb_false_r. apply IH.
    + rewrite andb_true_r. case_bool_decide as Hp; simpl; [apply IH|].
      exfalso. apply Hn. by split.
Qed.

(** C2.  Whatever the order in which [range] visits the map, an
    [allPatches] call that finds the lock free returns, leaves the map as it
    is, and its result is, as a multiset, the patches of the entries whose
    stored status has no error and a patch other than the zero value: a
    patch is in the result exactly when such a repository holds it.  The
    result lists them in the order of the visit, which is not fixed. *)
Theorem allPatches_collects
        (x : actionExecutor) (order : list (ActionRepo * ActionRepoStatus)) :
  reposMu x = false -> rangeOrder (repos x) order ->
  exists patches x',
    allPatches order x = Ret patches x' /\
    repos x' = repos x /\
    patches = Patch <$> filter collectable order.*2 /\
    patches ≡ₚ Patch <$> filter collectable (map_to_list (repos x)).*2 /\
    (forall p, p ∈ patches <->
       exists repo status, repos x !! repo = Some status /\
                           collectable status /\ Patch status = p).
Proof.
  intros Hmu Hord.
  exists (Patch <$> filter collectable order.*2).
  exists (emit EvUnlock (set_reposMu false (emit EvLock (set_reposMu true x)))).
  assert (Hperm : Patch <$> filter collectable order.*2
                  ≡ₚ Patch <$> filter collectable (map_to_list (repos x)).*2).
  { unfold rangeOrder in Hord. by rewrite Hord. }
  split.
  { unfold allPatches, bind, Lock, Unlock, ret. rewrite Hmu. simpl.
    by rewrite collectPatches_filter. }
  split; [done|]. split; [done|]. split; [done|].
  intros p. rewrite Hperm. rewrite list_elem_of_fmap. split.
  - intros (st & -> & Hin). apply list_elem_of_filter in Hin as [Hc Hin].
    apply list_elem_of_fmap in Hin as ([r st'] & -> & Hin).
    apply elem_of_map_to_list in Hin. by exists r, st'.
  - intros (r & st & Hl & Hc & <-). exists st. split; [done|].
    apply list_elem_of_filter. split; [done|].
    apply list_elem_of_fmap. exists (r, st). split; [done|].
    by apply elem_of_map_to_list.
Qed.

(** ** The run as a whole *)

(** A worker that is still inside [x.do]. *)
Definition inDo (w : ActionRepo * worker_pc) : Prop :=
  match w.2 with WkDo _ _ => True | _ => False end.

#[global] Instance inDo_dec w : Decision (inDo w).
Proof. unfold inDo. destruct (w.2); apply _. Defined.

(** The repositories [start] has still to launch a goroutine for. *)
Definition todo (pc : start_pc) : list ActionRepo :=
  match pc with
  | StSetTotal l | StLoop l => l
  | StAcquired repo rest => repo :: rest
  | StNotCalled | StReturned => []
  end.

(** The permit [start] holds between [Acquire] and the [go] statement. *)
Definition holding (pc : start_pc) : Z :=
  match pc with StAcquired _ _ => 1 | _ => 0 end.

Lemma atomically_Some {A} (m : M actionExecutor A) s k s' :
  atomically m s k = Some s' ->
  (exists a x', m (exec s) = Ret a x' /\ s' = k a (with_exec x' s)) \/
  (m (exec s) = Panicked /\ s' = with_crashed true s).
Proof.
  unfold atomically. destruct (m (exec s)) as [a x'| |]; intros Hs;
    simplify_eq; eauto.
Qed.

Ltac unfold_ops :=
  unfold enqueueRepo, snapshotRepos, setTotalSteps, IncJobs, DecJobs,
    closeDoneEnqueuing, closeDone, recvDoneEnqueuing, sampleOnce, onPar,
    Acquire, Release, ReportError, Wait, Lock, Unlock, callOnUpdate,
    bind, ret, get, modify, when in *.

(** What holds of a worker, given the history. *)
Definition workerOk (completed : list ActionRepo)
           (w : ActionRepo * worker_pc) : Prop :=
  match w.2 with
  | WkDo _ err => err = (do w.1).2
  | WkErr err => (do w.1).2 = Some err /\ w.1 ∈ completed
  | WkDecJobs | WkRelease => w.1 ∈ completed
  end.

(** The invariant of the run. *)
Record Inv (s : system) : Prop := mkInv {
  inv_mu : reposMu (exec s) = false;
  inv_limit : 0 <= limit (par (exec s));
  inv_permits :
    outstanding (par (exec s)) =
    Z.of_nat (length (workers s)) + holding (starter s);
  inv_bound : outstanding (par (exec s)) <= limit (par (exec s));
  inv_snapshot :
    match starter s with
    | StNotCalled => snapshot s = None /\ dispatched s = []
    | pc => snapshot s = Some (dispatched s ++ todo pc)
    end;
  inv_nodup : forall snap, snapshot s = Some snap -> NoDup snap;
  inv_doneEnq : doneEnqueuing (exec s) = true <-> starter s = StReturned;
  inv_workers :
    dispatched s ≡ₚ completed s ++ (filter inDo (workers s)).*1;
  inv_alive : Forall (workerOk (completed s)) (workers s);
  inv_firstErr :
    forall e, firstErr (par (exec s)) = Some e ->
              exists r, r ∈ completed s /\ (do r).2 = Some e;
  inv_reported :
    forall r e, r ∈ completed s -> (do r).2 = Some e ->
                (r, WkErr e) ∈ workers s \/ is_Some (firstErr (par (exec s)));
  inv_waiter :
    match waiter s with
    | WtIdle | WtRecv => True
    | WtJoin => starter s = StReturned
    | WtClose v =>
        starter s = StReturned /\ workers s = [] /\
        v = firstErr (par (exec s))
    end;
  inv_returned :
    forall v, v ∈ returned s ->
              starter s = StReturned /\ workers s = [] /\
              v = firstErr (par (exec s));
  inv_done : done (exec s) = true <-> returned s <> [];
  inv_crashed : crashed s = true -> returned s <> [];
  inv_once : (length (returned s) <= 1)%nat
}.

(** Breaks a move into its cases, each with the new state spelled out. *)
Ltac step_cases Hmu Hl :=
  unfold step_fn, worker_step in Hl;
  destruct (crashed _) eqn:Hcr in Hl; [done|];
  match type of Hl with match ?l with _ => _ end = _ => destruct l end;
  repeat case_match; simplify_eq;
  try (apply atomically_Some in Hl as [(? & ? & ? & ->)|[? ->]]);
  try done;
  unfold enqueueRepo in *;
  try match goal with
      | Hm : updateRepoStatus _ _ _ = _ |- _ =>
          rewrite updateRepoStatus_unlocked in Hm by done
      end;
  unfold_ops; simpl in *; rewrite ?Hmu in *; simpl in *;
  repeat case_match; simplify_eq; simpl.

Lemma step_mu s s' :
  reposMu (exec s) = false -> step s s' -> reposMu (exec s') = false.
Proof. intros Hmu [l Hl]. step_cases Hmu Hl; done. Qed.

Lemma tick_exec s s' :
  reposMu (exec s) = false -> tick s s' ->
  exists evs, s' = with_exec
    (mkExecutor (steps (exec s)) (onUpdate (exec s)) false (repos (exec s))
       (par (exec s)) (done (exec s)) (doneEnqueuing (exec s))
       (totalSteps (exec s)) (jobs (exec s)) (events (exec s) ++ evs)) s.
Proof.
  intros Hmu (_ & _ & _ & x' & Hx & ->). unfold_ops. rewrite Hmu in Hx.
  simpl in Hx. simplify_eq.
  exists [EvLock; EvOnUpdate (repos (exec s)); EvUnlock].
  unfold with_exec, emit, set_reposMu; simpl. rewrite <- !app_assoc.
  reflexivity.
Qed.

Ltac bool_hyps :=
  repeat match goal with
    | Hb : (_ <? _) = true |- _ => apply Z.ltb_lt in Hb
    | Hb : (_ <? _) = false |- _ => apply Z.ltb_ge in Hb
    | Hb : (_ =? _) = true |- _ => apply Z.eqb_eq in Hb
    | Hb : (_ =? _) = false |- _ => apply Z.eqb_neq in Hb
    | Hb : bool_decide _ = true |- _ => apply bool_decide_eq_true in Hb
    | Hb : _ && _ = true |- _ => apply andb_true_iff in Hb as [? ?]
    end.

(** *** Lists of workers, changed at an index *)

Lemma worker_split (ws : list (ActionRepo * worker_pc)) i w :
  ws !! i = Some w ->
  ws = take i ws ++ w :: drop (S i) ws /\
  (forall w', <[i:=w']> ws = take i ws ++ w' :: drop (S i) ws) /\
  delete i ws = take i ws ++ drop (S i) ws.
Proof.
  intros Hl. split; [by rewrite take_drop_middle|]. split.
  - intros w'. apply insert_take_drop. by eapply lookup_lt_Some.
  - apply delete_take_drop.
Qed.

Lemma inDo_insert_leave (ws : list (ActionRepo * worker_pc)) i r pc pc' :
  ws !! i = Some (r, pc) -> inDo (r, pc) -> ~ inDo (r, pc') ->
  (filter inDo ws).*1 ≡ₚ r :: (filter inDo (<[i:=(r, pc')]> ws)).*1.
Proof.
  intros Hl Hin Hout. destruct (worker_split _ _ _ Hl) as (Hws & Hins & _).
  rewrite Hins. rewrite Hws at 1.
  rewrite !filter_app, !filter_cons, !fmap_app.
  rewrite decide_True by done. rewrite decide_False by done. simpl.
  by rewrite Permutation_middle.
Qed.

Lemma inDo_insert_same (ws : list (ActionRepo * worker_pc)) i r pc pc' :
  ws !! i = Some (r, pc) -> (inDo (r, pc) <-> inDo (r, pc')) ->
  (filter inDo (<[i:=(r, pc')]> ws)).*1 = (filter inDo ws).*1.
Proof.
  intros Hl Hiff. destruct (worker_split _ _ _ Hl) as (Hws & Hins & _).
  rewrite Hins. rewrite Hws at 3.
  rewrite !filter_app, !filter_cons, !fmap_app.
  destruct (decide (inDo (r, pc))) as [Hd|Hd].
  - rewrite decide_True by tauto. reflexivity.
  - rewrite decide_False by tauto. reflexivity.
Qed.

Lemma inDo_delete (ws : list (ActionRepo * worker_pc)) i r pc :
  ws !! i = Some (r, pc) -> ~ inDo (r, pc) ->
  filter inDo (delete i ws) = filter inDo ws.
Proof.
  intros Hl Hout. destruct (worker_split _ _ _ Hl) as (Hws & _ & Hdel).
  rewrite Hdel. rewrite Hws at 3.
  rewrite !filter_app, !filter_cons. by rewrite decide_False.
Qed.

Lemma elem_of_insert_other {A} (l : list A) i x y z :
  x ∈ l -> l !! i = Some y -> x <> y -> x ∈ <[i:=z]> l.
Proof.
  intros Hx Hl Hne. apply list_elem_of_lookup in Hx as [j Hj].
  apply list_elem_of_lookup. exists j.
  rewrite list_lookup_insert_ne; [done|]. intros ->. congruence.
Qed.

Lemma elem_of_delete_other {A} (l : list A) i x y :
  x ∈ l -> l !! i = Some y -> x <> y -> x ∈ delete i l.
Proof.
  intros Hx Hl Hne.
  rewrite (delete_Permutation l i y Hl) in Hx.
  apply elem_of_cons in Hx as [->|Hx]; done.
Qed.

Lemma elem_of_insert_here {A} (l : list A) i y z :
  l !! i = Some y -> z ∈ <[i:=z]> l.
Proof.
  intros Hl. apply list_elem_of_lookup. exists i.
  apply list_lookup_insert_eq. by eapply lookup_lt_Some.
Qed.

Lemma workerOk_mono completed completed' w :
  completed ⊆ completed' -> workerOk completed w -> workerOk completed' w.
Proof.
  intros Hsub. unfold workerOk. destruct (w.2); [done| | |]; set_solver.
Qed.

(** *** The invariant is kept by every move *)

Lemma Inv_tick s s' : Inv s -> tick s s' -> Inv s'.
Proof.
  intros HI Ht. destruct (tick_exec s s' (inv_mu _ HI) Ht) as [evs ->].
  destruct HI. by constructor.
Qed.

Ltac no_workers :=
  match goal with
  | Hw : workers ?s = [], Hl : workers ?s !! _ = Some _ |- _ =>
      rewrite Hw in Hl; done
  end.

Ltac use_pcs :=
  repeat match goal with
    | Hpc : starter _ = _ |- _ => rewrite Hpc in *; revert Hpc
    | Hpc : waiter _ = _ |- _ => rewrite Hpc in *; revert Hpc
    end;
  intros.

Ltac pcs_in_goal :=
  repeat match goal with
    | Hpc : starter ?s = _ |- context [starter ?s] => rewrite Hpc
    | Hpc : waiter ?s = _ |- context [waiter ?s] => rewrite Hpc
    end.

Lemma Inv_step s s' : Inv s -> step s s' -> Inv s'.
Proof.
  intros HI [l Hl]. pose proof (inv_mu _ HI) as Hmu.
  step_cases Hmu Hl; bool_hyps.
  all: destruct HI as [_ Hlim Hper Hbnd Hsnap Hnd Hde Hwk Hal Hfe Hrep Hwt Hret
                    Hdn Hcrd Honce].
  all: use_pcs; simpl in *.
  all: try match goal with
         | Hw : workers _ !! _ = Some _ |- _ =>
             pose proof (proj1 (Forall_lookup _ _) Hal _ _ Hw) as Hme;
             unfold workerOk in Hme; simpl in Hme
         end.
  all: constructor; simpl; pcs_in_goal; simpl.
  all: try done.
  all: try lia.
  all: try (rewrite ?length_app, ?length_insert; simpl; lia).
  all: try solve [intuition congruence].
  all: try (intros v Hv; destruct (Hret v Hv) as (Hs & Hw & Hf);
            first [congruence | no_workers]).
  all: try (destruct (waiter s); try done;
            first [destruct Hwt as (Hs & Hw & Hf); first [congruence|no_workers]
                  | congruence]).
  (* snapshot *)
  all: try match goal with
         | Hs : _ = None /\ _ = [] |- _ => destruct Hs as [_ Hs]; by rewrite Hs
         end.
  all: try (by rewrite <- app_assoc).
  all: try (intros snap [= <-]; unfold keysOrder in *;
            match goal with Hk : _ ≡ₚ _ |- _ => rewrite Hk end;
            apply NoDup_fst_map_to_list).
  (* workers *)
  all: try (apply Forall_insert;
            [eapply Forall_impl; [exact Hal|];
             intros w; apply workerOk_mono; set_solver
            |unfold workerOk; simpl; set_solver]).
  all: try (by apply Forall_delete).
  all: try (apply Forall_app; split; [done|by repeat constructor]).
  (* the bookkeeping of dispatched and completed *)
  all: try (rewrite filter_app, fmap_app, filter_cons, decide_True by done;
            simpl; rewrite Hwk, app_assoc; reflexivity).
  all: try (rewrite <- app_assoc; simpl; erewrite <- inDo_insert_leave;
            [exact Hwk | eassumption | exact I | by intros []]).
  all: try (erewrite inDo_insert_same;
            [exact Hwk | eassumption | unfold inDo; simpl; tauto]).
  all: try (erewrite inDo_delete; [exact Hwk | eassumption | by intros []]).
  (* the first error *)
  all: try (intros e0 He0; destruct (Hfe _ He0) as (r & Hr & Hd); exists r;
            split; [set_solver|done]).
  all: try (intros e0 [= <-];
            first [by apply Hfe | by (destruct Hme; eexists; split; eauto)]).
  (* errors are reported *)
  all: try (intros r e0 Hr Hd; right; by eexists).
  all: try (intros r e0 Hr Hd;
            try (apply elem_of_app in Hr as [Hr|Hr%list_elem_of_singleton];
                 [|subst r; first [congruence
                   | left; assert (e = e0) as -> by congruence;
                     eapply elem_of_insert_here; eassumption]]);
            destruct (Hrep r e0 Hr Hd) as [Hin|Hs]; [left|by right];
            first [ apply elem_of_app; by left
                  | eapply elem_of_insert_other; [exact Hin|eassumption|congruence]
                  | eapply elem_of_delete_other; [exact Hin|eassumption|congruence] ]).
  (* a permit is given back *)
  all: try (match goal with
            | Hw : workers _ !! _ = Some _ |- _ =>
                rewrite length_delete by eauto;
                apply lookup_lt_Some in Hw; lia
            end).
  (* the join *)
  all: try (split; [done|]; split; [|done];
            apply nil_length_inv; lia).
  all: try (intros v [Hv|Hv%list_elem_of_singleton]%elem_of_app;
            [by apply Hret|by subst v]).
  all: try (split; [intros _; by destruct (returned s)|done]).
  all: try (destruct (returned s) as [|v0 vs]; [simpl; lia|];
            assert (done (exec s) = true) by (by apply Hdn); congruence).
Qed.

Lemma Inv_initial nsteps parallelism observer calls nwait s0 :
  initial nsteps parallelism observer calls nwait = Some s0 -> Inv s0.
Proof.
  unfold initial, newActionExecutor, NewRun.
  destruct (parallelism <? 0) eqn:Hp; [done|]. intros [= <-].
  apply Z.ltb_ge in Hp.
  constructor; simpl; try done; try lia.
  - intros r e Hr. by apply elem_of_nil in Hr.
  - intros v Hv. by apply elem_of_nil in Hv.
Qed.

Lemma Inv_rtc s s' : Inv s -> rtc sys_step s s' -> Inv s'.
Proof.
  intros HI Hrtc. induction Hrtc as [|s1 s2 s3 [Hs|Ht] _ IH]; [done| |].
  - apply IH. by eapply Inv_step.
  - apply IH. by eapply Inv_tick.
Qed.

Lemma reachable_Inv s : reachable s -> Inv s.
Proof.
  intros (n & p & ob & calls & k & s0 & Hinit & Hrtc).
  eapply Inv_rtc; [|done]. by eapply Inv_initial.
Qed.

Lemma reachable_step s s' : reachable s -> sys_step s s' -> reachable s'.
Proof.
  intros (n & p & ob & calls & k & s0 & Hinit & Hrtc) Hs.
  exists n, p, ob, calls, k, s0. split; [done|]. by eapply rtc_r.
Qed.

Lemma reachable_rtc s s' : reachable s -> rtc sys_step s s' -> reachable s'.
Proof.
  intros (n & p & ob & calls & k & s0 & Hinit & Hrtc) Hs.
  exists n, p, ob, calls, k, s0. split; [done|]. by etrans.
Qed.

(** *** Every run comes to an end *)

(** Moves a worker has still to make. *)
Definition worker_weight (w : ActionRepo * worker_pc) : nat :=
  match w.2 with
  | WkDo updates _ => length updates + 4
  | WkErr _ => 3
  | WkDecJobs => 2
  | WkRelease => 1
  end.

(** Moves that launching [repo] and running its worker take. *)
Definition cost (repo : ActionRepo) : nat := length (do repo).1 + 6.

Definition starter_weight (pc : start_pc) : nat :=
  match pc with
  | StNotCalled | StReturned => 0
  | StSetTotal l => 2 + sum_list_with cost l
  | StLoop l => 1 + sum_list_with cost l
  | StAcquired repo l => sum_list_with cost l + cost repo
  end.

Definition waiter_weight (pc : wait_pc) : nat :=
  match pc with WtIdle => 0 | WtRecv => 3 | WtJoin => 2 | WtClose _ => 1 end.

(** A bound on the moves left once [start] has taken its snapshot. *)
Definition measure (s : system) : nat :=
  if crashed s then 0%nat else
    (1 + length (client s) + starter_weight (starter s) +
     sum_list_with worker_weight (workers s) +
     4 * waitCalls s + waiter_weight (waiter s) +
     (if sampler s then 1 else 0))%nat.

(** A bound on the moves before [start] is called. *)
Definition measure_pre (s : system) : nat :=
  (length (client s) + 4 * waitCalls s + waiter_weight (waiter s))%nat.

Lemma weight_insert (ws : list (ActionRepo * worker_pc)) i w w' :
  ws !! i = Some w ->
  (sum_list_with worker_weight (<[i:=w']> ws) + worker_weight w =
   sum_list_with worker_weight ws + worker_weight w')%nat.
Proof.
  intros Hl. destruct (worker_split _ _ _ Hl) as (Hws & Hins & _).
  rewrite Hins. rewrite Hws at 3.
  rewrite !sum_list_with_app. simpl. lia.
Qed.

Lemma weight_delete (ws : list (ActionRepo * worker_pc)) i w :
  ws !! i = Some w ->
  (sum_list_with worker_weight (delete i ws) + worker_weight w =
   sum_list_with worker_weight ws)%nat.
Proof.
  intros Hl. destruct (worker_split _ _ _ Hl) as (Hws & _ & Hdel).
  rewrite Hdel. rewrite Hws at 3.
  rewrite !sum_list_with_app. simpl. lia.
Qed.

Lemma step_measure s s' :
  Inv s -> starter s <> StNotCalled -> step s s' ->
  (measure s' < measure s)%nat /\ starter s' <> StNotCalled.
Proof.
  intros HI Hst [l Hl]. pose proof (inv_mu _ HI) as Hmu.
  step_cases Hmu Hl; bool_hyps.
  all: unfold measure; simpl; rewrite Hcr.
  all: split; [|try done; try congruence].
  all: repeat match goal with
         | Hx : starter _ = _ |- _ => rewrite Hx
         | Hx : waiter _ = _ |- _ => rewrite Hx
         | Hx : client _ = _ |- _ => rewrite Hx
         | Hx : waitCalls _ = _ |- _ => rewrite Hx
         | Hx : sampler _ = _ |- _ => rewrite Hx
         end; simpl.
  all: try lia.
  all: try (rewrite ?length_app, ?sum_list_with_app;
            unfold cost, worker_weight; simpl; lia).
  all: try match goal with
         | Hw : workers _ !! ?i = Some ?w
           |- context [sum_list_with _ (<[?i:=?w']> _)] =>
             pose proof (weight_insert _ _ _ w' Hw) as Hwi;
             unfold worker_weight at 2 4 in Hwi; simpl in Hwi; lia
         | Hw : workers _ !! ?i = Some ?w
           |- context [sum_list_with _ (delete ?i _)] =>
             pose proof (weight_delete _ _ _ Hw) as Hwi;
             unfold worker_weight at 2 in Hwi; simpl in Hwi; lia
         end.
Qed.

(** Before [start] is called nothing is running. *)
Lemma pre_start s :
  Inv s -> starter s = StNotCalled ->
  workers s = [] /\ doneEnqueuing (exec s) = false /\
  done (exec s) = false /\ crashed s = false /\ returned s = [] /\
  (waiter s = WtIdle \/ waiter s = WtRecv).
Proof.
  intros HI Hst.
  assert (Hret : returned s = []).
  { destruct (returned s) as [|v vs] eqn:Hr; [done|].
    destruct (inv_returned _ HI v) as (Hs & _); [rewrite Hr; left|congruence]. }
  assert (Hws : workers s = []).
  { pose proof (inv_snapshot _ HI) as Hsn. rewrite Hst in Hsn.
    destruct Hsn as [_ Hd]. pose proof (inv_workers _ HI) as Hwk.
    rewrite Hd in Hwk. symmetry in Hwk. apply Permutation_nil_r in Hwk.
    apply app_eq_nil in Hwk as [Hc Hf].
    destruct (workers s) as [|[r pc] ws] eqn:Hw; [done|]. exfalso.
    pose proof (inv_alive _ HI) as Hal. rewrite Hw in Hal.
    apply Forall_cons in Hal as [Hme _]. unfold workerOk in Hme. simpl in Hme.
    rewrite Hc in Hme. rewrite filter_cons in Hf.
    destruct pc as [us e|e| |]; simpl in *.
    - done.
    - destruct Hme as [_ Hme]. by apply elem_of_nil in Hme.
    - by apply elem_of_nil in Hme.
    - by apply elem_of_nil in Hme. }
  split; [done|]. split.
  { destruct (doneEnqueuing (exec s)) eqn:Hd; [|done].
    apply (inv_doneEnq _ HI) in Hd. congruence. }
  split.
  { destruct (done (exec s)) eqn:Hd; [|done].
    apply (inv_done _ HI) in Hd. congruence. }
  split.
  { destruct (crashed s) eqn:Hc; [|done].
    apply (inv_crashed _ HI) in Hc. congruence. }
  split; [done|].
  pose proof (inv_waiter _ HI) as Hwt.
  destruct (waiter s); [by left|by right|congruence|].
  destruct Hwt as [? _]. congruence.
Qed.

Lemma step_measure_pre s s' :
  Inv s -> starter s = StNotCalled -> step s s' ->
  (starter s' = StNotCalled /\ (measure_pre s' < measure_pre s)%nat) \/
  starter s' <> StNotCalled.
Proof.
  intros HI Hst Hstep.
  destruct (pre_start s HI Hst) as (Hws & Hde & Hdn & _ & _ & Hwt).
  destruct Hstep as [l Hl]. pose proof (inv_mu _ HI) as Hmu.
  step_cases Hmu Hl; bool_hyps.
  all: try congruence.
  all: try (by right).
  all: try (match goal with
            | Hw : workers _ !! _ = Some _ |- _ => rewrite Hws in Hw; done
            end).
  all: left; split; [done|]; unfold measure_pre; simpl.
  all: repeat match goal with
         | Hx : waiter _ = _ |- _ => rewrite Hx
         | Hx : client _ = _ |- _ => rewrite Hx
         | Hx : waitCalls _ = _ |- _ => rewrite Hx
         end; simpl.
  all: try lia.
  all: try (destruct Hwt; congruence).
Qed.

(** Nothing is running, and with a permit to give [start] has returned. *)
Definition quiescent (s : system) : Prop :=
  workers s = [] /\
  (0 < limit (par (exec s)) -> starter s = StReturned).

Lemma not_crashed s :
  Inv s -> workers s <> [] \/ starter s <> StReturned -> crashed s = false.
Proof.
  intros HI Hrun. destruct (crashed s) eqn:Hc; [|done]. exfalso.
  pose proof (inv_crashed _ HI Hc) as Hne.
  destruct (returned s) as [|v vs] eqn:Hr; [done|].
  destruct (inv_returned _ HI v) as (Hs & Hw & _); [rewrite Hr; left|].
  destruct Hrun; done.
Qed.

Ltac take_step lbl :=
  eexists; exists lbl; unfold step_fn, worker_step, atomically;
  repeat match goal with
    | Hx : crashed _ = _ |- _ => rewrite Hx
    | Hx : starter _ = _ |- _ => rewrite Hx
    | Hx : workers _ = _ |- _ => rewrite Hx
    end; simpl.

(** A worker can always make its next move, and so can [start] while
    nothing is running and the limit is positive. *)
Lemma progress s : Inv s -> quiescent s \/ exists s', step s s'.
Proof.
  intros HI. pose proof (inv_mu _ HI) as Hmu.
  destruct (workers s) as [|[r pc] ws] eqn:Hw.
  - destruct (decide (0 < limit (par (exec s)))) as [Hlim|Hlim];
      [|left; split; [done|lia]].
    destruct (starter s) as [|allRepos|rest|repo rest|] eqn:Hst;
      [| | | |by left].
    all: right.
    all: assert (Hcr : crashed s = false)
      by (apply not_crashed; [done|right; congruence]).
    + assert (Hk : keysOrder (repos (exec s)) (map_to_list (repos (exec s))).*1)
        by (unfold keysOrder; reflexivity).
      take_step (LStart (map_to_list (repos (exec s))).*1).
      rewrite bool_decide_eq_true_2 by done.
      unfold_ops. rewrite Hmu. simpl. reflexivity.
    + take_step LSetTotal. unfold_ops. reflexivity.
    + destruct rest as [|repo rest].
      * destruct (doneEnqueuing (exec s)) eqn:Hd;
          take_step LCloseEnq; unfold_ops; rewrite Hd; reflexivity.
      * pose proof (inv_permits _ HI) as Hper. rewrite Hw, Hst in Hper.
        simpl in Hper.
        take_step LAcquire. unfold_ops.
        rewrite (proj2 (Z.ltb_lt _ _)) by lia. reflexivity.
    + take_step LGo. unfold_ops. reflexivity.
  - right.
    assert (Hcr : crashed s = false)
      by (apply not_crashed; [done|left; congruence]).
    pose proof (inv_permits _ HI) as Hper. rewrite Hw in Hper. simpl in Hper.
    assert (0 <= holding (starter s)) by (destruct (starter s); simpl; lia).
    destruct pc as [[|u us] [e|]|e| |].
    all: take_step (LWorker 0).
    all: rewrite ?updateRepoStatus_unlocked by done.
    all: unfold_ops.
    all: rewrite ?(proj2 (Z.ltb_lt 0 (outstanding (par (exec s))))) by lia.
    all: reflexivity.
Qed.

Lemma inevitably_post (P : system -> Prop) :
  (forall s, Inv s -> P s \/ exists s', step s s') ->
  forall n s, (measure s < n)%nat -> Inv s -> starter s <> StNotCalled ->
              inevitably P s.
Proof.
  intros Hprog. induction n as [|n IH]; intros s Hn HI Hst; [lia|].
  destruct (Hprog s HI) as [HP|Hred]; [by apply inev_now|].
  apply inev_later; [done|]. intros s' Hs'.
  destruct (step_measure s s' HI Hst Hs') as [Hlt Hst'].
  apply IH; [lia| by eapply Inv_step |done].
Qed.

Lemma inevitably_pre (P : system -> Prop) :
  (forall s, Inv s -> P s \/ exists s', step s s') ->
  forall n s, (measure_pre s < n)%nat -> Inv s -> starter s = StNotCalled ->
              inevitably P s.
Proof.
  intros Hprog. induction n as [|n IH]; intros s Hn HI Hst; [lia|].
  destruct (Hprog s HI) as [HP|Hred]; [by apply inev_now|].
  apply inev_later; [done|]. intros s' Hs'.
  pose proof (Inv_step s s' HI Hs') as HI'.
  destruct (step_measure_pre s s' HI Hst Hs') as [[Hst' Hlt]|Hst'].
  - apply IH; [lia|done|done].
  - by eapply (inevitably_post P Hprog (S (measure s'))); [lia| |].
Qed.

Lemma inevitably_Inv (P : system -> Prop) s :
  (forall s, Inv s -> P s \/ exists s', step s s') ->
  Inv s -> inevitably P s.
Proof.
  intros Hprog HI. destruct (starter s) eqn:Hst.
  1: by eapply (inevitably_pre P Hprog (S (measure_pre s))); [lia| |].
  all: eapply (inevitably_post P Hprog (S (measure s))); [lia|done|congruence].
Qed.

Lemma inevitably_strengthen (P J : system -> Prop) s :
  (forall s s', J s -> step s s' -> J s') ->
  J s -> inevitably P s -> inevitably (fun s' => P s' /\ J s') s.
Proof.
  intros Hstep HJ Hin. induction Hin as [s HP|s Hred _ IH].
  - by apply inev_now.
  - apply inev_later; [done|]. intros s' Hs'. apply IH; [done|].
    by eapply Hstep.
Qed.

Lemma inevitably_mono (P Q : system -> Prop) s :
  (forall s, P s -> Q s) -> inevitably P s -> inevitably Q s.
Proof.
  intros HPQ Hin. induction Hin as [s HP|s Hred _ IH].
  - apply inev_now. by apply HPQ.
  - by apply inev_later.
Qed.

(** What a move leaves alone. *)
Lemma step_history s s' :
  Inv s -> sys_step s s' ->
  limit (par (exec s')) = limit (par (exec s)) /\
  (exists k, dispatched s' = dispatched s ++ k) /\
  (exists k, completed s' = completed s ++ k) /\
  (forall snap, snapshot s = Some snap -> snapshot s' = Some snap) /\
  (forall e, firstErr (par (exec s)) = Some e ->
             firstErr (par (exec s')) = Some e).
Proof.
  intros HI [[l Hl]|Ht].
  - pose proof (inv_mu _ HI) as Hmu. pose proof (inv_snapshot _ HI) as Hsn.
    step_cases Hmu Hl; bool_hyps.
    all: repeat split; simpl; try done.
    all: try (by exists []; rewrite app_nil_r).
    all: try (by eexists).
    all: try congruence.
    all: try (intros snap Hsnap; destruct Hsn; congruence).
  - destruct (tick_exec s s' (inv_mu _ HI) Ht) as [evs ->]. simpl.
    repeat split; try done; by exists []; rewrite app_nil_r.
Qed.

Lemma rtc_history s s' :
  Inv s -> rtc sys_step s s' ->
  limit (par (exec s')) = limit (par (exec s)) /\
  (exists k, dispatched s' = dispatched s ++ k) /\
  (exists k, completed s' = completed s ++ k) /\
  (forall snap, snapshot s = Some snap -> snapshot s' = Some snap) /\
  (forall e, firstErr (par (exec s)) = Some e ->
             firstErr (par (exec s')) = Some e).
Proof.
  intros HI Hrtc. induction Hrtc as [s|s1 s2 s3 Hs _ IH].
  - repeat split; try done; by exists []; rewrite app_nil_r.
  - destruct (step_history s1 s2 HI Hs) as (Hl & [k1 Hd] & [k2 Hc] & Hsn & Hf).
    assert (HI2 : Inv s2) by (eapply Inv_rtc; [done|by apply rtc_once]).
    destruct (IH HI2) as (Hl' & [k1' Hd'] & [k2' Hc'] & Hsn' & Hf').
    split; [congruence|]. split.
    { exists (k1 ++ k1'). by rewrite Hd', Hd, app_assoc. }
    split.
    { exists (k2 ++ k2'). by rewrite Hc', Hc, app_assoc. }
    split; [by auto|by auto].
Qed.

(** From any state of a run, the run settles: nothing is running any more,
    everything launched so far has run to its end, and the history is kept. *)
Lemma run_settles s :
  Inv s ->
  inevitably (fun s' =>
    Inv s' /\ quiescent s' /\
    limit (par (exec s')) = limit (par (exec s)) /\
    (forall r, r ∈ dispatched s -> r ∈ completed s') /\
    (forall snap, snapshot s = Some snap -> snapshot s' = Some snap)) s.
Proof.
  intros HI.
  pose (J := fun s' : system =>
    Inv s' /\ limit (par (exec s')) = limit (par (exec s)) /\
    (forall r, r ∈ dispatched s -> r ∈ dispatched s') /\
    (forall snap, snapshot s = Some snap -> snapshot s' = Some snap)).
  assert (HJ : J s) by (unfold J; auto).
  assert (HJstep : forall s1 s2, J s1 -> step s1 s2 -> J s2).
  { intros s1 s2 (HI1 & Hl1 & Hd1 & Hs1) Hstep.
    destruct (step_history s1 s2 HI1 (or_introl Hstep))
      as (Hl & [k Hd] & _ & Hsn & _).
    split; [by eapply Inv_step|]. split; [congruence|]. split.
    - intros r Hr. rewrite Hd. apply elem_of_app. left. by apply Hd1.
    - intros snap Hsnap. apply Hsn. by apply Hs1. }
  pose proof (inevitably_Inv quiescent s progress HI) as Hq.
  pose proof (inevitably_strengthen quiescent J s HJstep HJ Hq) as Hq'.
  eapply inevitably_mono; [|exact Hq'].
  intros s' ([Hw Hst] & HI' & Hl & Hd & Hsn). simpl.
  split; [done|]. split; [by split|]. split; [done|]. split; [|done].
  intros r Hr. specialize (Hd r Hr).
  rewrite (inv_workers _ HI'), Hw in Hd. simpl in Hd.
  by rewrite app_nil_r in Hd.
Qed.

Lemma initial_limit nsteps parallelism observer calls nwait s0 s :
  initial nsteps parallelism observer calls nwait = Some s0 ->
  rtc sys_step s0 s ->
  Inv s /\ limit (par (exec s)) = parallelism.
Proof.
  intros Hinit Hrtc. pose proof (Inv_initial _ _ _ _ _ _ Hinit) as HI0.
  split; [by eapply Inv_rtc|].
  destruct (rtc_history s0 s HI0 Hrtc) as (-> & _).
  unfold initial, newActionExecutor, NewRun in Hinit.
  destruct (parallelism <? 0); [done|]. by simplify_eq.
Qed.

(** *** What [x.do] reports is what the map holds *)

(** Agreement on the fields [x.do] reports: all but the time of enqueuing. *)
Definition sameWork (a b : ActionRepoStatus) : Prop :=
  LogFile a = LogFile b /\ StartedAt a = StartedAt b /\
  FinishedAt a = FinishedAt b /\ Patch a = Patch b /\ Err a = Err b.

(** The record of [repo] in the map [m] holds, in those fields, what the
    updates [ups] leave when they are merged in that order into a fresh
    record. *)
Definition recorded (m : gmap ActionRepo ActionRepoStatus) (repo : ActionRepo)
           (ups : list ActionRepoStatus) : Prop :=
  sameWork (default zeroStatus (m !! repo)) (mergedStatus zeroStatus ups).

(** A worker inside [x.do] has made some of its updates, and the record
    holds them. *)
Definition workerRecorded (m : gmap ActionRepo ActionRepoStatus)
           (w : ActionRepo * worker_pc) : Prop :=
  match w.2 with
  | WkDo rest _ =>
      exists applied, (do w.1).1 = applied ++ rest /\ recorded m w.1 applied
  | _ => True
  end.

(** The history and the map agree: a repository no goroutine was launched
    for has nothing reported in its record, a worker's record holds the
    updates it has made so far, and the record of a repository whose [x.do]
    has returned holds all of them. *)
Record Rep (s : system) : Prop := mkRep {
  rep_fresh : forall r, r ∉ dispatched s -> recorded (repos (exec s)) r [];
  rep_workers : Forall (workerRecorded (repos (exec s))) (workers s);
  rep_completed :
    forall r, r ∈ completed s -> recorded (repos (exec s)) r (do r).1
}.

Lemma sameWork_refl a : sameWork a a.
Proof. by unfold sameWork. Qed.

Lemma sameWork_trans a b c : sameWork a b -> sameWork b c -> sameWork a c.
Proof. unfold sameWork. intuition congruence. Qed.

Lemma sameWork_deltaUpdate a b u :
  sameWork a b -> sameWork (deltaUpdate a u) (deltaUpdate b u).
Proof.
  intros (H1 & H2 & H3 & H4 & H5). rewrite !deltaUpdate_fields.
  unfold sameWork. simpl. by rewrite H1, H2, H3, H4, H5.
Qed.

Lemma sameWork_enqueue prev now :
  sameWork (deltaUpdate prev (mkStatus "" now zeroTime zeroTime zeroPatch None))
           prev.
Proof.
  rewrite deltaUpdate_fields. unfold sameWork, emptyLogFile, emptyPatch. simpl.
  by rewrite bool_decide_eq_true_2.
Qed.

Lemma mergedStatus_snoc prev ups u :
  mergedStatus prev (ups ++ [u]) = deltaUpdate (mergedStatus prev ups) u.
Proof.
  revert prev. induction ups as [|v ups IH]; intros prev; simpl.
  - by rewrite mergedStatus_cons, !mergedStatus_nil.
  - by rewrite !mergedStatus_cons, IH.
Qed.

Lemma recorded_insert_same m a v r ups :
  sameWork v (default zeroStatus (m !! a)) ->
  recorded m r ups -> recorded (<[a:=v]> m) r ups.
Proof.
  intros Hv Hr. unfold recorded in *. destruct (decide (r = a)) as [->|Hne].
  - rewrite lookup_insert_eq. simpl. by eapply sameWork_trans.
  - by rewrite lookup_insert_ne.
Qed.

Lemma recorded_insert_ne m a v r ups :
  r <> a -> recorded m r ups -> recorded (<[a:=v]> m) r ups.
Proof. intros Hne Hr. unfold recorded in *. by rewrite lookup_insert_ne. Qed.

Lemma recorded_insert_snoc m a u applied :
  recorded m a applied ->
  recorded (<[a:=deltaUpdate (default zeroStatus (m !! a)) u]> m) a
           (applied ++ [u]).
Proof.
  intros Hr. unfold recorded in *. rewrite lookup_insert_eq. simpl.
  rewrite mergedStatus_snoc. by apply sameWork_deltaUpdate.
Qed.

Lemma workerRecorded_insert_same m a v w :
  sameWork v (default zeroStatus (m !! a)) ->
  workerRecorded m w -> workerRecorded (<[a:=v]> m) w.
Proof.
  intros Hv. unfold workerRecorded. destruct (w.2); [|done..].
  intros (applied & Hd & Hr). exists applied. split; [done|].
  by apply recorded_insert_same.
Qed.

(** The repositories with a goroutine inside [x.do] and those whose [x.do]
    has returned are all different. *)
Lemma Inv_NoDup s :
  Inv s ->
  NoDup (dispatched s ++ todo (starter s)) /\
  NoDup (completed s ++ (filter inDo (workers s)).*1).
Proof.
  intros HI.
  assert (Hnd : NoDup (dispatched s ++ todo (starter s))).
  { pose proof (inv_snapshot _ HI) as Hsn. pose proof (inv_nodup _ HI) as Hnd.
    destruct (starter s); simpl in *; [|by apply Hnd..].
    destruct Hsn as [_ Hd]. rewrite Hd. constructor. }
  split; [done|]. rewrite <- (inv_workers _ HI).
  by apply NoDup_app in Hnd as [? _].
Qed.

Lemma workers_differ (ws : list (ActionRepo * worker_pc)) i j r pc w :
  NoDup (filter inDo ws).*1 ->
  ws !! i = Some (r, pc) -> inDo (r, pc) ->
  ws !! j = Some w -> j <> i -> inDo w -> w.1 <> r.
Proof.
  intros Hnd Hi Hin Hj Hne Hw Heq. destruct w as [r' pc']. simpl in Heq.
  subst r'.
  assert (Hfi : r ∈ (filter inDo ws).*1).
  { apply list_elem_of_fmap. exists (r, pc). split; [done|].
    apply list_elem_of_filter. split; [done|]. by eapply list_elem_of_lookup_2. }
  destruct (worker_split _ _ _ Hi) as (Hws & _ & _).
  rewrite Hws in Hnd, Hj.
  rewrite filter_app, filter_cons, decide_True, fmap_app in Hnd by done.
  simpl in Hnd. apply NoDup_app in Hnd as (_ & Hdis & Hnd2).
  apply NoDup_cons in Hnd2 as [Hnot _].
  assert (Hlen : length (take i ws) = i).
  { apply length_take_le. apply lookup_lt_Some in Hi. lia. }
  destruct (decide (j < i)%nat) as [Hlt|Hge].
  - rewrite lookup_app_l in Hj by lia.
    apply (Hdis r); [|left].
    apply list_elem_of_fmap. exists (r, pc'). split; [done|].
    apply list_elem_of_filter. split; [done|]. by eapply list_elem_of_lookup_2.
  - rewrite lookup_app_r in Hj by lia. rewrite Hlen in Hj.
    destruct (j - i)%nat as [|k] eqn:Hk; [lia|]. simpl in Hj.
    apply Hnot. apply list_elem_of_fmap. exists (r, pc'). split; [done|].
    apply list_elem_of_filter. split; [done|]. by eapply list_elem_of_lookup_2.
Qed.

Lemma workerRecorded_update m r u ws i rest err :
  NoDup (filter inDo ws).*1 ->
  ws !! i = Some (r, WkDo (u :: rest) err) ->
  Forall (workerRecorded m) ws ->
  Forall (workerRecorded (<[r:=deltaUpdate (default zeroStatus (m !! r)) u]> m))
         (<[i:=(r, WkDo rest err)]> ws).
Proof.
  intros Hnd Hi Hall. apply Forall_lookup. intros j w Hj.
  destruct (decide (j = i)) as [->|Hne].
  - rewrite list_lookup_insert_eq in Hj by (by eapply lookup_lt_Some).
    injection Hj as <-.
    pose proof (proj1 (Forall_lookup _ _) Hall _ _ Hi) as (applied & Hd & Hr).
    simpl in *. exists (applied ++ [u]). split.
    + by rewrite <- app_assoc.
    + by apply recorded_insert_snoc.
  - rewrite list_lookup_insert_ne in Hj by done.
    pose proof (proj1 (Forall_lookup _ _) Hall _ _ Hj) as Hw.
    unfold workerRecorded in *. destruct w as [r' pc']. simpl in *.
    destruct pc' as [rest' err'| | |]; [|done..].
    destruct Hw as (applied & Hd & Hr). exists applied. split; [done|].
    apply recorded_insert_ne; [|done].
    apply (workers_differ ws i j r (WkDo (u :: rest) err) (r', WkDo rest' err'));
      done.
Qed.

Lemma workerRecorded_leave m ws i r pc pc' :
  ws !! i = Some (r, pc) -> ~ inDo (r, pc') ->
  Forall (workerRecorded m) ws ->
  Forall (workerRecorded m) (<[i:=(r, pc')]> ws).
Proof.
  intros Hi Hout Hall. apply Forall_insert; [done|].
  unfold workerRecorded, inDo in *. simpl in *. by destruct pc'.
Qed.
Lemma Rep_initial nsteps parallelism observer calls nwait s0 :
  initial nsteps parallelism observer calls nwait = Some s0 -> Rep s0.
Proof.
  unfold initial, newActionExecutor.
  destruct (NewRun parallelism) as [p|]; [|done].
  intros [= <-]. constructor; simpl.
  - intros r _. unfold recorded. rewrite lookup_empty, mergedStatus_nil.
    apply sameWork_refl.
  - constructor.
  - intros r Hr. by apply elem_of_nil in Hr.
Qed.

Lemma Rep_step s s' : Inv s -> Rep s -> sys_step s s' -> Rep s'.
Proof.
  intros HI [Hfresh Hws Hcomp] [[l Hl]|Ht].
  - pose proof (inv_mu _ HI) as Hmu.
    destruct (Inv_NoDup s HI) as [Hnd1 Hnd2].
    pose proof (inv_workers _ HI) as Hperm.
    step_cases Hmu Hl; bool_hyps.
    all: use_pcs; simpl in *.
    all: try match goal with
           | Hw : workers _ !! _ = Some (?a, WkDo ?ups ?err) |- _ =>
               assert (Ha : a ∈ (filter inDo (workers s)).*1)
                 by (apply list_elem_of_fmap; exists (a, WkDo ups err);
                     split; [done|]; apply list_elem_of_filter;
                     split; [exact I|by eapply list_elem_of_lookup_2]);
               pose proof (proj1 (Forall_lookup _ _) Hws _ _ Hw) as Hme;
               unfold workerRecorded in Hme; simpl in Hme
           end.
    all: constructor; simpl; unfold statusOf.
    all: try done.
    (* enqueueRepo touches the time of enqueuing only *)
    all: try (intros r Hr; apply recorded_insert_same;
              [apply sameWork_enqueue|by auto]).
    all: try (eapply Forall_impl; [exact Hws|]; intros w;
              apply workerRecorded_insert_same, sameWork_enqueue).
    (* a goroutine is launched for a repository not dispatched before *)
    all: try (intros r Hr; apply Hfresh; intros Hin; apply Hr, elem_of_app;
              by left).
    all: try (apply Forall_app; split; [done|]; constructor; [|constructor];
              exists []; split; [done|]; apply Hfresh;
              apply NoDup_app in Hnd1 as (_ & Hdis & _);
              intros Hin; apply (Hdis _ Hin); by left).
    (* [x.do] returns *)
    all: try (eapply workerRecorded_leave; [eassumption|by intros []|done]).
    all: try (intros r [Hr|Hr%list_elem_of_singleton]%elem_of_app;
              [by apply Hcomp|subst r];
              destruct Hme as (applied & Hd & Hr); rewrite app_nil_r in Hd;
              by rewrite Hd).
    (* an update made by [x.do] *)
    all: try (intros r Hr; apply recorded_insert_ne; [|by auto];
              intros ->; apply Hr; rewrite Hperm; apply elem_of_app; by right).
    all: try (apply workerRecorded_update;
              [by apply NoDup_app in Hnd2 as (_ & _ & ?)|done|done]).
    all: try (intros r Hr; apply recorded_insert_ne; [|by auto];
              intros ->; apply NoDup_app in Hnd2 as (_ & Hdis & _);
              by apply (Hdis _ Hr)).
    all: try (by apply Forall_delete).
  - destruct (tick_exec s s' (inv_mu _ HI) Ht) as [evs ->]. by constructor.
Qed.

Lemma Rep_rtc s s' : Inv s -> Rep s -> rtc sys_step s s' -> Rep s'.
Proof.
  intros HI HR Hrtc. induction Hrtc as [|s1 s2 s3 Hs _ IH]; [done|].
  apply IH; [|by eapply Rep_step].
  destruct Hs; [by eapply Inv_step|by eapply Inv_tick].
Qed.

Lemma initial_Rep nsteps parallelism observer calls nwait s0 s :
  initial nsteps parallelism observer calls nwait = Some s0 ->
  rtc sys_step s0 s -> Rep s.
Proof.
  intros Hinit Hrtc.
  eapply Rep_rtc; [by eapply Inv_initial|by eapply Rep_initial|done].
Qed.

(** Modelled from the spec: [x.do] "on completion calls [updateRepoStatus]
    with started/finished timestamps and either a patch or an error"
    (section 4.1), a terminal status.  A status is terminal when its
    finished timestamp is set. *)
Definition terminal (status : ActionRepoStatus) : Prop :=
  IsZero (FinishedAt status) = false.

#[global] Instance terminal_dec status : Decision (terminal status).
Proof. unfold terminal. apply _. Defined.

Lemma lastSet_set {A} (isEmpty : A -> bool) prev vs :
  Exists (fun v => isEmpty v = false) vs ->
  isEmpty (lastSet isEmpty prev vs) = false.
Proof.
  revert prev. induction vs as [|v vs IH]; intros prev Hex.
  - by apply Exists_nil in Hex.
  - rewrite lastSet_cons. apply Exists_cons in Hex as [Hv|Hex].
    + rewrite Hv. by apply lastSet_keeps.
    + by apply IH.
Qed.

Lemma recorded_terminal m repo ups :
  recorded m repo ups -> Exists terminal ups ->
  terminal (default zeroStatus (m !! repo)).
Proof.
  intros (_ & _ & Hf & _) Hex. unfold terminal. rewrite Hf.
  unfold mergedStatus. simpl. apply lastSet_set.
  apply Exists_fmap. eapply Exists_impl; [exact Hex|]. done.
Qed.

(** From any state of a run, the run settles with every repository launched
    so far recorded as its [x.do] reported it. *)
Lemma run_settles_recorded s :
  Inv s -> Rep s ->
  inevitably (fun s' =>
    Inv s' /\ Rep s' /\ quiescent s' /\
    limit (par (exec s')) = limit (par (exec s)) /\
    (forall r, r ∈ dispatched s -> r ∈ completed s') /\
    (forall snap, snapshot s = Some snap -> snapshot s' = Some snap)) s.
Proof.
  intros HI HR.
  pose (J := fun s' : system => Inv s' /\ Rep s').
  assert (HJ : forall s1 s2, J s1 -> step s1 s2 -> J s2).
  { intros s1 s2 [HI1 HR1] Hs. split; [by eapply Inv_step|].
    eapply Rep_step; [done|done|by left]. }
  pose proof (inevitably_strengthen _ J s HJ (conj HI HR) (run_settles s HI))
    as Hin.
  eapply inevitably_mono; [|exact Hin].
  intros s' ((HI' & Hq & Hl & Hd & Hsn) & _ & HR'). done.
Qed.

(** What holds when a run has settled: no permit is out, and with a permit
    to give every repository of the snapshot has been through [x.do]. *)
Lemma settled s :
  Inv s -> quiescent s ->
  outstanding (par (exec s)) = 0 /\
  (0 < limit (par (exec s)) ->
   starter s = StReturned /\ snapshot s = Some (dispatched s) /\
   forall r, r ∈ dispatched s -> r ∈ completed s).
Proof.
  intros HI [Hw Hst]. pose proof (inv_permits _ HI) as Hper.
  pose proof (inv_bound _ HI) as Hb. rewrite Hw in Hper. simpl in Hper.
  split.
  - destruct (decide (0 < limit (par (exec s)))) as [Hpos|Hpos].
    + rewrite (Hst Hpos) in Hper. done.
    + destruct (starter s); simpl in Hper; lia.
  - intros Hpos. specialize (Hst Hpos). split; [done|].
    pose proof (inv_snapshot _ HI) as Hsn. rewrite Hst in Hsn. simpl in Hsn.
    rewrite app_nil_r in Hsn. split; [done|].
    intros r Hr. rewrite (inv_workers _ HI), Hw in Hr. simpl in Hr.
    by rewrite app_nil_r in Hr.
Qed.

(** C7.  In a run of an executor made with parallelism limit N, at every
    moment at most N workers exist (each holds a permit from [Acquire] to
    [Release]), so at most N per-repository operations run at once; and from
    every moment on, whatever the schedule, the run reaches a state where no
    worker is left and every repository dispatched so far has had its
    operation run to its end and has, in the map, the status its [x.do]
    reported: a terminal one when [x.do] reported a terminal status, as it
    is expected to.  With N positive, [start] has then returned and the same
    holds of every repository of its snapshot. *)
Theorem parallelism_bounded_and_all_finish
        (nsteps : nat) (N : Z) (observer : bool)
        (calls : list (Time * ActionRepo)) (nwait : nat) (s0 s : system) :
  initial nsteps N observer calls nwait = Some s0 ->
  rtc sys_step s0 s ->
  Z.of_nat (length (workers s)) <= N /\
  inevitably (fun s' =>
    workers s' = [] /\
    (forall r, r ∈ dispatched s ->
       r ∈ completed s' /\ recorded (repos (exec s')) r (do r).1 /\
       (Exists terminal (do r).1 -> terminal (statusOf (exec s') r))) /\
    (0 < N ->
     starter s' = StReturned /\
     exists snap, snapshot s' = Some snap /\ dispatched s' = snap /\
       forall r, r ∈ snap ->
         r ∈ completed s' /\ recorded (repos (exec s')) r (do r).1 /\
         (Exists terminal (do r).1 -> terminal (statusOf (exec s') r)))) s.
Proof.
  intros Hinit Hrtc.
  destruct (initial_limit _ _ _ _ _ _ _ Hinit Hrtc) as [HI HN].
  pose proof (initial_Rep _ _ _ _ _ _ _ Hinit Hrtc) as HR. split.
  - pose proof (inv_permits _ HI) as Hper. pose proof (inv_bound _ HI) as Hb.
    assert (0 <= holding (starter s)) by (destruct (starter s); simpl; lia).
    lia.
  - eapply inevitably_mono; [|exact (run_settles_recorded s HI HR)].
    intros s' (HI' & HR' & Hq & Hl & Hd & _). simpl.
    assert (Hrec : forall r, r ∈ completed s' ->
              r ∈ completed s' /\ recorded (repos (exec s')) r (do r).1 /\
              (Exists terminal (do r).1 -> terminal (statusOf (exec s') r))).
    { intros r Hr. split; [done|].
      pose proof (rep_completed _ HR' r Hr) as Hrc. split; [done|].
      by apply recorded_terminal. }
    split; [apply Hq|]. split; [intros r Hr; by apply Hrec, Hd|].
    intros Hpos. destruct (settled s' HI' Hq) as [_ Hs'].
    destruct Hs' as (Hret & Hsn & Hall); [lia|].
    split; [done|]. exists (dispatched s'). split; [done|]. split; [done|].
    intros r Hr. by apply Hrec, Hall.
Qed.

(** C3.  Whatever errors [x.do] returns: an error returned for a repository
    is handed to [x.par.Error] by that repository's worker (it is about to
    be, or an error has been recorded), the recorded first error is one that
    some completed operation returned, and it is what a returned [wait] gave.
    A failure holds up nobody: from every moment on, whatever the schedule
    and whichever operations fail, the run reaches a state where no worker
    is left, every permit has been given back, the failed workers' too, and
    every repository dispatched so far has had its operation run to its end
    and its reports stored, with an error recorded if one of them failed;
    and with a permit to give, also every repository of the snapshot that
    had not been dispatched yet has been through its operation by then. *)
Theorem failure_is_reported_and_isolated
        (nsteps : nat) (N : Z) (observer : bool)
        (calls : list (Time * ActionRepo)) (nwait : nat) (s0 s : system) :
  initial nsteps N observer calls nwait = Some s0 ->
  rtc sys_step s0 s ->
  (forall r e, r ∈ completed s -> (do r).2 = Some e ->
     (r, WkErr e) ∈ workers s \/ is_Some (firstErr (par (exec s)))) /\
  (forall e, firstErr (par (exec s)) = Some e ->
     exists r, r ∈ completed s /\ (do r).2 = Some e) /\
  (forall v, v ∈ returned s -> v = firstErr (par (exec s))) /\
  inevitably (fun s' =>
    workers s' = [] /\
    outstanding (par (exec s')) = 0 /\
    (forall r, r ∈ dispatched s ->
       r ∈ completed s' /\ recorded (repos (exec s')) r (do r).1) /\
    ((exists r, r ∈ dispatched s /\ is_Some (do r).2) ->
     is_Some (firstErr (par (exec s')))) /\
    (0 < N ->
     starter s' = StReturned /\
     forall snap, snapshot s = Some snap ->
       forall r, r ∈ snap ->
         r ∈ completed s' /\ recorded (repos (exec s')) r (do r).1 /\
         (forall e, (do r).2 = Some e -> is_Some (firstErr (par (exec s')))))) s.
Proof.
  intros Hinit Hrtc.
  destruct (initial_limit _ _ _ _ _ _ _ Hinit Hrtc) as [HI HN].
  pose proof (initial_Rep _ _ _ _ _ _ _ Hinit Hrtc) as HR.
  split; [apply (inv_reported _ HI)|]. split; [apply (inv_firstErr _ HI)|].
  split; [intros v Hv; by apply (inv_returned _ HI)|].
  eapply inevitably_mono; [|exact (run_settles_recorded s HI HR)].
  intros s' (HI' & HR' & Hq & Hl & Hd & Hsn). simpl.
  destruct (settled s' HI' Hq) as [Hout Hs'].
  assert (Hw : workers s' = []) by apply Hq.
  assert (Herr : forall r e, r ∈ completed s' -> (do r).2 = Some e ->
                             is_Some (firstErr (par (exec s')))).
  { intros r e Hr He.
    destruct (inv_reported _ HI' r e Hr He) as [Hin|Hs]; [|done].
    rewrite Hw in Hin. by apply elem_of_nil in Hin. }
  split; [done|]. split; [done|]. split.
  { intros r Hr. split; [by apply Hd|]. by apply (rep_completed _ HR'), Hd. }
  split.
  { intros (r & Hr & [e He]). by apply (Herr r e); [apply Hd|]. }
  intros Hpos. destruct Hs' as (Hret & Hsn' & Hall); [lia|].
  split; [done|]. intros snap Hsnap r Hr.
  specialize (Hsn _ Hsnap). rewrite Hsn' in Hsn. injection Hsn as <-.
  pose proof (Hall r Hr) as Hc. split; [done|].
  split; [by apply (rep_completed _ HR')|]. intros e He. by eapply Herr.
Qed.

(** *** [wait] *)

(** A run in which no repository is ever enqueued. *)
Definition emptyRun (s : system) : Prop :=
  client s = [] /\ repos (exec s) = ∅ /\ dispatched s = [] /\
  todo (starter s) = [] /\ workers s = [].

Lemma emptyRun_step s s' : Inv s -> emptyRun s -> sys_step s s' -> emptyRun s'.
Proof.
  intros HI (Hcl & Hr & Hd & Ht & Hw) [[l Hl]|Ht'].
  - pose proof (inv_mu _ HI) as Hmu.
    step_cases Hmu Hl; bool_hyps.
    all: try congruence.
    all: try (match goal with
              | Hx : workers _ !! _ = Some _ |- _ => rewrite Hw in Hx; done
              end).
    all: unfold emptyRun; simpl.
    all: repeat match goal with
           | Hx : starter _ = _ |- _ => rewrite Hx
           end; simpl; try done.
    unfold keysOrder in *. rewrite Hr, map_to_list_empty in *. simpl in *.
    match goal with
    | Hk : _ ≡ₚ [] |- _ => apply Permutation_nil_r in Hk; by subst
    end.
  - destruct (tick_exec s s' (inv_mu _ HI) Ht') as [evs ->]. done.
Qed.

Lemma emptyRun_rtc s s' :
  Inv s -> emptyRun s -> rtc sys_step s s' -> emptyRun s'.
Proof.
  intros HI He Hrtc. induction Hrtc as [|s1 s2 s3 Hs _ IH]; [done|].
  apply IH.
  - eapply Inv_rtc; [done|by apply rtc_once].
  - by eapply emptyRun_step.
Qed.

(** C4, amended.  In every run: a [wait] call has returned only when [start]
    has closed [doneEnqueuing] after dispatching its whole snapshot, no
    worker is left, no permit is out, and every dispatched operation has run
    to its end and has its reports in the map (a terminal status when
    [x.do] reported one); the value returned is the first error recorded by
    the concurrency primitive, nil when there is none.  Until [start] has
    returned, a [wait] call blocks at line 144, on a new executor too, and
    none has returned.  In a run where no repository is ever enqueued, once
    [start] has returned a first [wait] call goes through without blocking
    and returns nil. *)
Theorem wait_returns_after_all_work :
  (forall (nsteps : nat) (N : Z) (observer : bool)
          (calls : list (Time * ActionRepo)) (nwait : nat) (s0 s : system),
     initial nsteps N observer calls nwait = Some s0 ->
     rtc sys_step s0 s ->
     (forall v, v ∈ returned s ->
        starter s = StReturned /\ doneEnqueuing (exec s) = true /\
        snapshot s = Some (dispatched s) /\
        workers s = [] /\ outstanding (par (exec s)) = 0 /\
        dispatched s ≡ₚ completed s /\
        (forall r, r ∈ dispatched s ->
           r ∈ completed s /\ recorded (repos (exec s)) r (do r).1 /\
           (Exists terminal (do r).1 -> terminal (statusOf (exec s) r))) /\
        v = firstErr (par (exec s))) /\
     (starter s <> StReturned ->
      wait (exec s) = Blocked /\ step_fn LWaitRecv s = None /\
      returned s = [])) /\
  (forall (nsteps : nat) (N : Z) (observer : bool) (nwait : nat)
          (s0 s : system),
     initial nsteps N observer [] nwait = Some s0 ->
     rtc sys_step s0 s ->
     (forall v, v ∈ returned s -> v = None) /\
     (starter s = StReturned -> returned s = [] ->
      exists x', wait (exec s) = Ret None x')).
Proof.
  split.
  - intros nsteps N observer calls nwait s0 s Hinit Hrtc.
    destruct (initial_limit _ _ _ _ _ _ _ Hinit Hrtc) as [HI _].
    pose proof (initial_Rep _ _ _ _ _ _ _ Hinit Hrtc) as HR. split.
    + intros v Hv. destruct (inv_returned _ HI v Hv) as (Hst & Hw & Hf).
      split; [done|]. split; [by apply (inv_doneEnq _ HI)|].
      pose proof (inv_snapshot _ HI) as Hsn. rewrite Hst in Hsn. simpl in Hsn.
      rewrite app_nil_r in Hsn. split; [done|]. split; [done|].
      pose proof (inv_permits _ HI) as Hper. rewrite Hw, Hst in Hper.
      split; [done|].
      pose proof (inv_workers _ HI) as Hwk. rewrite Hw in Hwk. simpl in Hwk.
      rewrite app_nil_r in Hwk. split; [done|]. split; [|done].
      intros r Hr. rewrite Hwk in Hr. split; [done|].
      pose proof (rep_completed _ HR r Hr) as Hrc. split; [done|].
      by apply recorded_terminal.
    + intros Hst.
      assert (Hde : doneEnqueuing (exec s) = false).
      { destruct (doneEnqueuing (exec s)) eqn:Hd; [|done].
        by apply (inv_doneEnq _ HI) in Hd. }
      split; [|split].
      * unfold wait, bind, recvDoneEnqueuing. by rewrite Hde.
      * unfold step_fn. destruct (crashed s); [done|].
        destruct (waiter s); try done.
        unfold atomically, recvDoneEnqueuing. by rewrite Hde.
      * destruct (returned s) as [|v vs] eqn:Hv; [done|].
        destruct (inv_returned _ HI v) as [? _]; [|done].
        rewrite Hv. apply elem_of_cons. by left.
  - intros nsteps N observer nwait s0 s Hinit Hrtc.
    destruct (initial_limit _ _ _ _ _ _ _ Hinit Hrtc) as [HI _].
    assert (He : emptyRun s).
    { eapply emptyRun_rtc; [by eapply Inv_initial| |done].
      unfold initial, newActionExecutor in Hinit.
      destruct (NewRun N); [|done]. by simplify_eq. }
    destruct He as (_ & _ & Hd & _ & Hw).
    assert (Hnone : firstErr (par (exec s)) = None).
    { destruct (firstErr (par (exec s))) as [e|] eqn:Hf; [|done].
      destruct (inv_firstErr _ HI e Hf) as (r & Hr & _).
      pose proof (inv_workers _ HI) as Hwk. rewrite Hd, Hw in Hwk.
      symmetry in Hwk. apply Permutation_nil_r in Hwk.
      apply app_eq_nil in Hwk as [Hc _]. rewrite Hc in Hr.
      by apply elem_of_nil in Hr. }
    split.
    + intros v Hv. destruct (inv_returned _ HI v Hv) as (_ & _ & ->). done.
    + intros Hst Hret.
      pose proof (inv_permits _ HI) as Hper. rewrite Hw, Hst in Hper.
      simpl in Hper.
      assert (Hde : doneEnqueuing (exec s) = true) by (by apply (inv_doneEnq _ HI)).
      assert (Hdn : done (exec s) = false).
      { destruct (done (exec s)) eqn:Hdn; [|done].
        apply (inv_done _ HI) in Hdn. done. }
      eexists. unfold wait, bind, recvDoneEnqueuing, onPar, Wait, closeDone, ret.
      rewrite Hde, Hper. simpl. rewrite Hdn, Hnone. reflexivity.
Qed.

(** C10.  A [wait] call that returns leaves [x.done] closed, so a second
    call, run when the first has returned, panics at [close(x.done)]; in a
    run no second call ever returns: it reaches line 146 and takes the
    process down. *)
Theorem wait_twice_panics :
  (forall x err x', wait x = Ret err x' -> wait x' = Panicked) /\
  (forall s, reachable s ->
     (length (returned s) <= 1)%nat /\
     (returned s <> [] -> crashed s = false ->
      forall v, waiter s = WtClose v ->
                step_fn LWaitClose s = Some (with_crashed true s))).
Proof.
  split.
  - intros x err x'. destruct x as [st ob mu m p dn de ts j ev].
    unfold wait, bind, recvDoneEnqueuing, onPar, Wait, closeDone, ret.
    cbv [doneEnqueuing par done set_par set_done].
    destruct de; [|done].
    destruct (outstanding p =? 0) eqn:Hout; [|done].
    cbv [doneEnqueuing par done set_par set_done steps onUpdate reposMu repos
         totalSteps jobs events].
    destruct dn; [done|]. intros [= <- <-].
    cbv [doneEnqueuing par done set_par set_done steps onUpdate reposMu repos
         totalSteps jobs events].
    rewrite Hout. reflexivity.
  - intros s Hreach. pose proof (reachable_Inv s Hreach) as HI.
    split; [apply (inv_once _ HI)|].
    intros Hne Hcr v Hwt. unfold step_fn. rewrite Hcr, Hwt.
    unfold atomically, closeDone.
    rewrite (proj2 (inv_done _ HI) Hne). reflexivity.
Qed.

(** *** [start] *)

Lemma start_step s1 s2 order :
  Inv s1 -> step_fn (LStart order) s1 = Some s2 ->
  starter s1 = StNotCalled /\ keysOrder (repos (exec s1)) order /\
  snapshot s2 = Some order /\ repos (exec s2) = repos (exec s1).
Proof.
  intros HI Hl. pose proof (inv_mu _ HI) as Hmu.
  unfold step_fn in Hl. destruct (crashed s1); [done|].
  destruct (starter s1) eqn:Hst; try done.
  case_bool_decide as Hk; [|done].
  unfold atomically, snapshotRepos, bind, Lock, Unlock, ret in Hl.
  rewrite Hmu in Hl. simpl in Hl. by simplify_eq.
Qed.

(** C5.  When [start] copies the keys of the map under the lock (in the
    order [range] yields them), what it dispatches from then on is fixed:
    the copied list is a duplicate-free listing of the repositories in the
    map at that moment; at every later moment the repositories a goroutine
    has been launched for are a prefix of it, so each is launched at most
    once and a repository that enters the map later is never launched; when
    [start] has returned they are exactly the copied list; and with a
    positive limit [start] does return. *)
Theorem start_dispatches_snapshot_once
        (s1 s2 s3 : system) (order : list ActionRepo) :
  reachable s1 ->
  step_fn (LStart order) s1 = Some s2 ->
  rtc sys_step s2 s3 ->
  order ≡ₚ (map_to_list (repos (exec s1))).*1 /\
  NoDup order /\
  (exists rest, order = dispatched s3 ++ rest) /\
  NoDup (dispatched s3) /\
  (forall r, r ∈ dispatched s3 -> is_Some (repos (exec s1) !! r)) /\
  (starter s3 = StReturned -> dispatched s3 = order) /\
  (0 < limit (par (exec s3)) ->
   inevitably (fun s' => starter s' = StReturned /\ dispatched s' = order) s3).
Proof.
  intros Hreach Hl Hrtc. pose proof (reachable_Inv _ Hreach) as HI1.
  destruct (start_step _ _ _ HI1 Hl) as (Hst1 & Hk & Hsn2 & _).
  assert (HI2 : Inv s2) by (eapply Inv_step; [done|by exists (LStart order)]).
  assert (HI3 : Inv s3) by (by eapply Inv_rtc).
  destruct (rtc_history s2 s3 HI2 Hrtc) as (_ & _ & _ & Hsn & _).
  pose proof (Hsn _ Hsn2) as Hsn3.
  assert (Hnd : NoDup order) by (by apply (inv_nodup _ HI3)).
  assert (Hpre : order = dispatched s3 ++ todo (starter s3)).
  { pose proof (inv_snapshot _ HI3) as Hs. destruct (starter s3); simpl in *.
    - destruct Hs. congruence.
    - congruence.
    - congruence.
    - congruence.
    - congruence. }
  split; [done|]. split; [done|]. split; [by eexists|].
  split. { rewrite Hpre in Hnd. by apply NoDup_app in Hnd as [? _]. }
  split.
  { intros r Hr. assert (Hin : r ∈ order).
    { rewrite Hpre. apply elem_of_app. by left. }
    unfold keysOrder in Hk. rewrite Hk in Hin.
    apply list_elem_of_fmap in Hin as ([r' v] & -> & Hin).
    apply elem_of_map_to_list in Hin. by eexists. }
  split.
  { intros Hst. rewrite Hpre, Hst. simpl. by rewrite app_nil_r. }
  intros Hpos. eapply inevitably_mono; [|exact (run_settles s3 HI3)].
  intros s' (HI' & [_ Hq] & Hlim & _ & Hsn'). simpl.
  assert (Hst' : starter s' = StReturned) by (apply Hq; lia).
  split; [done|]. pose proof (inv_snapshot _ HI') as Hs.
  rewrite Hst' in Hs. simpl in Hs. rewrite app_nil_r in Hs.
  rewrite (Hsn' _ Hsn3) in Hs. congruence.
Qed.

(** *** Errors stay *)

Lemma Err_afterUpdate repo repo' status x :
  Err (statusOf x repo) <> None ->
  Err (statusOf (afterUpdate repo' status x) repo) <> None.
Proof.
  intros He. destruct (decide (repo' = repo)) as [->|Hne].
  - rewrite statusOf_afterUpdate, deltaUpdate_fields. simpl.
    destruct (Err status); simpl; done.
  - by rewrite statusOf_afterUpdate_ne.
Qed.

(** C9.  An [updateRepoStatus] call made with the lock free, for a
    repository whose stored status carries an error, leaves an error stored:
    the same one when the incoming Err is nil, the incoming one otherwise
    (and a call for another repository leaves it untouched).  No move of a
    run, whoever makes it, takes a stored error away. *)
Theorem error_never_cleared :
  (forall x repo repo' status,
     reposMu x = false -> Err (statusOf x repo) <> None ->
     exists x',
       updateRepoStatus repo' status x = Ret tt x' /\
       Err (statusOf x' repo) <> None /\
       (repo' <> repo -> statusOf x' repo = statusOf x repo) /\
       (repo' = repo -> Err status = None ->
        Err (statusOf x' repo) = Err (statusOf x repo)) /\
       (repo' = repo -> Err status <> None ->
        Err (statusOf x' repo) = Err status)) /\
  (forall s s' repo,
     reachable s -> rtc sys_step s s' ->
     Err (statusOf (exec s) repo) <> None ->
     Err (statusOf (exec s') repo) <> None).
Proof.
  split.
  - intros x repo repo' status Hmu He.
    exists (afterUpdate repo' status x).
    split; [by apply updateRepoStatus_unlocked|].
    split; [by apply Err_afterUpdate|].
    split; [intros Hne; by apply statusOf_afterUpdate_ne|].
    split.
    + intros -> Hnil. rewrite statusOf_afterUpdate, deltaUpdate_fields. simpl.
      by rewrite Hnil.
    + intros -> Hsome. rewrite statusOf_afterUpdate, deltaUpdate_fields. simpl.
      by destruct (Err status).
  - intros s s' repo Hreach Hrtc.
    pose proof (reachable_Inv _ Hreach) as HI. clear Hreach.
    induction Hrtc as [|s1 s2 s3 Hs _ IH]; [done|]. intros He.
    apply IH; [destruct Hs; [by eapply Inv_step|by eapply Inv_tick]|].
    destruct Hs as [[l Hl]|Ht].
    + pose proof (inv_mu _ HI) as Hmu.
      step_cases Hmu Hl; try done; by apply Err_afterUpdate.
    + destruct (tick_exec s1 s2 (inv_mu _ HI) Ht) as [evs ->]. done.
Qed.

(** *** Schedules *)

Lemma run_rtc ls s s' : run ls s = Some s' -> rtc sys_step s s'.
Proof.
  revert s. induction ls as [|l ls IH]; intros s Hrun; simpl in Hrun.
  - by simplify_eq.
  - destruct (step_fn l s) as [s1|] eqn:Hl; [|done].
    eapply rtc_l; [left; by exists l|]. by apply IH.
Qed.

Lemma run_reachable nsteps parallelism observer calls nwait s0 ls s :
  initial nsteps parallelism observer calls nwait = Some s0 ->
  run ls s0 = Some s -> reachable s.
Proof.
  intros Hinit Hrun. exists nsteps, parallelism, observer, calls, nwait, s0.
  split; [done|]. by eapply run_rtc.
Qed.

(** ** More on the status map *)

Lemma deltaUpdate_assoc prev a b :
  deltaUpdate (deltaUpdate prev a) b = deltaUpdate prev (deltaUpdate a b).
Proof.
  rewrite !deltaUpdate_fields. simpl.
  destruct (emptyLogFile (LogFile b)) eqn:E1, (IsZero (EnqueuedAt b)) eqn:E2,
    (IsZero (StartedAt b)) eqn:E3, (IsZero (FinishedAt b)) eqn:E4,
    (emptyPatch (Patch b)) eqn:E5, (Err b) eqn:E6; simpl;
    rewrite ?E1, ?E2, ?E3, ?E4, ?E5; reflexivity.
Qed.

Lemma deltaUpdate_keeps prev status : keepsFields prev (deltaUpdate prev status).
Proof.
  rewrite <- (mergedStatus_nil (deltaUpdate prev status)).
  rewrite <- mergedStatus_cons. apply mergedStatus_keeps.
Qed.

Lemma keepsFields_refl status : keepsFields status status.
Proof. unfold keepsFields. tauto. Qed.

Lemma keepsFields_trans a b c :
  keepsFields a b -> keepsFields b c -> keepsFields a c.
Proof. unfold keepsFields. tauto. Qed.

(** Two [updateRepoStatus] calls in a row for one repository leave the map
    that a single call with the second status merged over the first leaves;
    only the observer sees the difference. *)
Theorem updateRepoStatus_twice_is_one
        (x : actionExecutor) (repo : ActionRepo) (a b : ActionRepoStatus) :
  reposMu x = false ->
  exists x1 x2 x12,
    updateRepoStatus repo a x = Ret tt x1 /\
    updateRepoStatus repo b x1 = Ret tt x2 /\
    updateRepoStatus repo (deltaUpdate a b) x = Ret tt x12 /\
    repos x2 = repos x12 /\
    length (events x2) = (length (events x12) + (if onUpdate x then 3 else 2))%nat.
Proof.
  intros Hmu.
  exists (afterUpdate repo a x), (afterUpdate repo b (afterUpdate repo a x)),
    (afterUpdate repo (deltaUpdate a b) x).
  split; [by apply updateRepoStatus_unlocked|].
  split; [by apply updateRepoStatus_unlocked|].
  split; [by apply updateRepoStatus_unlocked|]. split.
  - simpl. rewrite insert_insert_eq. f_equal.
    rewrite <- deltaUpdate_assoc. f_equal.
    unfold statusOf at 1. simpl. by rewrite lookup_insert_eq.
  - simpl. destruct (onUpdate x); rewrite !length_app; simpl; lia.
Qed.

(** Calls for two different repositories can be swapped: the map is the
    same, each call changes its own key only, and creates it when it is
    missing. *)
Theorem updateRepoStatus_commutes
        (x : actionExecutor) (repo1 repo2 : ActionRepo)
        (a b : ActionRepoStatus) :
  reposMu x = false -> repo1 <> repo2 ->
  exists x1 x12 x2 x21,
    updateRepoStatus repo1 a x = Ret tt x1 /\
    updateRepoStatus repo2 b x1 = Ret tt x12 /\
    updateRepoStatus repo2 b x = Ret tt x2 /\
    updateRepoStatus repo1 a x2 = Ret tt x21 /\
    repos x12 = repos x21 /\
    repos x1 !! repo2 = repos x !! repo2 /\
    is_Some (repos x1 !! repo1) /\
    dom (repos x1) = {[repo1]} ∪ dom (repos x).
Proof.
  intros Hmu Hne.
  exists (afterUpdate repo1 a x), (afterUpdate repo2 b (afterUpdate repo1 a x)),
    (afterUpdate repo2 b x), (afterUpdate repo1 a (afterUpdate repo2 b x)).
  split; [by apply updateRepoStatus_unlocked|].
  split; [by apply updateRepoStatus_unlocked|].
  split; [by apply updateRepoStatus_unlocked|].
  split; [by apply updateRepoStatus_unlocked|].
  split.
  - simpl. rewrite (statusOf_afterUpdate_ne repo1 repo2) by done.
    rewrite (statusOf_afterUpdate_ne repo2 repo1) by done.
    apply insert_insert_ne. done.
  - simpl. rewrite lookup_insert_ne by done. rewrite lookup_insert_eq.
    split; [done|]. split; [by eexists|]. apply dom_insert_L.
Qed.

(** The mutex is not reentrant: called with the lock held (as from inside
    the observer) every operation that touches the map waits for ever. *)
Theorem locked_operations_block
        (x : actionExecutor) (repo : ActionRepo) (status : ActionRepoStatus)
        (now : Time) (entries : list (ActionRepo * ActionRepoStatus))
        (keys : list ActionRepo) :
  reposMu x = true ->
  updateRepoStatus repo status x = Blocked /\
  enqueueRepo now repo x = Blocked /\
  allPatches entries x = Blocked /\
  snapshotRepos keys x = Blocked /\
  sampleOnce x = Blocked.
Proof.
  intros Hmu.
  unfold enqueueRepo, updateRepoStatus, allPatches, snapshotRepos, sampleOnce,
    bind, Lock.
  rewrite Hmu. done.
Qed.

(** ** More on the run *)

(** A worker whose deferred [DecJobs] has not run yet. *)
Definition holdsJob (w : ActionRepo * worker_pc) : Prop :=
  match w.2 with WkRelease => False | _ => True end.

#[global] Instance holdsJob_dec w : Decision (holdsJob w).
Proof. unfold holdsJob. destruct (w.2); apply _. Defined.

(** A trace made of critical sections, each with at most one observer call
    inside. *)
Inductive bracketed : list event -> Prop :=
| bracketed_nil : bracketed []
| bracketed_plain evs :
    bracketed evs -> bracketed (evs ++ [EvLock; EvUnlock])
| bracketed_observed evs m :
    bracketed evs -> bracketed (evs ++ [EvLock; EvOnUpdate m; EvUnlock]).

(** [wait] calls made, being made and still to make. *)
Definition waitBudget (s : system) : nat :=
  (waitCalls s + (match waiter s with WtIdle => 0 | _ => 1 end) +
   length (returned s))%nat.

Lemma holdsJob_insert (ws : list (ActionRepo * worker_pc)) i w w' :
  ws !! i = Some w ->
  (length (filter holdsJob (<[i:=w']> ws)) +
     (if decide (holdsJob w) then 1 else 0) =
   length (filter holdsJob ws) + (if decide (holdsJob w') then 1 else 0))%nat.
Proof.
  intros Hl. destruct (worker_split _ _ _ Hl) as (Hws & Hins & _).
  rewrite Hins. rewrite Hws at 3.
  rewrite !filter_app, !filter_cons, !length_app.
  destruct (decide (holdsJob w)), (decide (holdsJob w')); simpl; lia.
Qed.

Lemma holdsJob_delete (ws : list (ActionRepo * worker_pc)) i w :
  ws !! i = Some w ->
  (length (filter holdsJob (delete i ws)) +
     (if decide (holdsJob w) then 1 else 0) =
   length (filter holdsJob ws))%nat.
Proof.
  intros Hl. destruct (worker_split _ _ _ Hl) as (Hws & _ & Hdel).
  rewrite Hdel. rewrite Hws at 3.
  rewrite !filter_app, !filter_cons, !length_app.
  destruct (decide (holdsJob w)); simpl; lia.
Qed.

Lemma bracketed_inside evs :
  bracketed evs ->
  forall i m, evs !! i = Some (EvOnUpdate m) ->
    exists j, i = S j /\ evs !! j = Some EvLock /\ evs !! S i = Some EvUnlock.
Proof.
  induction 1 as [|evs Hb IH|evs m0 Hb IH]; intros i m Hi.
  - done.
  - destruct (decide (i < length evs)%nat) as [Hlt|Hge].
    + rewrite lookup_app_l in Hi by done.
      destruct (IH i m Hi) as (j & -> & Hj & Hu). exists j.
      split; [done|]. split.
      * rewrite lookup_app_l by lia. done.
      * apply lookup_app_l_Some. done.
    + rewrite lookup_app_r in Hi by lia.
      destruct (i - length evs)%nat as [|[|k]]; done.
  - destruct (decide (i < length evs)%nat) as [Hlt|Hge].
    + rewrite lookup_app_l in Hi by done.
      destruct (IH i m Hi) as (j & -> & Hj & Hu). exists j.
      split; [done|]. split.
      * rewrite lookup_app_l by lia. done.
      * apply lookup_app_l_Some. done.
    + rewrite lookup_app_r in Hi by lia.
      destruct (i - length evs)%nat as [|[|[|k]]] eqn:Hk; try done.
      exists (length evs). split; [lia|]. split.
      * rewrite lookup_app_r by lia. by rewrite Nat.sub_diag.
      * rewrite lookup_app_r by lia.
        replace (S i - length evs)%nat with 2%nat by lia. done.
Qed.

(** Every observer call of a run, from [updateRepoStatus] or from the
    sampler, is made with the lock held: the trace is a sequence of critical
    sections, an observer call has the [Lock] right before it and the
    [Unlock] right after it, and between two moves the lock is free. *)
Theorem observer_only_under_lock (s : system) :
  reachable s ->
  reposMu (exec s) = false /\
  bracketed (events (exec s)) /\
  (forall i m, events (exec s) !! i = Some (EvOnUpdate m) ->
     exists j, i = S j /\ events (exec s) !! j = Some EvLock /\
               events (exec s) !! S i = Some EvUnlock).
Proof.
  intros Hreach. pose proof (reachable_Inv _ Hreach) as HI.
  split; [apply (inv_mu _ HI)|].
  assert (Hb : bracketed (events (exec s))).
  { destruct Hreach as (n & p & ob & calls & k & s0 & Hinit & Hrtc).
    pose proof (Inv_initial _ _ _ _ _ _ Hinit) as HI0.
    assert (Hb0 : bracketed (events (exec s0))).
    { unfold initial, newActionExecutor in Hinit.
      destruct (NewRun p); [|done]. simplify_eq. constructor. }
    clear Hinit HI. induction Hrtc as [|s1 s2 s3 Hs _ IH]; [done|].
    apply IH; [destruct Hs; [by eapply Inv_step|by eapply Inv_tick]|].
    destruct Hs as [[l Hl]|Ht].
    - pose proof (inv_mu _ HI0) as Hmu.
      step_cases Hmu Hl; try done.
      all: rewrite <- ?app_assoc; simpl.
      all: try (destruct (onUpdate (exec s1)); by constructor).
      all: by constructor.
    - destruct Ht as (_ & _ & _ & x' & Hx & ->).
      unfold_ops. rewrite (inv_mu _ HI0) in Hx. simpl in Hx. simplify_eq.
      simpl. rewrite <- !app_assoc. simpl. by constructor. }
  split; [done|]. by apply bracketed_inside.
Qed.

(** With no observer configured no callback is ever made in a run: neither
    [updateRepoStatus] nor [start] calls anything, and [start] launches no
    sampler. *)
Theorem no_observer_no_callback
        (nsteps : nat) (N : Z) (calls : list (Time * ActionRepo)) (nwait : nat)
        (s0 s : system) :
  initial nsteps N false calls nwait = Some s0 ->
  rtc sys_step s0 s ->
  onUpdate (exec s) = false /\ sampler s = false /\
  forall m, EvOnUpdate m ∉ events (exec s).
Proof.
  intros Hinit Hrtc. pose proof (Inv_initial _ _ _ _ _ _ Hinit) as HI0.
  assert (H0 : onUpdate (exec s0) = false /\ sampler s0 = false /\
               forall m, EvOnUpdate m ∉ events (exec s0)).
  { unfold initial, newActionExecutor in Hinit.
    destruct (NewRun N); [|done]. simplify_eq. simpl.
    split; [done|]. split; [done|]. intros m Hm. by apply elem_of_nil in Hm. }
  clear Hinit. induction Hrtc as [|s1 s2 s3 Hs _ IH]; [done|].
  destruct H0 as (Hob & Hsa & Hev).
  apply IH; [destruct Hs; [by eapply Inv_step|by eapply Inv_tick]|].
  destruct Hs as [[l Hl]|Ht].
  - pose proof (inv_mu _ HI0) as Hmu.
    step_cases Hmu Hl; try done.
    all: rewrite ?Hob; simpl.
    all: split; [done|]; split; [done|].
    all: intros m; rewrite ?elem_of_app, ?elem_of_cons, ?elem_of_nil;
      specialize (Hev m); intuition congruence.
  - destruct Ht as (_ & Hs & _). congruence.
Qed.

(** No move of a run removes a key from the map or unsets a field that is
    set in a stored status: a record, once made, is there for good and only
    gains information. *)
Theorem run_only_adds_information (s s' : system) (repo : ActionRepo) :
  reachable s -> rtc sys_step s s' ->
  (is_Some (repos (exec s) !! repo) -> is_Some (repos (exec s') !! repo)) /\
  keepsFields (statusOf (exec s) repo) (statusOf (exec s') repo).
Proof.
  intros Hreach Hrtc. pose proof (reachable_Inv _ Hreach) as HI. clear Hreach.
  induction Hrtc as [s|s1 s2 s3 Hs _ IH].
  - split; [done|apply keepsFields_refl].
  - assert (HI2 : Inv s2) by (destruct Hs; [by eapply Inv_step|by eapply Inv_tick]).
    destruct (IH HI2) as [IHk IHf].
    assert (Hone :
      (is_Some (repos (exec s1) !! repo) -> is_Some (repos (exec s2) !! repo)) /\
      keepsFields (statusOf (exec s1) repo) (statusOf (exec s2) repo)).
    { assert (Hup : forall repo' st,
        (is_Some (repos (exec s1) !! repo) ->
         is_Some (repos (afterUpdate repo' st (exec s1)) !! repo)) /\
        keepsFields (statusOf (exec s1) repo)
                    (statusOf (afterUpdate repo' st (exec s1)) repo)).
      { intros repo' st. destruct (decide (repo' = repo)) as [->|Hne].
        - split; [intros _; simpl; rewrite lookup_insert_eq; by eexists|].
          rewrite statusOf_afterUpdate. apply deltaUpdate_keeps.
        - split; [simpl; by rewrite lookup_insert_ne|].
          rewrite statusOf_afterUpdate_ne by done. apply keepsFields_refl. }
      destruct Hs as [[l Hl]|Ht].
      - pose proof (inv_mu _ HI) as Hmu.
        step_cases Hmu Hl; try apply Hup; (split; [done|apply keepsFields_refl]).
      - destruct (tick_exec s1 s2 (inv_mu _ HI) Ht) as [evs ->].
        split; [done|apply keepsFields_refl]. }
    destruct Hone as [Hk Hf]. split; [by auto|].
    by eapply keepsFields_trans.
Qed.

(** The jobs counter of the progress sink counts the workers whose deferred
    [DecJobs] has not run yet: it stays between 0 and the parallelism limit
    and is back at 0 when no worker is left. *)
Theorem jobs_counts_running
        (nsteps : nat) (N : Z) (observer : bool)
        (calls : list (Time * ActionRepo)) (nwait : nat) (s0 s : system) :
  initial nsteps N observer calls nwait = Some s0 ->
  rtc sys_step s0 s ->
  jobs (exec s) = Z.of_nat (length (filter holdsJob (workers s))) /\
  0 <= jobs (exec s) <= N /\
  (workers s = [] -> jobs (exec s) = 0).
Proof.
  intros Hinit Hrtc.
  destruct (initial_limit _ _ _ _ _ _ _ Hinit Hrtc) as [HI HN].
  assert (Hj : jobs (exec s) = Z.of_nat (length (filter holdsJob (workers s)))).
  { pose proof (Inv_initial _ _ _ _ _ _ Hinit) as HI0.
    assert (H0 : jobs (exec s0) = Z.of_nat (length (filter holdsJob (workers s0)))).
    { unfold initial, newActionExecutor in Hinit.
      destruct (NewRun N); [|done]. by simplify_eq. }
    clear Hinit HI HN. induction Hrtc as [|s1 s2 s3 Hs _ IH]; [done|].
    apply IH; [destruct Hs; [by eapply Inv_step|by eapply Inv_tick]|].
    destruct Hs as [[l Hl]|Ht].
    - pose proof (inv_mu _ HI0) as Hmu.
      step_cases Hmu Hl; try done.
      all: try (rewrite filter_app, length_app, filter_cons; simpl; lia).
      all: match goal with
           | Hw : workers _ !! ?i = Some ?w
             |- context [filter _ (<[?i:=?w']> _)] =>
               pose proof (holdsJob_insert _ _ _ w' Hw) as Hwi;
               simpl in Hwi; lia
           | Hw : workers _ !! ?i = Some ?w
             |- context [filter _ (delete ?i _)] =>
               pose proof (holdsJob_delete _ _ _ Hw) as Hwi;
               simpl in Hwi; lia
           end.
    - destruct (tick_exec s1 s2 (inv_mu _ HI0) Ht) as [evs ->]. done. }
  split; [done|]. split.
  - pose proof (length_filter holdsJob (workers s)) as Hle.
    pose proof (inv_permits _ HI) as Hper. pose proof (inv_bound _ HI) as Hb.
    assert (0 <= holding (starter s)) by (destruct (starter s); simpl; lia).
    lia.
  - intros Hw. rewrite Hj, Hw. done.
Qed.

Lemma snapshot_in_map s :
  reachable s ->
  forall snap, snapshot s = Some snap ->
    forall r, r ∈ snap -> is_Some (repos (exec s) !! r).
Proof.
  intros (n & p & ob & calls & k & s0 & Hinit & Hrtc).
  pose proof (Inv_initial _ _ _ _ _ _ Hinit) as HI0.
  assert (H0 : forall snap, snapshot s0 = Some snap ->
                 forall r, r ∈ snap -> is_Some (repos (exec s0) !! r)).
  { unfold initial, newActionExecutor in Hinit.
    destruct (NewRun p); [|done]. by simplify_eq. }
  clear Hinit. induction Hrtc as [|s1 s2 s3 Hs _ IH]; [done|].
  apply IH; [destruct Hs; [by eapply Inv_step|by eapply Inv_tick]|].
  destruct Hs as [[l Hl]|Ht].
  - pose proof (inv_mu _ HI0) as Hmu.
    step_cases Hmu Hl; try done.
    all: simpl.
    + intros snap Hsn r Hr. apply lookup_insert_is_Some'.
      right. by eapply H0.
    + intros snap [= <-] r Hr. bool_hyps. unfold keysOrder in *.
      match goal with Hk : _ ≡ₚ _ |- _ => rewrite Hk in Hr end.
      apply list_elem_of_fmap in Hr as ([r' v] & -> & Hin).
      apply elem_of_map_to_list in Hin. by eexists.
    + intros snap Hsn r Hr. apply lookup_insert_is_Some'.
      right. by eapply H0.
  - destruct (tick_exec s1 s2 (inv_mu _ HI0) Ht) as [evs ->]. done.
Qed.

(** Line 125 counts the map as it is when the line runs, after the lock has
    been released: the total handed to [SetTotalSteps] is the 64-bit value
    of len(x.repos) * len(x.action.Steps) at that moment, and the map holds
    at least the repositories of the snapshot (more when a repository was
    enqueued in between, which is counted but not dispatched). *)
Theorem setTotalSteps_counts_the_map (s : system) (allRepos : list ActionRepo) :
  reachable s -> starter s = StSetTotal allRepos ->
  exists s',
    step_fn LSetTotal s = Some s' /\
    starter s' = StLoop allRepos /\
    totalSteps (exec s') =
      int64 (Z.of_nat (size (repos (exec s))) * Z.of_nat (steps (exec s))) /\
    (length allRepos <= size (repos (exec s)))%nat.
Proof.
  intros Hreach Hst. pose proof (reachable_Inv _ Hreach) as HI.
  assert (Hcr : crashed s = false)
    by (apply not_crashed; [done|right; congruence]).
  eexists. split.
  { unfold step_fn. rewrite Hcr, Hst. unfold atomically, setTotalSteps, bind,
      get, modify. reflexivity. }
  split; [done|]. split; [done|].
  pose proof (inv_snapshot _ HI) as Hsn. rewrite Hst in Hsn. simpl in Hsn.
  pose proof (inv_nodup _ HI _ Hsn) as Hnd.
  pose proof (inv_workers _ HI) as Hwk.
  assert (Hsub : dispatched s ++ allRepos ⊆+ (map_to_list (repos (exec s))).*1).
  { apply NoDup_submseteq; [done|]. intros r Hr.
    destruct (snapshot_in_map s Hreach _ Hsn r Hr) as [v Hv].
    apply list_elem_of_fmap. exists (r, v). split; [done|].
    by apply elem_of_map_to_list. }
  apply submseteq_length in Hsub.
  rewrite length_app, length_fmap, length_map_to_list in Hsub. lia.
Qed.

Lemma step_waitBudget s1 s2 :
  Inv s1 -> crashed s1 = false -> (waitBudget s1 <= 1)%nat -> step s1 s2 ->
  crashed s2 = false /\ (waitBudget s2 <= 1)%nat.
Proof.
  intros HI Hc Hb [l Hl]. pose proof (inv_mu _ HI) as Hmu.
  pose proof (inv_done _ HI) as Hdn. pose proof (inv_returned _ HI) as Hrt.
  step_cases Hmu Hl.
  all: unfold waitBudget in *; simpl in *.
  all: repeat match goal with
         | Hx : waiter _ = _ |- _ => rewrite Hx in Hb
         | Hx : waitCalls _ = _ |- _ => rewrite Hx in Hb
         end.
  all: repeat match goal with
         | Hx : waiter _ = _ |- _ => rewrite Hx
         end.
  all: try (split; [done|rewrite ?length_app; simpl in *; lia]).
  all: try (exfalso; simpl in *; lia).
  - pose proof (inv_doneEnq _ HI) as Hde.
    match goal with
    | H2 : doneEnqueuing _ = true |- _ => apply Hde in H2; congruence
    end.
  - destruct Hdn as [Hdn _].
    specialize (Hdn eq_refl).
    destruct (returned s1); [done|simpl in Hb; lia].
Qed.

(** A run, in which [start] is called once, with at most one call of [wait]
    never panics: neither a [close], nor an [Unlock], nor anything else in
    [start], the workers or [wait] goes wrong.  That [start] is not called
    again matters: once it has returned, [doneEnqueuing] is closed, and the
    [close] of line 140 at the end of a second call would panic, whatever
    the number of [wait] calls. *)
Theorem single_start_and_wait_never_panic
        (nsteps : nat) (N : Z) (observer : bool)
        (calls : list (Time * ActionRepo)) (nwait : nat) (s0 s : system) :
  initial nsteps N observer calls nwait = Some s0 ->
  (nwait <= 1)%nat ->
  rtc sys_step s0 s ->
  crashed s = false /\ (waitBudget s <= 1)%nat /\
  (starter s = StReturned -> closeDoneEnqueuing (exec s) = Panicked).
Proof.
  intros Hinit Hn Hrtc. pose proof (Inv_initial _ _ _ _ _ _ Hinit) as HI0.
  assert (HI : Inv s) by (by eapply Inv_rtc).
  assert (Hgo : crashed s = false /\ (waitBudget s <= 1)%nat).
  { assert (H0 : crashed s0 = false /\ (waitBudget s0 <= 1)%nat).
    { unfold initial, newActionExecutor in Hinit.
      destruct (NewRun N); [|done]. simplify_eq. unfold waitBudget. simpl.
      split; [done|lia]. }
    clear Hinit HI. revert HI0 H0.
    induction Hrtc as [|s1 s2 s3 Hs _ IH]; [done|]. intros HI0 [Hc Hb].
    apply IH; [destruct Hs; [by eapply Inv_step|by eapply Inv_tick]|].
    destruct Hs as [Hs|Ht].
    - by eapply step_waitBudget.
    - destruct (tick_exec s1 s2 (inv_mu _ HI0) Ht) as [evs ->]. done. }
  destruct Hgo as [Hc Hb]. split; [done|]. split; [done|].
  intros Hst. unfold closeDoneEnqueuing.
  by rewrite (proj2 (inv_doneEnq _ HI) Hst).
Qed.

(** The goroutine of lines 102-116 is started by [start] exactly when an
    observer is configured, and it goes on calling the observer every 50ms,
    also after all work has finished: it stops only once [wait] has closed
    [x.done]. *)
Theorem sampler_runs_until_done
        (nsteps : nat) (N : Z) (observer : bool)
        (calls : list (Time * ActionRepo)) (nwait : nat) (s0 s : system) :
  initial nsteps N observer calls nwait = Some s0 ->
  rtc sys_step s0 s ->
  onUpdate (exec s) = observer /\
  (sampler s = true -> observer = true /\ starter s <> StNotCalled) /\
  (observer = true -> starter s <> StNotCalled -> sampler s = false ->
   done (exec s) = true /\ returned s <> []).
Proof.
  intros Hinit Hrtc. pose proof (Inv_initial _ _ _ _ _ _ Hinit) as HI0.
  assert (H0 : onUpdate (exec s0) = observer /\
               (sampler s0 = true ->
                observer = true /\ starter s0 <> StNotCalled) /\
               (observer = true -> starter s0 <> StNotCalled ->
                sampler s0 = false -> done (exec s0) = true)).
  { unfold initial, newActionExecutor in Hinit.
    destruct (NewRun N); [|done]. by simplify_eq. }
  clear Hinit. revert HI0 H0.
  induction Hrtc as [s|s1 s2 s3 Hs _ IH]; intros HI0 H0.
  { destruct H0 as (Ho & Hs1 & Hs2). split; [done|]. split; [done|].
    intros Hob Hst Hsa. split; [by apply Hs2|].
    apply (inv_done _ HI0). by apply Hs2. }
  apply IH; [destruct Hs; [by eapply Inv_step|by eapply Inv_tick]|].
  destruct H0 as (Ho & Hs1 & Hs2). destruct Hs as [[l Hl]|Ht].
  - pose proof (inv_mu _ HI0) as Hmu.
    step_cases Hmu Hl; simpl in *.
    all: try (split; [done|split; [done|done]]).
    all: try (split; [done|]; split;
              [intros Hsa; destruct (Hs1 Hsa) as [? ?]; split; [done|congruence]
              |intros Hob Hst Hsa; apply Hs2; try done; congruence]).
    all: try (split; [done|]; split; [intros Hsa; split; [congruence|done]
                                     |intros; congruence]).
    all: try (split; [done|]; split; [done|]; intros; bool_hyps; by destruct (done (exec s1))).
  - destruct (tick_exec s1 s2 (inv_mu _ HI0) Ht) as [evs ->]. done.
Qed.

(** With parallelism 0 the first [Acquire] never returns: no goroutine is
    ever launched, and when a repository was enqueued before [start], [start]
    never reaches line 140, so [wait] never returns either. *)
Theorem zero_parallelism_dispatches_nothing
        (nsteps : nat) (observer : bool)
        (calls : list (Time * ActionRepo)) (nwait : nat) (s0 s : system) :
  initial nsteps 0 observer calls nwait = Some s0 ->
  rtc sys_step s0 s ->
  workers s = [] /\ dispatched s = [] /\ completed s = [] /\
  (forall r rest, snapshot s = Some (r :: rest) ->
     starter s <> StReturned /\ doneEnqueuing (exec s) = false /\
     returned s = [] /\ crashed s = false).
Proof.
  intros Hinit Hrtc.
  assert (Hw : forall s', rtc sys_step s0 s' -> Inv s' /\ workers s' = []).
  { intros s' Hrtc'.
    destruct (initial_limit _ _ _ _ _ _ _ Hinit Hrtc') as [HI Hlim].
    split; [done|]. pose proof (inv_permits _ HI) as Hp.
    pose proof (inv_bound _ HI) as Hb. rewrite Hlim in Hb.
    destruct (workers s'); [done|].
    simpl in Hp. destruct (starter s'); simpl in Hp; lia. }
  assert (Hc : completed s = []).
  { revert s Hrtc. apply (rtc_ind_r (fun s => completed s = []) s0).
    - unfold initial, newActionExecutor in Hinit.
      destruct (NewRun 0); [|done]. by simplify_eq.
    - intros s1 s2 Hrtc Hs IH. destruct (Hw _ Hrtc) as [HI1 Hw1].
      destruct Hs as [[l Hl]|Ht].
      + pose proof (inv_mu _ HI1) as Hmu.
        step_cases Hmu Hl; simpl; try done.
        all: match goal with
             | Hx : workers _ !! _ = Some _ |- _ => by rewrite Hw1 in Hx
             end.
      + destruct (tick_exec s1 s2 (inv_mu _ HI1) Ht) as [evs ->]. done. }
  destruct (Hw _ Hrtc) as [HI Hws].
  assert (Hd : dispatched s = []).
  { pose proof (inv_workers _ HI) as Hp. rewrite Hc, Hws in Hp. simpl in Hp.
    by apply Permutation_nil_r in Hp. }
  split; [done|]. split; [done|]. split; [done|].
  intros r rest Hsn.
  assert (Hst : starter s <> StReturned).
  { intros Hst. pose proof (inv_snapshot _ HI) as Hs. rewrite Hst, Hd in Hs.
    simpl in Hs. congruence. }
  split; [done|]. split.
  { destruct (doneEnqueuing (exec s)) eqn:Hde; [|done].
    by apply (inv_doneEnq _ HI) in Hde. }
  assert (Hr : returned s = []).
  { destruct (returned s) as [|v vs] eqn:Hv; [done|].
    destruct (inv_returned _ HI v) as [? _]; [|done].
    rewrite Hv. apply elem_of_cons. by left. }
  split; [done|].
  destruct (crashed s) eqn:Hcr; [|done]. by apply (inv_crashed _ HI) in Hcr.
Qed.

End Executor.

(** ** A run of three repositories

    The scenario of the specification: A, B and C enqueued, parallelism 2,
    the operation fails for B and yields a patch for A and for C.  Keys,
    patches and errors are strings. *)

Module Demo.

Definition t1 : Time := mkTime 63700000000 0 "UTC".
Definition t2 : Time := mkTime 63700000001 0 "UTC".
Definition t3 : Time := mkTime 63700000002 500 "UTC".

Abbreviation status := (@ActionRepoStatus string string).
Abbreviation executor := (@actionExecutor string _ _ string string).
Abbreviation state := (@system string _ _ string string).

Definition do (repo : string) : list status * option string :=
  if String.eqb repo "B"
  then ([mkStatus "b.log" zeroTime t2 zeroTime "" None;
         mkStatus "" zeroTime zeroTime t3 "" (Some "exit 1")], Some "exit 1")
  else ([mkStatus (String.append repo ".log") zeroTime t2 zeroTime "" None;
         mkStatus "" zeroTime zeroTime t3 (String.append "diff " repo) None],
        None).

(** A fresh executor with an observer. *)
Definition x0 : executor :=
  mkExecutor 3 true false ∅ (mkRun 2 0 None) false false 0 0 [].

Definition s0 : state :=
  mkSystem x0 false [(t1, "A"); (t1, "B"); (t1, "C")] StNotCalled false []
           2 WtIdle [] None [] [].

Definition enqueues : list (@label string) := [LEnqueue; LEnqueue; LEnqueue].

(** [start] and the workers, up to the first return of [wait]; the second
    [wait] call is then left at line 146. *)
Definition schedule : list (@label string) :=
  [LSetTotal; LAcquire; LGo; LAcquire; LGo;
   LWorker 0; LWorker 1; LWorker 0; LWorker 0; LWorker 0; LWorker 0; LWorker 0;
   LAcquire; LGo; LCloseEnq; LWaitCall; LWaitRecv;
   LWorker 0; LWorker 0; LWorker 0; LWorker 0; LWorker 0;
   LWorker 0; LWorker 0; LWorker 0; LWorker 0;
   LWaitJoin; LWaitClose; LSamplerExit; LWaitCall; LWaitRecv; LWaitJoin].

Definition s1 : state :=
  Eval vm_compute in default s0 (run "" do enqueues s0).
Definition s2 : state :=
  Eval vm_compute in default s1 (step_fn "" do (LStart ["B"; "A"; "C"]) s1).
Definition s3 : state :=
  Eval vm_compute in default s2 (run "" do schedule s2).

Lemma s0_initial :
  initial 3 2 true [(t1, "A"); (t1, "B"); (t1, "C")] 2 = Some s0.
Proof. reflexivity. Qed.

Lemma s1_run : run "" do enqueues s0 = Some s1.
Proof. exact (eq_refl (Some s1)). Qed.

Lemma s2_step : step_fn "" do (LStart ["B"; "A"; "C"]) s1 = Some s2.
Proof. exact (eq_refl (Some s2)). Qed.

Lemma s3_run : run "" do schedule s2 = Some s3.
Proof. exact (eq_refl (Some s3)). Qed.

Lemma s3_whole_run :
  run "" do (enqueues ++ LStart ["B"; "A"; "C"] :: schedule) s0 = Some s3.
Proof. exact (eq_refl (Some s3)). Qed.

Lemma s1_reachable : reachable "" do s1.
Proof. eapply run_reachable; [exact s0_initial|exact s1_run]. Qed.

Lemma s3_reachable : reachable "" do s3.
Proof. eapply run_reachable; [exact s0_initial|exact s3_whole_run]. Qed.

Example s3_summary :
  (starter s3, workers s3, returned s3, dispatched s3, completed s3,
   waiter s3, par (exec s3), jobs (exec s3), totalSteps (exec s3)) =
  (StReturned, [], [Some "exit 1"], ["B"; "A"; "C"], ["B"; "A"; "C"],
   WtClose (Some "exit 1"), mkRun 2 0 (Some "exit 1"), 0, 9).
Proof. reflexivity. Qed.


(** The run with nothing enqueued. *)
Definition e0 : state :=
  mkSystem x0 false [] StNotCalled false [] 1 WtIdle [] None [] [].

Definition e1 : state :=
  Eval vm_compute in default e0 (run "" do [LStart []; LSetTotal; LCloseEnq] e0).

Definition e2 : state :=
  Eval vm_compute in
    default e1 (run "" do [LWaitCall; LWaitRecv; LWaitJoin; LWaitClose] e1).

Lemma e0_initial : initial 3 2 true [] 1 = Some e0.
Proof. reflexivity. Qed.

Lemma e1_run : run "" do [LStart []; LSetTotal; LCloseEnq] e0 = Some e1.
Proof. exact (eq_refl (Some e1)). Qed.

Example empty_run_wait_returns_nil :
  run "" do [LWaitCall; LWaitRecv; LWaitJoin; LWaitClose] e1 = Some e2 /\
  returned e2 = [None] /\ crashed e2 = false.
Proof. repeat split; reflexivity. Qed.

(** The second [wait] call of the three-repository run panics. *)
Definition s4 : state :=
  Eval vm_compute in default s3 (step_fn "" do LWaitClose s3).

Lemma s4_step : step_fn "" do LWaitClose s3 = Some s4.
Proof. exact (eq_refl (Some s4)). Qed.

Example second_wait_crashes : crashed s4 = true /\ returned s4 = [Some "exit 1"].
Proof. repeat split; reflexivity. Qed.

(** Four status updates, three of them for A. *)
Definition calls1 : list (string * status) :=
  [("A", mkStatus "a.log" t1 zeroTime zeroTime "" None);
   ("B", mkStatus "b.log" t1 zeroTime zeroTime "" None);
   ("A", mkStatus "" zeroTime t2 zeroTime "" None);
   ("A", mkStatus "" zeroTime zeroTime t3 "diff A" None)].

Example calls1_merged :
  mergedStatus "" (statusOf "" x0 "A") (callsFor "A" calls1) =
  mkStatus "a.log" t1 t2 t3 "diff A" None.
Proof. reflexivity. Qed.

Lemma updateRepoStatus_last_nonempty_wins_witness :
  exists x',
    updateAll "" calls1 x0 = Ret tt x' /\
    statusOf "" x' "A" =
      mergedStatus "" (statusOf "" x0 "A") (callsFor "A" calls1) /\
    (callsFor "A" calls1 <> [] ->
     repos x' !! "A" =
       Some (mergedStatus "" (statusOf "" x0 "A") (callsFor "A" calls1))) /\
    keepsFields "" (statusOf "" x0 "A") (statusOf "" x' "A").
Proof.
  exact (updateRepoStatus_last_nonempty_wins "" x0 "A" calls1 eq_refl).
Defined.

(** The map the three-repository run leaves, visited backwards. *)
Definition order3 : list (string * status) :=
  reverse (map_to_list (repos (exec s3))).

Lemma order3_range : rangeOrder (repos (exec s3)) order3.
Proof. unfold rangeOrder, order3. apply reverse_Permutation. Qed.

Lemma s3_unlocked : reposMu (exec s3) = false.
Proof. reflexivity. Qed.

Lemma allPatches_collects_witness :
  exists patches x',
    allPatches "" order3 (exec s3) = Ret patches x' /\
    repos x' = repos (exec s3) /\
    patches = Patch <$> filter (collectable "") order3.*2 /\
    patches ≡ₚ
      Patch <$> filter (collectable "") (map_to_list (repos (exec s3))).*2 /\
    (forall p, p ∈ patches <->
       exists repo st, repos (exec s3) !! repo = Some st /\
                       collectable "" st /\ Patch st = p).
Proof.
  exact (allPatches_collects "" (exec s3) order3 s3_unlocked order3_range).
Defined.

(** The scenario's outcome: exactly the patches of A and C, and the order
    of the result follows the order of the visit. *)
Example allPatches_scenario :
  returnValue (allPatches "" (map_to_list (repos (exec s3))) (exec s3))
    = Some ["diff C"; "diff A"] /\
  returnValue (allPatches "" order3 (exec s3)) = Some ["diff A"; "diff C"].
Proof.
  split.
  - exact (eq_refl (Some ["diff C"; "diff A"])).
  - exact (eq_refl (Some ["diff A"; "diff C"])).
Qed.

Definition upd1 : status := mkStatus "a.log" zeroTime t2 zeroTime "" None.

Lemma updateRepoStatus_observer_under_lock_witness :
  exists x',
    updateRepoStatus "" "A" upd1 x0 = Ret tt x' /\
    repos x' = <["A" := deltaUpdate "" (statusOf "" x0 "A") upd1]> (repos x0) /\
    reposMu x' = false /\
    events x' = events x0 ++
                (if onUpdate x0
                 then [EvLock; EvOnUpdate (repos x'); EvUnlock]
                 else [EvLock; EvUnlock]).
Proof.
  exact (updateRepoStatus_observer_under_lock "" x0 "A" upd1 eq_refl).
Defined.

(** C6 as stated fails: the observer is called, once, before the lock is
    released, not after. *)
Lemma observer_called_before_unlock :
  exists x' m,
    updateRepoStatus "" "A" upd1 x0 = Ret tt x' /\
    events x' = [EvLock; EvOnUpdate m; EvUnlock] /\
    reposMu x' = false /\
    ~ observedAfterUnlock (events x').
Proof.
  exists (afterUpdate "" "A" upd1 x0). eexists.
  split; [by apply updateRepoStatus_unlocked|].
  split; [reflexivity|]. split; [reflexivity|].
  intros Hafter. destruct (Hafter 1%nat _ eq_refl) as (j & Hj & Hev).
  destruct j as [|j]; [|lia]. simpl in Hev. discriminate.
Qed.

Lemma enqueueRepo_sets_enqueued_only_witness :
  exists x1 x2,
    enqueueRepo "" t1 "A" x0 = Ret tt x1 /\
    enqueueRepo "" t2 "A" x1 = Ret tt x2 /\
    repos x1 !! "A" = Some (set_EnqueuedAt t1 (statusOf "" x0 "A")) /\
    (repos x0 !! "A" = None ->
     repos x1 !! "A" = Some (mkStatus "" t1 zeroTime zeroTime "" None)) /\
    repos x2 !! "A" = Some (set_EnqueuedAt t2 (statusOf "" x1 "A")) /\
    (t2 = t1 -> repos x2 = repos x1).
Proof.
  exact (enqueueRepo_sets_enqueued_only "" x0 "A" t1 t2 eq_refl eq_refl eq_refl).
Defined.

(** C8 as stated fails: a second [enqueueRepo] a second later changes the
    stored status. *)
Lemma enqueueRepo_twice_changes_status :
  exists x1 x2,
    enqueueRepo "" t1 "A" x0 = Ret tt x1 /\
    enqueueRepo "" t2 "A" x1 = Ret tt x2 /\
    repos x1 !! "A" = Some (mkStatus "" t1 zeroTime zeroTime "" None) /\
    repos x2 !! "A" = Some (mkStatus "" t2 zeroTime zeroTime "" None) /\
    repos x2 !! "A" <> repos x1 !! "A".
Proof.
  pose (st := fun t : Time => mkStatus (Error:=string) "" t zeroTime zeroTime "" None).
  exists (afterUpdate "" "A" (st t1) x0).
  exists (afterUpdate "" "A" (st t2) (afterUpdate "" "A" (st t1) x0)).
  unfold enqueueRepo.
  split; [by apply updateRepoStatus_unlocked|].
  split; [by apply updateRepoStatus_unlocked|].
  assert (H1 : repos (afterUpdate "" "A" (st t1) x0) !! "A" = Some (st t1)).
  { simpl. by rewrite lookup_insert_eq. }
  assert (H2 : repos (afterUpdate "" "A" (st t2)
                        (afterUpdate "" "A" (st t1) x0)) !! "A" = Some (st t2)).
  { simpl. rewrite lookup_insert_eq. unfold statusOf. simpl.
    by rewrite lookup_insert_eq. }
  split; [exact H1|]. split; [exact H2|].
  rewrite H1, H2. discriminate.
Qed.

(** The run when B has failed and given its permit back, A is inside
    [x.do] and C has not been dispatched yet. *)
Definition s_failed : state :=
  Eval vm_compute in default s2 (run "" do (take 12 schedule) s2).

Lemma s_failed_run :
  run "" do (enqueues ++ LStart ["B"; "A"; "C"] :: take 12 schedule) s0
  = Some s_failed.
Proof. exact (eq_refl (Some s_failed)). Qed.

Example s_failed_summary :
  (starter s_failed, (workers s_failed).*1, dispatched s_failed,
   completed s_failed, par (exec s_failed), snapshot s_failed) =
  (StLoop ["C"], ["A"], ["B"; "A"], ["B"], mkRun 2 1 (Some "exit 1"),
   Some ["B"; "A"; "C"]).
Proof. reflexivity. Qed.

(** Every [x.do] of the scenario reports a terminal status, and the run
    leaves these records. *)
Example do_reports_terminal : forall r, Exists terminal (do r).1.
Proof.
  intros r. unfold do. destruct (String.eqb r "B"); simpl;
    apply Exists_cons_tl, Exists_cons_hd; reflexivity.
Qed.

Example s3_records :
  statusOf "" (exec s3) "A" = mkStatus "A.log" t1 t2 t3 "diff A" None /\
  statusOf "" (exec s3) "B" = mkStatus "b.log" t1 t2 t3 "" (Some "exit 1") /\
  statusOf "" (exec s3) "C" = mkStatus "C.log" t1 t2 t3 "diff C" None.
Proof. repeat split; reflexivity. Qed.

Lemma parallelism_bounded_and_all_finish_witness :
  Z.of_nat (length (workers s_failed)) <= 2 /\
  inevitably "" do (fun s' =>
    workers s' = [] /\
    (forall r, r ∈ dispatched s_failed ->
       r ∈ completed s' /\ recorded "" (repos (exec s')) r (do r).1 /\
       (Exists terminal (do r).1 -> terminal (statusOf "" (exec s') r))) /\
    (0 < 2 ->
     starter s' = StReturned /\
     exists snap, snapshot s' = Some snap /\ dispatched s' = snap /\
       forall r, r ∈ snap ->
         r ∈ completed s' /\ recorded "" (repos (exec s')) r (do r).1 /\
         (Exists terminal (do r).1 -> terminal (statusOf "" (exec s') r))))
    s_failed.
Proof.
  exact (parallelism_bounded_and_all_finish "" do 3 2 true _ 2 s0 s_failed
           s0_initial (run_rtc "" do _ _ _ s_failed_run)).
Defined.

Lemma failure_is_reported_and_isolated_witness :
  (forall r e, r ∈ completed s_failed -> (do r).2 = Some e ->
     (r, WkErr e) ∈ workers s_failed \/
     is_Some (firstErr (par (exec s_failed)))) /\
  (forall e, firstErr (par (exec s_failed)) = Some e ->
     exists r, r ∈ completed s_failed /\ (do r).2 = Some e) /\
  (forall v, v ∈ returned s_failed -> v = firstErr (par (exec s_failed))) /\
  inevitably "" do (fun s' =>
    workers s' = [] /\
    outstanding (par (exec s')) = 0 /\
    (forall r, r ∈ dispatched s_failed ->
       r ∈ completed s' /\ recorded "" (repos (exec s')) r (do r).1) /\
    ((exists r, r ∈ dispatched s_failed /\ is_Some (do r).2) ->
     is_Some (firstErr (par (exec s')))) /\
    (0 < 2 ->
     starter s' = StReturned /\
     forall snap, snapshot s_failed = Some snap ->
       forall r, r ∈ snap ->
         r ∈ completed s' /\ recorded "" (repos (exec s')) r (do r).1 /\
         (forall e, (do r).2 = Some e -> is_Some (firstErr (par (exec s'))))))
    s_failed.
Proof.
  exact (failure_is_reported_and_isolated "" do 3 2 true _ 2 s0 s_failed
           s0_initial (run_rtc "" do _ _ _ s_failed_run)).
Defined.

Lemma wait_returns_after_all_work_witness :
  ((forall v, v ∈ returned s3 ->
      starter s3 = StReturned /\ doneEnqueuing (exec s3) = true /\
      snapshot s3 = Some (dispatched s3) /\
      workers s3 = [] /\ outstanding (par (exec s3)) = 0 /\
      dispatched s3 ≡ₚ completed s3 /\
      (forall r, r ∈ dispatched s3 ->
         r ∈ completed s3 /\ recorded "" (repos (exec s3)) r (do r).1 /\
         (Exists terminal (do r).1 -> terminal (statusOf "" (exec s3) r))) /\
      v = firstErr (par (exec s3))) /\
   (starter s3 <> StReturned ->
    wait (exec s3) = Blocked /\ step_fn "" do LWaitRecv s3 = None /\
    returned s3 = [])) /\
  ((forall v, v ∈ returned s_failed ->
      starter s_failed = StReturned /\ doneEnqueuing (exec s_failed) = true /\
      snapshot s_failed = Some (dispatched s_failed) /\
      workers s_failed = [] /\ outstanding (par (exec s_failed)) = 0 /\
      dispatched s_failed ≡ₚ completed s_failed /\
      (forall r, r ∈ dispatched s_failed ->
         r ∈ completed s_failed /\
         recorded "" (repos (exec s_failed)) r (do r).1 /\
         (Exists terminal (do r).1 ->
          terminal (statusOf "" (exec s_failed) r))) /\
      v = firstErr (par (exec s_failed))) /\
   (starter s_failed <> StReturned ->
    wait (exec s_failed) = Blocked /\
    step_fn "" do LWaitRecv s_failed = None /\
    returned s_failed = [])) /\
  ((forall v, v ∈ returned e1 -> v = None) /\
   (starter e1 = StReturned -> returned e1 = [] ->
    exists x', wait (exec e1) = Ret None x')).
Proof.
  split; [|split].
  - exact (proj1 (wait_returns_after_all_work "" do) 3%nat 2 true _ 2%nat s0 s3
             s0_initial (run_rtc "" do _ _ _ s3_whole_run)).
  - exact (proj1 (wait_returns_after_all_work "" do) 3%nat 2 true _ 2%nat s0 s_failed
             s0_initial (run_rtc "" do _ _ _ s_failed_run)).
  - exact (proj2 (wait_returns_after_all_work "" do) 3%nat 2 true 1%nat e0 e1
             e0_initial (run_rtc "" do _ _ _ e1_run)).
Defined.

(** The run with nothing enqueued when [wait] is called first. *)
Definition e_waiting : state :=
  Eval vm_compute in default e0 (step_fn "" do LWaitCall e0).

(** C4 as stated fails: called on a new executor, before any repository is
    enqueued, [wait] does not return at once with nil: it blocks at line
    144, for as long as [start] has not been called and returned. *)
Lemma wait_blocks_on_new_executor :
  repos x0 = ∅ /\ wait x0 = Blocked /\ returnValue (wait x0) <> Some None /\
  client e0 = [] /\ exec e0 = x0 /\
  step_fn "" do LWaitCall e0 = Some e_waiting /\
  waiter e_waiting = WtRecv /\
  step_fn "" do LWaitRecv e_waiting = None /\
  returned e_waiting = [].
Proof. repeat split; try reflexivity. discriminate. Qed.

Lemma start_dispatches_snapshot_once_witness :
  ["B"; "A"; "C"] ≡ₚ (map_to_list (repos (exec s1))).*1 /\
  NoDup ["B"; "A"; "C"] /\
  (exists rest, ["B"; "A"; "C"] = dispatched s3 ++ rest) /\
  NoDup (dispatched s3) /\
  (forall r, r ∈ dispatched s3 -> is_Some (repos (exec s1) !! r)) /\
  (starter s3 = StReturned -> dispatched s3 = ["B"; "A"; "C"]) /\
  (0 < limit (par (exec s3)) ->
   inevitably "" do
     (fun s' => starter s' = StReturned /\ dispatched s' = ["B"; "A"; "C"]) s3).
Proof.
  exact (start_dispatches_snapshot_once "" do s1 s2 s3 ["B"; "A"; "C"]
           s1_reachable s2_step (run_rtc "" do _ _ _ s3_run)).
Defined.

Lemma s3_B_failed : Err (statusOf "" (exec s3) "B") <> None.
Proof.
  assert (Hs : Err (statusOf "" (exec s3) "B") = Some "exit 1")
    by exact (eq_refl (Some "exit 1")).
  rewrite Hs. discriminate.
Qed.

Lemma error_never_cleared_witness :
  (exists x',
     updateRepoStatus "" "B" upd1 (exec s3) = Ret tt x' /\
     Err (statusOf "" x' "B") <> None /\
     ("B" <> "B" -> statusOf "" x' "B" = statusOf "" (exec s3) "B") /\
     ("B" = "B" -> Err upd1 = None ->
      Err (statusOf "" x' "B") = Err (statusOf "" (exec s3) "B")) /\
     ("B" = "B" -> Err upd1 <> None -> Err (statusOf "" x' "B") = Err upd1)) /\
  Err (statusOf "" (exec s4) "B") <> None.
Proof.
  split.
  - exact (proj1 (error_never_cleared "" do) (exec s3) "B" "B" upd1
             s3_unlocked s3_B_failed).
  - exact (proj2 (error_never_cleared "" do) s3 s4 "B" s3_reachable
             (rtc_once _ _ (or_introl (ex_intro _ LWaitClose s4_step)))
             s3_B_failed).
Defined.

(** An executor whose [start] has returned with nothing dispatched. *)
Definition x_started : executor := set_doneEnqueuing true x0.

Lemma wait_twice_panics_witness :
  wait (set_done true x_started) = Panicked /\
  (length (returned s3) <= 1)%nat /\
  step_fn "" do LWaitClose s3 = Some (with_crashed true s3).
Proof.
  split; [|split].
  - exact (proj1 (wait_twice_panics "" do) x_started None
             (set_done true x_started) eq_refl).
  - exact (proj1 (proj2 (wait_twice_panics "" do) s3 s3_reachable)).
  - refine (proj2 (proj2 (wait_twice_panics "" do) s3 s3_reachable) _ _
              (Some "exit 1") _).
    + discriminate.
    + reflexivity.
    + reflexivity.
Defined.

End Demo.

(** ** More runs of the three repositories *)

Module Scenarios.
Import Demo.

Definition a1 : status := mkStatus "a.log" zeroTime t2 zeroTime "" None.
Definition a2 : status := mkStatus "" zeroTime zeroTime t3 "diff A" None.

Lemma updateRepoStatus_twice_is_one_witness :
  exists x1 x2 x12 : executor,
    updateRepoStatus "" "A" a1 x0 = Ret tt x1 /\
    updateRepoStatus "" "A" a2 x1 = Ret tt x2 /\
    updateRepoStatus "" "A" (deltaUpdate "" a1 a2) x0 = Ret tt x12 /\
    repos x2 = repos x12 /\
    length (events x2) =
      (length (events x12) + (if onUpdate x0 then 3 else 2))%nat.
Proof. exact (updateRepoStatus_twice_is_one "" x0 "A" a1 a2 eq_refl). Defined.

Lemma A_is_not_B : "A" <> "B".
Proof. discriminate. Qed.

Lemma updateRepoStatus_commutes_witness :
  exists x1 x12 x2 x21 : executor,
    updateRepoStatus "" "A" a1 x0 = Ret tt x1 /\
    updateRepoStatus "" "B" a2 x1 = Ret tt x12 /\
    updateRepoStatus "" "B" a2 x0 = Ret tt x2 /\
    updateRepoStatus "" "A" a1 x2 = Ret tt x21 /\
    repos x12 = repos x21 /\
    repos x1 !! "B" = repos x0 !! "B" /\
    is_Some (repos x1 !! "A") /\
    dom (repos x1) = {["A"]} ∪ dom (repos x0).
Proof.
  exact (updateRepoStatus_commutes "" x0 "A" "B" a1 a2 eq_refl A_is_not_B).
Defined.

(** The executor as the observer finds it: with the lock held. *)
Definition x_locked : executor := set_reposMu true x0.

Lemma locked_operations_block_witness :
  updateRepoStatus "" "A" a1 x_locked = Blocked /\
  enqueueRepo "" t1 "A" x_locked = Blocked /\
  allPatches "" [] x_locked = Blocked /\
  snapshotRepos [] x_locked = Blocked /\
  sampleOnce x_locked = Blocked.
Proof.
  exact (locked_operations_block "" x_locked "A" a1 t1 [] [] eq_refl).
Defined.

Lemma observer_only_under_lock_witness :
  reposMu (exec s3) = false /\
  bracketed (events (exec s3)) /\
  (forall i m, events (exec s3) !! i = Some (EvOnUpdate m) ->
     exists j, i = S j /\ events (exec s3) !! j = Some EvLock /\
               events (exec s3) !! S i = Some EvUnlock).
Proof. exact (observer_only_under_lock "" do s3 s3_reachable). Defined.

(** A run of two repositories without an observer, stopped while [start] is
    in its loop. *)
Definition n0 : state :=
  mkSystem (mkExecutor 3 false false ∅ (mkRun 2 0 None) false false 0 0 [])
           false [(t1, "A"); (t1, "B")] StNotCalled false [] 1 WtIdle []
           None [] [].

Definition n_moves : list (@label string) :=
  [LEnqueue; LEnqueue; LStart ["B"; "A"]; LSetTotal; LAcquire; LGo;
   LWorker 0; LWorker 0; LWorker 0; LWorker 0].

Definition n1 : state := Eval vm_compute in default n0 (run "" do n_moves n0).

Lemma n0_initial : initial 3 2 false [(t1, "A"); (t1, "B")] 1 = Some n0.
Proof. reflexivity. Qed.

Lemma n1_run : run "" do n_moves n0 = Some n1.
Proof. exact (eq_refl (Some n1)). Qed.

Lemma no_observer_no_callback_witness :
  onUpdate (exec n1) = false /\ sampler n1 = false /\
  forall m, EvOnUpdate m ∉ events (exec n1).
Proof.
  exact (no_observer_no_callback "" do 3 2 [(t1, "A"); (t1, "B")] 1 n0 n1
           n0_initial (run_rtc "" do n_moves n0 n1 n1_run)).
Defined.

Lemma s1_to_s3 : run "" do (LStart ["B"; "A"; "C"] :: schedule) s1 = Some s3.
Proof. exact (eq_refl (Some s3)). Qed.

Lemma run_only_adds_information_witness :
  (is_Some (repos (exec s1) !! "B") -> is_Some (repos (exec s3) !! "B")) /\
  keepsFields "" (statusOf "" (exec s1) "B") (statusOf "" (exec s3) "B").
Proof.
  exact (run_only_adds_information "" do s1 s3 "B" s1_reachable
           (run_rtc "" do _ s1 s3 s1_to_s3)).
Defined.

(** The three-repository run while two workers are at work. *)
Definition mid_moves : list (@label string) :=
  enqueues ++ LStart ["B"; "A"; "C"] :: take 7 schedule.

Definition s_mid : state := Eval vm_compute in default s0 (run "" do mid_moves s0).

Lemma s_mid_run : run "" do mid_moves s0 = Some s_mid.
Proof. exact (eq_refl (Some s_mid)). Qed.

Example s_mid_jobs : jobs (exec s_mid) = 2 /\ length (workers s_mid) = 2%nat.
Proof. split; reflexivity. Qed.

Lemma jobs_counts_running_witness :
  jobs (exec s_mid) = Z.of_nat (length (filter holdsJob (workers s_mid))) /\
  0 <= jobs (exec s_mid) <= 2 /\
  (workers s_mid = [] -> jobs (exec s_mid) = 0).
Proof.
  exact (jobs_counts_running "" do 3 2 true [(t1, "A"); (t1, "B"); (t1, "C")] 2
           s0 s_mid s0_initial (run_rtc "" do mid_moves s0 s_mid s_mid_run)).
Defined.

(** C is enqueued after [start] has copied the keys and before line 125. *)
Definition late_moves : list (@label string) :=
  [LEnqueue; LEnqueue; LStart ["B"; "A"]; LEnqueue].

Definition s_late : state :=
  Eval vm_compute in default s0 (run "" do late_moves s0).

Lemma s_late_run : run "" do late_moves s0 = Some s_late.
Proof. exact (eq_refl (Some s_late)). Qed.

Lemma s_late_reachable : reachable "" do s_late.
Proof. eapply run_reachable; [exact s0_initial|exact s_late_run]. Qed.

Lemma setTotalSteps_counts_the_map_witness :
  exists s',
    step_fn "" do LSetTotal s_late = Some s' /\
    starter s' = StLoop ["B"; "A"] /\
    totalSteps (exec s') =
      int64 (Z.of_nat (size (repos (exec s_late))) *
             Z.of_nat (steps (exec s_late))) /\
    (length ["B"; "A"] <= size (repos (exec s_late)))%nat.
Proof.
  exact (setTotalSteps_counts_the_map "" do s_late ["B"; "A"]
           s_late_reachable eq_refl).
Defined.

(** Nine steps are announced for the two repositories that are dispatched. *)
Example s_late_total :
  (s' ← step_fn "" do LSetTotal s_late; Some (totalSteps (exec s'))) = Some 9.
Proof. reflexivity. Qed.

Lemma one_is_at_most_one : (1 <= 1)%nat.
Proof. constructor. Qed.

Lemma e0_to_e2 :
  run "" do ([LStart []; LSetTotal; LCloseEnq] ++
             [LWaitCall; LWaitRecv; LWaitJoin; LWaitClose]) e0 = Some e2.
Proof. exact (eq_refl (Some e2)). Qed.

Lemma single_start_and_wait_never_panic_witness :
  crashed e2 = false /\ (waitBudget e2 <= 1)%nat /\
  (starter e2 = StReturned -> closeDoneEnqueuing (exec e2) = Panicked).
Proof.
  exact (single_start_and_wait_never_panic "" do 3 2 true [] 1 e0 e2
           e0_initial one_is_at_most_one (run_rtc "" do _ e0 e2 e0_to_e2)).
Defined.

(** In [e2], [start] has returned: a second call would panic at line 140. *)
Example e2_second_start :
  starter e2 = StReturned /\ closeDoneEnqueuing (exec e2) = Panicked.
Proof. split; reflexivity. Qed.

Lemma sampler_runs_until_done_witness :
  onUpdate (exec s3) = true /\
  (sampler s3 = true -> true = true /\ starter s3 <> StNotCalled) /\
  (true = true -> starter s3 <> StNotCalled -> sampler s3 = false ->
   done (exec s3) = true /\ returned s3 <> []).
Proof.
  exact (sampler_runs_until_done "" do 3 2 true
           [(t1, "A"); (t1, "B"); (t1, "C")] 2 s0 s3 s0_initial
           (run_rtc "" do _ s0 s3 s3_whole_run)).
Defined.

(** In that run the sampler has stopped, after the first [wait] returned. *)
Example s3_sampler : sampler s3 = false /\ done (exec s3) = true.
Proof. split; reflexivity. Qed.

(** A run with parallelism 0, stopped after line 125. *)
Definition z0 : state :=
  mkSystem (mkExecutor 3 true false ∅ (mkRun 0 0 None) false false 0 0 [])
           false [(t1, "A")] StNotCalled false [] 1 WtIdle [] None [] [].

Definition z_moves : list (@label string) :=
  [LEnqueue; LStart ["A"]; LSetTotal; LWaitCall].

Definition z1 : state := Eval vm_compute in default z0 (run "" do z_moves z0).

Lemma z0_initial : initial 3 0 true [(t1, "A")] 1 = Some z0.
Proof. reflexivity. Qed.

Lemma z1_run : run "" do z_moves z0 = Some z1.
Proof. exact (eq_refl (Some z1)). Qed.

Lemma zero_parallelism_dispatches_nothing_witness :
  workers z1 = [] /\ dispatched z1 = [] /\ completed z1 = [] /\
  (forall r rest, snapshot z1 = Some (r :: rest) ->
     starter z1 <> StReturned /\ doneEnqueuing (exec z1) = false /\
     returned z1 = [] /\ crashed z1 = false).
Proof.
  exact (zero_parallelism_dispatches_nothing "" do 3 true [(t1, "A")] 1 z0 z1
           z0_initial (run_rtc "" do z_moves z0 z1 z1_run)).
Defined.

(** No move of [start] is left in [z1], and [wait] is at line 144. *)
Example z1_stuck :
  snapshot z1 = Some ["A"] /\ starter z1 = StLoop ["A"] /\
  step_fn "" do LAcquire z1 = None /\ step_fn "" do LWaitRecv z1 = None.
Proof. repeat split; reflexivity. Qed.

End Scenarios.

(** * The progress display with status bars (package output)

  [progressWithStatusBarsTTY] keeps a block of lines at the bottom of the
  terminal, one for each status bar and one for each progress bar, and
  redraws the block in place.  The model below follows the file of that
  type: the width of the label column, the drawing of the block, its
  removal, and the methods that change a bar before redrawing. *)

Module Output.

(** Go's [int], 64 bits wide as on amd64 and arm64. *)
Definition int (v : Z) : Z := (v + 2 ^ 63) mod 2 ^ 64 - 2 ^ 63.

(** A pointer: [nil] or an address. *)
Definition ptr : Type := option positive.

Inductive Style := StylePending | StyleSuccess | StyleReset.

(** An operand of [fmt.Fprint]. *)
Inductive operand := OStyle (style : Style) | OString (s : string).

Definition newline : string :=
  String (Ascii.Ascii false true false true false false false false) "".

(** A heap with the value at one address replaced. *)
Definition store {A} (mem : positive -> A) (l : positive) (v : A)
  : positive -> A :=
  fun l' => if Pos.eqb l' l then v else mem l'.

Section StatusBars.
(** Declared outside the file: the values a format is applied to and
    [float64]; go-runewidth's [StringWidth], [Truncate], [FillLeft] and
    [FillRight]; [fmt.Sprintf]; [caps.formatArgs]; the emoji of a completed
    bar; and the methods of [StatusBar]. *)
Context {Arg Float : Type}.
Variable StringWidth : string -> Z.
Variable Truncate : string -> Z -> string -> string.
Variable FillLeft FillRight : string -> Z -> string.
Variable Sprintf : string -> list Arg -> string.
Variable formatArgs : list Arg -> list Arg.
Variable EmojiSuccess : string.

Record StatusBar := mkStatusBar {
  completed : bool;
  label : string;
  format : string;
  args : list Arg
}.

Variable Resetf : string -> string -> list Arg -> StatusBar -> StatusBar.
Variable Updatef : string -> list Arg -> StatusBar -> StatusBar.
Variable Completef : string -> list Arg -> StatusBar -> StatusBar.

Record ProgressBar := mkProgressBar {
  Label : string;
  labelWidth : Z;
  Value : Float;
  Max : Float
}.

Definition set_Value (v : Float) (bar : ProgressBar) : ProgressBar :=
  mkProgressBar (Label bar) (labelWidth bar) v (Max bar).

(** The calls made on the output [p.o], on the spinner, and to [writeBar] of
    the embedded [progressTTY], none of which is in the file: each is
    recorded with its arguments and taken to return. *)
Inductive call :=
| CLock
| CUnlock
| CMoveUp (n : Z)
| CMoveDown (n : Z)
| CClearCurrentLine
| CFprint (operands : list operand)
| CWriteBar (bar : ptr)
| CSpinnerStop.

(** The fields the file reads or writes, with [p.o.lock], [p.o.caps.Width]
    and the two heaps the pointers of [bars] and [statusBars] point into. *)
Record progressWithStatusBarsTTY := mkProgress {
  bars : list ptr;
  emojiWidth : Z;
  pendingEmoji : string;
  statusBars : list ptr;
  statusBarLabelWidth : Z;
  lock : bool;
  Width : Z;
  barMem : positive -> ProgressBar;
  statusBarMem : positive -> StatusBar;
  calls : list call
}.

Definition set_statusBarLabelWidth (v : Z) (p : progressWithStatusBarsTTY) :=
  mkProgress (bars p) (emojiWidth p) (pendingEmoji p) (statusBars p) v
             (lock p) (Width p) (barMem p) (statusBarMem p) (calls p).
Definition set_lock (v : bool) (p : progressWithStatusBarsTTY) :=
  mkProgress (bars p) (emojiWidth p) (pendingEmoji p) (statusBars p)
             (statusBarLabelWidth p) v (Width p) (barMem p) (statusBarMem p)
             (calls p).
Definition set_barMem (v : positive -> ProgressBar)
           (p : progressWithStatusBarsTTY) :=
  mkProgress (bars p) (emojiWidth p) (pendingEmoji p) (statusBars p)
             (statusBarLabelWidth p) (lock p) (Width p) v (statusBarMem p)
             (calls p).
Definition set_statusBarMem (v : positive -> StatusBar)
           (p : progressWithStatusBarsTTY) :=
  mkProgress (bars p) (emojiWidth p) (pendingEmoji p) (statusBars p)
             (statusBarLabelWidth p) (lock p) (Width p) (barMem p) v
             (calls p).
Definition record (c : call) (p : progressWithStatusBarsTTY) :=
  mkProgress (bars p) (emojiWidth p) (pendingEmoji p) (statusBars p)
             (statusBarLabelWidth p) (lock p) (Width p) (barMem p)
             (statusBarMem p) (calls p ++ [c]).

Local Open Scope go_scope.

Definition panic {A} : M progressWithStatusBarsTTY A := fun _ => Panicked.

(** [p.o.lock.Lock()] and [p.o.lock.Unlock()] of a [sync.Mutex]. *)
Definition Lock : M progressWithStatusBarsTTY unit := fun p =>
  if lock p then Blocked else Ret tt (record CLock (set_lock true p)).
Definition Unlock : M progressWithStatusBarsTTY unit := fun p =>
  if lock p then Ret tt (record CUnlock (set_lock false p)) else Panicked.

(** [p.o.lock.Lock(); defer p.o.lock.Unlock()] around a body.  When the
    body panics the deferred [Unlock] still runs, and the panic goes on. *)
Definition locked {A} (body : M progressWithStatusBarsTTY A)
  : M progressWithStatusBarsTTY A :=
  Lock ;;; a <- body ;; Unlock ;;; ret a.

Definition moveUp (n : Z) : M progressWithStatusBarsTTY unit :=
  modify (record (CMoveUp n)).
Definition moveDown (n : Z) : M progressWithStatusBarsTTY unit :=
  modify (record (CMoveDown n)).
Definition clearCurrentLine : M progressWithStatusBarsTTY unit :=
  modify (record CClearCurrentLine).
Definition Fprint (operands : list operand) : M progressWithStatusBarsTTY unit :=
  modify (record (CFprint operands)).
Definition writeBar (bar : ptr) : M progressWithStatusBarsTTY unit :=
  modify (record (CWriteBar bar)).
Definition spinnerStop : M progressWithStatusBarsTTY unit :=
  modify (record CSpinnerStop).

(** [*bar] for a [*StatusBar]: a nil pointer dereference panics. *)
Definition derefStatusBar (bar : ptr) : M progressWithStatusBarsTTY StatusBar :=
  fun p => match bar with
           | None => Panicked
           | Some l => Ret (statusBarMem p l) p
           end.

(** [s[i]]: an index out of range panics. *)
Definition index {A} (s : list A) (i : Z) : M progressWithStatusBarsTTY A :=
  fun p => if i <? 0 then Panicked
           else match s !! Z.to_nat i with
                | Some a => Ret a p
                | None => Panicked
                end.

(** Lines 167-172. *)
Fixpoint labelWidthLoop (rest : list ptr) : M progressWithStatusBarsTTY unit :=
  match rest with
  | [] => ret tt
  | bar :: rest =>
      b <- derefStatusBar bar ;;
      let labelWidth := StringWidth (label b) in
      p <- get ;;
      when (labelWidth >? statusBarLabelWidth p)
           (modify (set_statusBarLabelWidth labelWidth)) ;;;
      labelWidthLoop rest
  end.

Definition determineStatusBarLabelWidth : M progressWithStatusBarsTTY unit :=
  modify (set_statusBarLabelWidth 0) ;;;
  p <- get ;;
  labelWidthLoop (statusBars p) ;;;
  p <- get ;;
  let statusBarEmojiWidth := int (emojiWidth p + 1) in
  let maxWidth := int (Width p ÷ 2 - statusBarEmojiWidth) in
  when (int (statusBarLabelWidth p + 2) >? maxWidth)
       (modify (set_statusBarLabelWidth (int (maxWidth - 2)))).

(** The two widths [writeStatusBar] computes (lines 188 and 191). *)
Definition labelFillWidth (p : progressWithStatusBarsTTY) : Z :=
  int (statusBarLabelWidth p + 2).
Definition textMaxLength (p : progressWithStatusBarsTTY) : Z :=
  int (int (Width p - int (emojiWidth p + 1)) - labelFillWidth p).

Definition writeStatusBar (i : Z) (statusBar : ptr)
  : M progressWithStatusBarsTTY unit :=
  p <- get ;;
  sb <- derefStatusBar statusBar ;;
  let emoji := if completed sb then EmojiSuccess else pendingEmoji p in
  let style := if completed sb then StyleSuccess else StylePending in
  let label' :=
    FillRight (Truncate (label sb) (statusBarLabelWidth p) "...")
              (labelFillWidth p) in
  let text :=
    Truncate (Sprintf (format sb) (formatArgs (args sb)))
             (textMaxLength p) "..." in
  clearCurrentLine ;;;
  Fprint [OStyle style; OString " ";
          OString (FillLeft emoji (int (emojiWidth p + 1))); OString " ";
          OString label'; OString text; OStyle StyleReset; OString newline].

(** Lines 144-149. *)
Fixpoint drawStatusBars (i : Z) (rest : list ptr)
  : M progressWithStatusBarsTTY unit :=
  match rest with
  | [] => ret tt
  | statusBar :: rest =>
      match statusBar with
      | None => ret tt
      | Some _ => writeStatusBar i statusBar
      end ;;;
      drawStatusBars (i + 1) rest
  end.

(** Lines 151-153. *)
Fixpoint drawBars (rest : list ptr) : M progressWithStatusBarsTTY unit :=
  match rest with
  | [] => ret tt
  | bar :: rest => writeBar bar ;;; drawBars rest
  end.

Definition draw : M progressWithStatusBarsTTY unit :=
  p <- get ;;
  drawStatusBars 0 (statusBars p) ;;;
  drawBars (bars p).

(** The sum of two slice lengths does not overflow an [int]. *)
Definition blockHeight (p : progressWithStatusBarsTTY) : nat :=
  length (statusBars p) + length (bars p).

Definition moveToOrigin : M progressWithStatusBarsTTY unit :=
  p <- get ;; moveUp (Z.of_nat (blockHeight p)).

Definition drawInSitu : M progressWithStatusBarsTTY unit :=
  moveToOrigin ;;; draw.

(** Lines 71-74, with [n] rounds to go. *)
Fixpoint clearLines (n : nat) : M progressWithStatusBarsTTY unit :=
  match n with
  | O => ret tt
  | S n => clearCurrentLine ;;; moveDown 1 ;;; clearLines n
  end.

Definition Destroy : M progressWithStatusBarsTTY unit :=
  spinnerStop ;;;
  locked (moveToOrigin ;;;
          (p <- get ;; clearLines (length (bars p) + length (statusBars p))) ;;;
          moveToOrigin).

Definition Close : M progressWithStatusBarsTTY unit := Destroy.

(** Lines 85-87: [bar.Value = bar.Max] through each pointer. *)
Fixpoint completeBars (rest : list ptr) : M progressWithStatusBarsTTY unit :=
  match rest with
  | [] => ret tt
  | bar :: rest =>
      match bar with
      | None => panic
      | Some l =>
          modify (fun p =>
            set_barMem (store (barMem p) l
                              (set_Value (Max (barMem p l)) (barMem p l))) p)
      end ;;;
      completeBars rest
  end.

Definition Complete : M progressWithStatusBarsTTY unit :=
  spinnerStop ;;;
  locked ((p <- get ;; completeBars (bars p)) ;;; drawInSitu).

(** [if p.statusBars[i] != nil { p.statusBars[i].<method>(...) }]. *)
Definition onStatusBar (i : Z) (method : StatusBar -> StatusBar)
  : M progressWithStatusBarsTTY unit :=
  p <- get ;;
  statusBar <- index (statusBars p) i ;;
  match statusBar with
  | None => ret tt
  | Some l =>
      modify (fun p =>
        set_statusBarMem
          (store (statusBarMem p) l (method (statusBarMem p l))) p)
  end.

Definition StatusBarResetf (i : Z) (label format : string) (args : list Arg)
  : M progressWithStatusBarsTTY unit :=
  locked (onStatusBar i (Resetf label format args) ;;;
          determineStatusBarLabelWidth ;;;
          drawInSitu).

Definition StatusBarUpdatef (i : Z) (format : string) (args : list Arg)
  : M progressWithStatusBarsTTY unit :=
  locked (onStatusBar i (Updatef format args) ;;; drawInSitu).

Definition StatusBarCompletef (i : Z) (format : string) (args : list Arg)
  : M progressWithStatusBarsTTY unit :=
  locked (onStatusBar i (Completef format args) ;;; drawInSitu).

(** ** The width of the label column *)

Lemma int_small z : - 2 ^ 63 <= z < 2 ^ 63 -> int z = z.
Proof. intros Hz. unfold int. rewrite Z.mod_small by lia. lia. Qed.

(** The greatest of [acc] and the label widths of the bars [rest] points
    to. *)
Fixpoint widest (mem : positive -> StatusBar) (rest : list ptr) (acc : Z) : Z :=
  match rest with
  | [] => acc
  | Some l :: rest => widest mem rest (Z.max acc (StringWidth (label (mem l))))
  | None :: rest => widest mem rest acc
  end.

Lemma widest_ge mem rest acc : acc <= widest mem rest acc.
Proof.
  revert acc. induction rest as [|[l|] rest IH]; intros acc; simpl; [lia| |done].
  specialize (IH (Z.max acc (StringWidth (label (mem l))))). lia.
Qed.

Lemma widest_covers mem rest acc l :
  Some l ∈ rest -> StringWidth (label (mem l)) <= widest mem rest acc.
Proof.
  revert acc. induction rest as [|[l'|] rest IH]; intros acc Hin; simpl.
  - by apply elem_of_nil in Hin.
  - apply elem_of_cons in Hin as [[= <-]|Hin]; [|by apply IH].
    pose proof (widest_ge mem rest (Z.max acc (StringWidth (label (mem l))))).
    lia.
  - apply elem_of_cons in Hin as [?|Hin]; [done|by apply IH].
Qed.

Lemma widest_attained mem rest acc :
  widest mem rest acc = acc \/
  exists l, Some l ∈ rest /\ widest mem rest acc = StringWidth (label (mem l)).
Proof.
  revert acc. induction rest as [|[l|] rest IH]; intros acc; simpl; [by left| |].
  - destruct (IH (Z.max acc (StringWidth (label (mem l))))) as [->|(l' & Hin & ->)].
    + destruct (Z.max_spec acc (StringWidth (label (mem l)))) as [[_ ->]|[_ ->]].
      * right. exists l. split; [apply elem_of_cons; by left|done].
      * by left.
    + right. exists l'. split; [apply elem_of_cons; by right|done].
  - destruct (IH acc) as [->|(l' & Hin & ->)]; [by left|].
    right. exists l'. split; [apply elem_of_cons; by right|done].
Qed.

Lemma labelWidthLoop_widest rest p :
  None ∉ rest ->
  labelWidthLoop rest p =
    Ret tt (set_statusBarLabelWidth
              (widest (statusBarMem p) rest (statusBarLabelWidth p)) p).
Proof.
  revert p. induction rest as [|[l|] rest IH]; intros p Hnil.
  - by destruct p.
  - assert (Hrest : None ∉ rest) by (intros Hin; apply Hnil, elem_of_cons; by right).
    simpl. unfold bind, derefStatusBar, get, when, modify, ret.
    destruct (StringWidth (label (statusBarMem p l)) >? statusBarLabelWidth p)
      eqn:Hgt.
    + rewrite IH by done. rewrite Z.gtb_ltb in Hgt. apply Z.ltb_lt in Hgt.
      destruct p; simpl in *. rewrite Z.max_r by lia. reflexivity.
    + rewrite IH by done. rewrite Z.gtb_ltb in Hgt. apply Z.ltb_ge in Hgt.
      destruct p; simpl in *. rewrite Z.max_l by lia. reflexivity.
  - exfalso. apply Hnil, elem_of_cons. by left.
Qed.

Lemma labelWidthLoop_nil rest p :
  None ∈ rest -> labelWidthLoop rest p = Panicked.
Proof.
  revert p. induction rest as [|[l|] rest IH]; intros p Hin.
  - by apply elem_of_nil in Hin.
  - apply elem_of_cons in Hin as [?|Hin]; [done|].
    simpl. unfold bind, derefStatusBar, get, when, modify, ret.
    destruct (_ >? _); by rewrite IH.
  - done.
Qed.

Lemma determineStatusBarLabelWidth_nil p :
  None ∈ statusBars p -> determineStatusBarLabelWidth p = Panicked.
Proof.
  intros Hnil. unfold determineStatusBarLabelWidth, bind, modify, get.
  rewrite labelWidthLoop_nil by (by destruct p). done.
Qed.

(** What [determineStatusBarLabelWidth] leaves in [p.statusBarLabelWidth]
    when the arithmetic stays in range. *)
Definition clamped (p : progressWithStatusBarsTTY) : Z :=
  Z.min (widest (statusBarMem p) (statusBars p) 0)
        (Width p ÷ 2 - (emojiWidth p + 1) - 2).

Definition labelsInRange (p : progressWithStatusBarsTTY) : Prop :=
  forall l, Some l ∈ statusBars p ->
    0 <= StringWidth (label (statusBarMem p l)) < 2 ^ 31.

Lemma widest_in_range p :
  labelsInRange p -> 0 <= widest (statusBarMem p) (statusBars p) 0 < 2 ^ 31.
Proof.
  intros Hl. pose proof (widest_ge (statusBarMem p) (statusBars p) 0).
  destruct (widest_attained (statusBarMem p) (statusBars p) 0)
    as [->|(l & Hin & ->)]; [lia|]. by apply Hl.
Qed.

Lemma determineStatusBarLabelWidth_clamped p :
  None ∉ statusBars p ->
  0 <= emojiWidth p < 2 ^ 31 -> 0 <= Width p < 2 ^ 31 -> labelsInRange p ->
  determineStatusBarLabelWidth p =
    Ret tt (set_statusBarLabelWidth (clamped p) p).
Proof.
  intros Hnil He Hw Hl. pose proof (widest_in_range p Hl) as Hm.
  assert (Hq : 0 <= Width p ÷ 2 < 2 ^ 31).
  { split; [apply Z.quot_pos; lia|].
    pose proof (Z.quot_le_upper_bound (Width p) 2 (Width p)). lia. }
  unfold determineStatusBarLabelWidth, bind, modify, get, when, ret.
  rewrite labelWidthLoop_widest by (by destruct p).
  unfold clamped. destruct p; simpl in *.
  rewrite !(int_small (emojiWidth0 + 1)) by lia.
  rewrite !(int_small (Width0 ÷ 2 - (emojiWidth0 + 1))) by lia.
  rewrite !(int_small (widest statusBarMem0 statusBars0 0 + 2)) by lia.
  rewrite !int_small by lia.
  destruct (_ >? _) eqn:Hgt; rewrite Z.gtb_ltb in Hgt.
  - apply Z.ltb_lt in Hgt. rewrite Z.min_r by lia. reflexivity.
  - apply Z.ltb_ge in Hgt. rewrite Z.min_l by lia. reflexivity.
Qed.

(** After [determineStatusBarLabelWidth] the label column, with its two
    cells of padding, fits into what is left of half the terminal after the
    emoji column; the width is the widest label unless that is too wide, in
    which case it is the largest width that fits; and all else in [p] is as
    it was, whatever width was stored before. *)
Theorem determineStatusBarLabelWidth_fits (p : progressWithStatusBarsTTY) :
  None ∉ statusBars p ->
  0 <= emojiWidth p < 2 ^ 31 -> 0 <= Width p < 2 ^ 31 -> labelsInRange p ->
  exists w,
    determineStatusBarLabelWidth p = Ret tt (set_statusBarLabelWidth w p) /\
    w + 2 <= Width p ÷ 2 - (emojiWidth p + 1) /\
    ((forall l, Some l ∈ statusBars p ->
        StringWidth (label (statusBarMem p l)) <= w) \/
     w + 2 = Width p ÷ 2 - (emojiWidth p + 1)) /\
    (w = 0 \/
     (exists l, Some l ∈ statusBars p /\
                w = StringWidth (label (statusBarMem p l))) \/
     w + 2 = Width p ÷ 2 - (emojiWidth p + 1)).
Proof.
  intros Hnil He Hw Hl. exists (clamped p).
  split; [by apply determineStatusBarLabelWidth_clamped|].
  unfold clamped.
  destruct (Z.min_spec (widest (statusBarMem p) (statusBars p) 0)
                       (Width p ÷ 2 - (emojiWidth p + 1) - 2))
    as [[Hlt ->]|[Hle ->]].
  - split; [lia|]. split.
    + left. intros l Hin. by apply widest_covers.
    + destruct (widest_attained (statusBarMem p) (statusBars p) 0)
        as [->|(l & Hin & ->)]; [by left|]. right. left. by exists l.
  - split; [lia|]. split; right; [lia|right; lia].
Qed.

(** On a terminal too narrow for the emoji column and the padding the
    width comes out negative, with or without status bars, and only then:
    it is negative exactly when half the terminal width is less than
    [emojiWidth + 3]. *)
Theorem statusBarLabelWidth_negative_iff_narrow
        (p p' : progressWithStatusBarsTTY) :
  0 <= emojiWidth p < 2 ^ 31 -> 0 <= Width p < 2 ^ 31 -> labelsInRange p ->
  determineStatusBarLabelWidth p = Ret tt p' ->
  (statusBarLabelWidth p' < 0 <-> Width p ÷ 2 < emojiWidth p + 3).
Proof.
  intros He Hw Hl Hret.
  destruct (decide (None ∈ statusBars p)) as [Hnil|Hnil].
  { by rewrite determineStatusBarLabelWidth_nil in Hret. }
  rewrite determineStatusBarLabelWidth_clamped in Hret by done.
  injection Hret as <-. pose proof (widest_in_range p Hl) as Hm.
  unfold clamped. destruct p; simpl in *. lia.
Qed.

(** The text of a status bar gets at least half of the line: with the label
    width [determineStatusBarLabelWidth] has chosen, [writeStatusBar]
    clears the line and prints one line whose text is truncated to
    [textMaxLength], which is the terminal width less the emoji and label
    columns and never less than half the terminal width. *)
Theorem writeStatusBar_text_budget
        (p p' : progressWithStatusBarsTTY) (i : Z) (l : positive) :
  0 <= emojiWidth p < 2 ^ 31 -> 0 <= Width p < 2 ^ 31 -> labelsInRange p ->
  determineStatusBarLabelWidth p = Ret tt p' ->
  let sb := statusBarMem p' l in
  exists style emoji label',
    writeStatusBar i (Some l) p' =
      Ret tt (record
                (CFprint [OStyle style; OString " "; OString emoji;
                          OString " "; OString label';
                          OString (Truncate
                                     (Sprintf (format sb) (formatArgs (args sb)))
                                     (textMaxLength p') "...");
                          OStyle StyleReset; OString newline])
                (record CClearCurrentLine p')) /\
    textMaxLength p' =
      Width p - (emojiWidth p + 1) - (statusBarLabelWidth p' + 2) /\
    Width p <= 2 * textMaxLength p'.
Proof.
  intros He Hw Hl Hret sb.
  destruct (decide (None ∈ statusBars p)) as [Hnil|Hnil].
  { by rewrite determineStatusBarLabelWidth_nil in Hret. }
  rewrite determineStatusBarLabelWidth_clamped in Hret by done.
  injection Hret as <-. pose proof (widest_in_range p Hl) as Hm.
  eexists _, _, _. split.
  { cbv [writeStatusBar bind get derefStatusBar clearCurrentLine Fprint modify].
    reflexivity. }
  assert (Hq : 0 <= Width p ÷ 2 /\ 2 * (Width p ÷ 2) <= Width p).
  { split; [apply Z.quot_pos; lia|].
    pose proof (Z.quot_rem' (Width p) 2).
    pose proof (Z.rem_nonneg (Width p) 2). lia. }
  unfold textMaxLength, labelFillWidth, clamped. destruct p; simpl in *.
  assert (Hc : - 2 ^ 32 <= Z.min (widest statusBarMem0 statusBars0 0)
                             (Width0 ÷ 2 - (emojiWidth0 + 1) - 2) < 2 ^ 31)
    by lia.
  rewrite (int_small (emojiWidth0 + 1)) by lia.
  rewrite (int_small (_ + 2)) by lia.
  rewrite (int_small (Width0 - _)) by lia.
  rewrite !int_small by lia. lia.
Qed.

(** A nil status bar, which [draw] and the [StatusBar...f] methods allow
    for, makes [determineStatusBarLabelWidth] panic; nothing else does, and
    it never blocks. *)
Theorem determineStatusBarLabelWidth_panics_iff_nil
        (p : progressWithStatusBarsTTY) :
  (determineStatusBarLabelWidth p = Panicked <-> None ∈ statusBars p) /\
  determineStatusBarLabelWidth p <> Blocked.
Proof.
  destruct (decide (None ∈ statusBars p)) as [Hnil|Hnil].
  - rewrite determineStatusBarLabelWidth_nil by done. done.
  - assert (Hr : exists p', determineStatusBarLabelWidth p = Ret tt p').
    { unfold determineStatusBarLabelWidth, bind, modify, get, when, ret.
      rewrite labelWidthLoop_widest by (by destruct p).
      destruct (_ >? _); by eexists. }
    destruct Hr as [p' ->]. done.
Qed.

(** ** Drawing the block *)

(** [p] with other calls recorded. *)
Definition withCalls (cs : list call) (p : progressWithStatusBarsTTY) :=
  mkProgress (bars p) (emojiWidth p) (pendingEmoji p) (statusBars p)
             (statusBarLabelWidth p) (lock p) (Width p) (barMem p)
             (statusBarMem p) cs.

(** The operands [writeStatusBar] prints for the status bar at [l]. *)
Definition statusLine (p : progressWithStatusBarsTTY) (l : positive)
  : list operand :=
  let sb := statusBarMem p l in
  [OStyle (if completed sb then StyleSuccess else StylePending);
   OString " ";
   OString (FillLeft (if completed sb then EmojiSuccess else pendingEmoji p)
                     (int (emojiWidth p + 1)));
   OString " ";
   OString (FillRight (Truncate (label sb) (statusBarLabelWidth p) "...")
                      (labelFillWidth p));
   OString (Truncate (Sprintf (format sb) (formatArgs (args sb)))
                     (textMaxLength p) "...");
   OStyle StyleReset;
   OString newline].

(** The calls of one [draw]. *)
Definition drawn (p : progressWithStatusBarsTTY) : list call :=
  flat_map (fun statusBar : ptr =>
              match statusBar with
              | None => []
              | Some l => [CClearCurrentLine; CFprint (statusLine p l)]
              end) (statusBars p)
  ++ map CWriteBar (bars p).

(** The calls that write a line of the block. *)
Definition isWrite (c : call) : bool :=
  match c with CFprint _ | CWriteBar _ => true | _ => false end.

Definition isNilPtr (q : ptr) : bool :=
  match q with None => true | Some _ => false end.

(** How far down the calls move the cursor, by [moveUp] and [moveDown]. *)
Fixpoint netDown (cs : list call) : Z :=
  match cs with
  | [] => 0
  | CMoveUp n :: cs => netDown cs - n
  | CMoveDown n :: cs => netDown cs + n
  | _ :: cs => netDown cs
  end.

Lemma withCalls_same p : withCalls (calls p ++ []) p = p.
Proof. destruct p. unfold withCalls. simpl. by rewrite app_nil_r. Qed.

Lemma writeStatusBar_calls i l cs p :
  writeStatusBar i (Some l) (withCalls cs p) =
  Ret tt (withCalls (cs ++ [CClearCurrentLine; CFprint (statusLine p l)]) p).
Proof.
  cbv [writeStatusBar bind get derefStatusBar clearCurrentLine Fprint modify].
  unfold record, withCalls. simpl. rewrite <- app_assoc. reflexivity.
Qed.

Lemma drawStatusBars_calls rest i cs p :
  drawStatusBars i rest (withCalls cs p) =
  Ret tt (withCalls
            (cs ++ flat_map (fun statusBar : ptr =>
                     match statusBar with
                     | None => []
                     | Some l => [CClearCurrentLine; CFprint (statusLine p l)]
                     end) rest) p).
Proof.
  revert i cs. induction rest as [|[l|] rest IH]; intros i cs; simpl.
  - by rewrite app_nil_r.
  - unfold bind at 1. rewrite writeStatusBar_calls, IH.
    by rewrite <- app_assoc.
  - unfold bind at 1. simpl. by rewrite IH.
Qed.

Lemma drawBars_calls rest cs p :
  drawBars rest (withCalls cs p) =
  Ret tt (withCalls (cs ++ map CWriteBar rest) p).
Proof.
  revert cs. induction rest as [|bar rest IH]; intros cs; simpl.
  - by rewrite app_nil_r.
  - unfold bind at 1, writeBar, modify.
    change (record (CWriteBar bar) (withCalls cs p))
      with (withCalls (cs ++ [CWriteBar bar]) p).
    rewrite IH. by rewrite <- app_assoc.
Qed.

Lemma draw_calls cs p :
  draw (withCalls cs p) = Ret tt (withCalls (cs ++ drawn p) p).
Proof.
  unfold draw, bind at 1 2, get.
  change (statusBars (withCalls cs p)) with (statusBars p).
  rewrite drawStatusBars_calls.
  change (bars (withCalls cs p)) with (bars p).
  rewrite drawBars_calls. unfold drawn. by rewrite <- app_assoc.
Qed.

Lemma drawInSitu_calls cs p :
  drawInSitu (withCalls cs p) =
  Ret tt (withCalls (cs ++ CMoveUp (Z.of_nat (blockHeight p)) :: drawn p) p).
Proof.
  unfold drawInSitu, moveToOrigin, bind, get, moveUp, modify.
  change (record (CMoveUp (Z.of_nat (blockHeight (withCalls cs p))))
                 (withCalls cs p))
    with (withCalls (cs ++ [CMoveUp (Z.of_nat (blockHeight p))]) p).
  rewrite draw_calls. by rewrite <- app_assoc.
Qed.

Lemma drawn_writes p :
  (length (List.filter isWrite (drawn p)) +
   length (List.filter isNilPtr (statusBars p)) = blockHeight p)%nat.
Proof.
  unfold drawn, blockHeight. rewrite List.filter_app, length_app.
  assert (Hb : List.filter isWrite (map CWriteBar (bars p)) =
               map CWriteBar (bars p)).
  { induction (bars p) as [|b bs IH]; [done|]. simpl. by rewrite IH. }
  rewrite Hb, length_map.
  induction (statusBars p) as [|[l|] rest IH]; simpl in *; lia.
Qed.

(** [draw] writes a line for every status bar that is not nil, in the order
    of the slice, and then one for every progress bar, and changes nothing
    else; [moveToOrigin] moves up by the length of both slices, nil entries
    included.  So what [drawInSitu] writes falls short of what it has moved
    up by the number of nil status bars, and its calls move the cursor
    up by the height of the block. *)
Theorem draw_skips_nil_status_bars (p : progressWithStatusBarsTTY) :
  draw p = Ret tt (withCalls (calls p ++ drawn p) p) /\
  drawInSitu p =
    Ret tt (withCalls
              (calls p ++ CMoveUp (Z.of_nat (blockHeight p)) :: drawn p) p) /\
  (length (List.filter isWrite (drawn p)) +
   length (List.filter isNilPtr (statusBars p)) = blockHeight p)%nat /\
  netDown (CMoveUp (Z.of_nat (blockHeight p)) :: drawn p) =
    - Z.of_nat (blockHeight p).
Proof.
  split; [|split; [|split]].
  - rewrite <- (withCalls_same p) at 1. rewrite draw_calls.
    by rewrite app_nil_r.
  - rewrite <- (withCalls_same p) at 1. rewrite drawInSitu_calls.
    by rewrite app_nil_r.
  - apply drawn_writes.
  - simpl. assert (Hn : netDown (drawn p) = 0); [|lia].
    unfold drawn.
    assert (Happ : forall cs cs', netDown (cs ++ cs') = netDown cs + netDown cs').
    { induction cs as [|c cs IH]; intros cs'; simpl; [done|].
      destruct c; rewrite ?IH; lia. }
    rewrite Happ.
    assert (H1 : netDown (map CWriteBar (bars p)) = 0)
      by (induction (bars p); simpl; done).
    rewrite H1. induction (statusBars p) as [|[l|] rest IH]; simpl; lia.
Qed.

(** ** Removing the block *)

(** The calls of [n] rounds of lines 71-74. *)
Definition cleared (n : nat) : list call :=
  concat (replicate n [CClearCurrentLine; CMoveDown 1]).

Definition isClear (c : call) : bool :=
  match c with CClearCurrentLine => true | _ => false end.

Lemma clearLines_calls n cs p :
  clearLines n (withCalls cs p) = Ret tt (withCalls (cs ++ cleared n) p).
Proof.
  revert cs. induction n as [|n IH]; intros cs; simpl.
  - unfold cleared. simpl. by rewrite app_nil_r.
  - unfold bind at 1 2, clearCurrentLine, moveDown, modify.
    change (record (CMoveDown 1) (record CClearCurrentLine (withCalls cs p)))
      with (withCalls ((cs ++ [CClearCurrentLine]) ++ [CMoveDown 1]) p).
    rewrite IH. unfold cleared. simpl. by rewrite <- !app_assoc.
Qed.

Lemma netDown_app cs cs' : netDown (cs ++ cs') = netDown cs + netDown cs'.
Proof.
  induction cs as [|c cs IH]; simpl; [done|]. destruct c; rewrite ?IH; lia.
Qed.

Lemma cleared_facts n :
  netDown (cleared n) = Z.of_nat n /\
  length (List.filter isClear (cleared n)) = n /\
  List.filter isWrite (cleared n) = [].
Proof.
  unfold cleared. induction n as [|n (IH1 & IH2 & IH3)]; [done|].
  simpl. rewrite IH2, IH3. repeat split; lia.
Qed.

Lemma Lock_calls cs p :
  lock p = false ->
  Lock (withCalls cs p) = Ret tt (withCalls (cs ++ [CLock]) (set_lock true p)).
Proof. intros Hl. unfold Lock. simpl. by rewrite Hl. Qed.

Lemma Unlock_calls cs p :
  lock p = false ->
  Unlock (withCalls cs (set_lock true p)) = Ret tt (withCalls (cs ++ [CUnlock]) p).
Proof. intros Hl. destruct p; simpl in *. by subst. Qed.

Lemma bind_Ret {S A B} (m : M S A) (k : A -> M S B) s a s' :
  m s = Ret a s' -> bind m k s = k a s'.
Proof. intros Hm. unfold bind. by rewrite Hm. Qed.

Lemma moveToOrigin_calls cs p :
  moveToOrigin (withCalls cs p) =
  Ret tt (withCalls (cs ++ [CMoveUp (Z.of_nat (blockHeight p))]) p).
Proof. reflexivity. Qed.

Lemma locked_calls {A} (body : M progressWithStatusBarsTTY A) cs cs' p p' a :
  lock p = false ->
  body (withCalls (cs ++ [CLock]) (set_lock true p)) =
    Ret a (withCalls cs' (set_lock true p')) ->
  lock p' = false ->
  locked body (withCalls cs p) = Ret a (withCalls (cs' ++ [CUnlock]) p').
Proof.
  intros Hl Hbody Hl'. unfold locked.
  erewrite bind_Ret by (by apply Lock_calls).
  erewrite bind_Ret by exact Hbody.
  erewrite bind_Ret by (by apply Unlock_calls). reflexivity.
Qed.

Lemma locked_panics {A} (body : M progressWithStatusBarsTTY A) cs p :
  lock p = false ->
  body (withCalls (cs ++ [CLock]) (set_lock true p)) = Panicked ->
  locked body (withCalls cs p) = Panicked.
Proof.
  intros Hl Hbody. unfold locked.
  erewrite bind_Ret by (by apply Lock_calls).
  unfold bind. by rewrite Hbody.
Qed.

(** [Destroy] stops the spinner, then under the lock moves to the first
    line of the block, clears as many lines as [moveToOrigin] counts, moving
    down after each, and moves up again: it writes nothing, gives the lock
    back, changes nothing in [p], and leaves the cursor on the first line of
    the block, that is the block's height above where it was.  [Close] is
    [Destroy]. *)
Theorem Destroy_clears_the_block (p : progressWithStatusBarsTTY) :
  lock p = false ->
  let h := blockHeight p in
  let cs := [CSpinnerStop; CLock; CMoveUp (Z.of_nat h)] ++ cleared h ++
            [CMoveUp (Z.of_nat h); CUnlock] in
  Destroy p = Ret tt (withCalls (calls p ++ cs) p) /\
  Close p = Destroy p /\
  netDown cs = - Z.of_nat h /\
  length (List.filter isClear cs) = h /\
  List.filter isWrite cs = [].
Proof.
  intros Hl h cs. split; [|split; [done|]].
  - assert (Hh : (length (bars p) + length (statusBars p))%nat = h)
      by (unfold h, blockHeight; lia).
    unfold Destroy, spinnerStop, modify.
    rewrite (bind_Ret _ _ p tt (withCalls (calls p ++ [CSpinnerStop]) p))
      by reflexivity.
    erewrite locked_calls; [|done| |done].
    2:{ erewrite bind_Ret by apply moveToOrigin_calls.
        erewrite bind_Ret.
        2:{ unfold bind, get. cbn [bars statusBars withCalls set_lock].
            rewrite Hh. apply clearLines_calls. }
        apply moveToOrigin_calls. }
    unfold cs. cbn [blockHeight bars statusBars set_lock].
    fold (blockHeight p). fold h. rewrite <- !app_assoc. reflexivity.
  - destruct (cleared_facts h) as (H1 & H2 & H3). unfold cs.
    split; [|split].
    + simpl. rewrite netDown_app, H1. simpl. lia.
    + simpl. rewrite List.filter_app, length_app, H2. simpl. lia.
    + simpl. rewrite List.filter_app, H3. reflexivity.
Qed.

(** ** Methods that change a bar and redraw *)

(** The heap of progress bars after lines 85-87 have gone through [rest]. *)
Fixpoint allAtMax (mem : positive -> ProgressBar) (rest : list ptr)
  : positive -> ProgressBar :=
  match rest with
  | [] => mem
  | Some l :: rest =>
      allAtMax (store mem l (set_Value (Max (mem l)) (mem l))) rest
  | None :: rest => allAtMax mem rest
  end.

Lemma store_same {A} (mem : positive -> A) l v : store mem l v l = v.
Proof. unfold store. by rewrite Pos.eqb_refl. Qed.

Lemma store_other {A} (mem : positive -> A) l l' v :
  l' <> l -> store mem l v l' = mem l'.
Proof.
  intros Hne. unfold store. destruct (Pos.eqb_spec l' l); [done|reflexivity].
Qed.

Lemma store_cases {A} (mem : positive -> A) l l' v :
  (l' = l /\ store mem l v l' = v) \/ (l' <> l /\ store mem l v l' = mem l').
Proof.
  destruct (decide (l' = l)) as [->|Hne].
  - left. by rewrite store_same.
  - right. by rewrite store_other.
Qed.

Lemma allAtMax_keeps mem rest l :
  Max (allAtMax mem rest l) = Max (mem l) /\
  Label (allAtMax mem rest l) = Label (mem l) /\
  labelWidth (allAtMax mem rest l) = labelWidth (mem l).
Proof.
  revert mem. induction rest as [|[l0|] rest IH]; intros mem; simpl; [done| |done].
  destruct (IH (store mem l0 (set_Value (Max (mem l0)) (mem l0))))
    as (-> & -> & ->).
  destruct (store_cases mem l0 l (set_Value (Max (mem l0)) (mem l0)))
    as [[-> ->]|[_ ->]]; done.
Qed.

Lemma allAtMax_other mem rest l :
  Some l ∉ rest -> allAtMax mem rest l = mem l.
Proof.
  revert mem. induction rest as [|[l0|] rest IH]; intros mem Hnot; simpl; [done| |].
  - rewrite IH by (intros Hin; apply Hnot, elem_of_cons; by right).
    apply store_other. intros ->. apply Hnot, elem_of_cons. by left.
  - apply IH. intros Hin. apply Hnot, elem_of_cons. by right.
Qed.

Lemma allAtMax_Value mem rest l :
  Some l ∈ rest -> Value (allAtMax mem rest l) = Max (mem l).
Proof.
  revert mem. induction rest as [|[l0|] rest IH]; intros mem Hin; simpl.
  - by apply elem_of_nil in Hin.
  - destruct (decide (Some l ∈ rest)) as [Hrest|Hrest].
    + rewrite IH by done.
      destruct (store_cases mem l0 l (set_Value (Max (mem l0)) (mem l0)))
        as [[-> ->]|[_ ->]]; done.
    + apply elem_of_cons in Hin as [[= <-]|?]; [|done].
      rewrite allAtMax_other by done. by rewrite store_same.
  - apply elem_of_cons in Hin as [?|Hin]; [done|]. by apply IH.
Qed.

Lemma completeBars_mem rest cs p :
  None ∉ rest ->
  completeBars rest (withCalls cs p) =
  Ret tt (withCalls cs (set_barMem (allAtMax (barMem p) rest) p)).
Proof.
  revert p. induction rest as [|[l|] rest IH]; intros p Hnil.
  - by destruct p.
  - simpl. unfold bind at 1, modify.
    change (set_barMem ?m (withCalls cs p)) with (withCalls cs (set_barMem m p)).
    rewrite IH by (intros Hin; apply Hnil, elem_of_cons; by right).
    reflexivity.
  - exfalso. apply Hnil, elem_of_cons. by left.
Qed.

Lemma completeBars_nil rest p :
  None ∈ rest -> completeBars rest p = Panicked.
Proof.
  revert p. induction rest as [|[l|] rest IH]; intros p Hin.
  - by apply elem_of_nil in Hin.
  - apply elem_of_cons in Hin as [?|Hin]; [done|].
    simpl. unfold bind, modify. by rewrite IH.
  - done.
Qed.

(** [Complete] sets the value of every progress bar to its maximum, through
    the pointers (a bar listed twice is one bar), touches no other bar and
    no other field, and redraws the block in place under the lock; with a
    nil progress bar it panics instead. *)
Theorem Complete_fills_every_bar (p : progressWithStatusBarsTTY) :
  lock p = false ->
  (None ∈ bars p -> Complete p = Panicked) /\
  (None ∉ bars p ->
   exists mem',
     Complete p =
       Ret tt (withCalls
                 (calls p ++
                  [CSpinnerStop; CLock; CMoveUp (Z.of_nat (blockHeight p))] ++
                  drawn p ++ [CUnlock])
                 (set_barMem mem' p)) /\
     (forall l, Some l ∈ bars p -> Value (mem' l) = Max (barMem p l)) /\
     (forall l, Max (mem' l) = Max (barMem p l) /\
                Label (mem' l) = Label (barMem p l) /\
                labelWidth (mem' l) = labelWidth (barMem p l)) /\
     (forall l, Some l ∉ bars p -> mem' l = barMem p l)).
Proof.
  intros Hl. split.
  - intros Hnil. unfold Complete, spinnerStop, modify.
    rewrite (bind_Ret _ _ p tt (withCalls (calls p ++ [CSpinnerStop]) p))
      by reflexivity.
    apply locked_panics; [done|].
    unfold bind at 1 2, get. rewrite completeBars_nil; done.
  - intros Hnil. exists (allAtMax (barMem p) (bars p)).
    split; [|split; [|split]].
    + unfold Complete, spinnerStop, modify.
      rewrite (bind_Ret _ _ p tt (withCalls (calls p ++ [CSpinnerStop]) p))
        by reflexivity.
      erewrite (locked_calls _ _ _ p (set_barMem (allAtMax (barMem p) (bars p)) p));
        [|done| |done].
      2:{ erewrite bind_Ret.
          2:{ unfold bind, get. cbn [bars withCalls set_lock].
              change (withCalls ?c (set_lock true p)) with
                (withCalls c (set_lock true p)).
              apply (completeBars_mem (bars p) _ (set_lock true p)). done. }
          change (withCalls ?c (set_barMem ?m (set_lock true p)))
            with (withCalls c (set_lock true (set_barMem m p))).
          apply drawInSitu_calls. }
      rewrite <- !app_assoc. reflexivity.
    + intros l Hin. by apply allAtMax_Value.
    + intros l. apply allAtMax_keeps.
    + intros l Hnot. by apply allAtMax_other.
Qed.

Lemma onStatusBar_nil i method cs p :
  0 <= i -> statusBars p !! Z.to_nat i = Some None ->
  onStatusBar i method (withCalls cs p) = Ret tt (withCalls cs p).
Proof.
  intros Hi Hnil. unfold onStatusBar, bind, get, index.
  cbn [statusBars withCalls].
  rewrite (proj2 (Z.ltb_ge i 0)) by lia. unfold ptr in *. by rewrite Hnil.
Qed.

(** The three [StatusBar...f] methods guard the bar they change against
    nil, but [StatusBarResetf] then recomputes the label width, which reads
    every bar's label: on a nil entry it panics, where [StatusBarUpdatef]
    and [StatusBarCompletef] change nothing and redraw the block. *)
Theorem StatusBarResetf_on_nil_panics
        (p : progressWithStatusBarsTTY) (i : Z)
        (label format : string) (args : list Arg) :
  lock p = false -> 0 <= i -> statusBars p !! Z.to_nat i = Some None ->
  let redrawn :=
    withCalls (calls p ++ [CLock; CMoveUp (Z.of_nat (blockHeight p))] ++
               drawn p ++ [CUnlock]) p in
  StatusBarResetf i label format args p = Panicked /\
  StatusBarUpdatef i format args p = Ret tt redrawn /\
  StatusBarCompletef i format args p = Ret tt redrawn.
Proof.
  intros Hl Hi Hnil redrawn.
  assert (Hin : None ∈ statusBars p) by (by eapply list_elem_of_lookup_2).
  split; [|split].
  - unfold StatusBarResetf. rewrite <- (withCalls_same p).
    apply locked_panics; [done|].
    erewrite bind_Ret by (by apply onStatusBar_nil).
    unfold bind at 1. by rewrite determineStatusBarLabelWidth_nil.
  - unfold StatusBarUpdatef. rewrite <- (withCalls_same p) at 1.
    erewrite locked_calls; [|done| |done].
    2:{ erewrite bind_Ret by (by apply onStatusBar_nil).
        apply drawInSitu_calls. }
    unfold redrawn. rewrite app_nil_r, <- !app_assoc. reflexivity.
  - unfold StatusBarCompletef. rewrite <- (withCalls_same p) at 1.
    erewrite locked_calls; [|done| |done].
    2:{ erewrite bind_Ret by (by apply onStatusBar_nil).
        apply drawInSitu_calls. }
    unfold redrawn. rewrite app_nil_r, <- !app_assoc. reflexivity.
Qed.

End StatusBars.
End Output.

(** ** A block of two status bars and two progress bars *)

Module OutputDemo.
Import Output.

Definition StringWidth (s : string) : Z := Z.of_nat (String.length s).
Definition Truncate (s : string) (w : Z) (tail : string) : string :=
  if StringWidth s <=? w then s
  else String.append (substring 0 (Z.to_nat (w - StringWidth tail)) s) tail.
Definition Fill (s : string) (w : Z) : string := s.
Definition Sprintf (format : string) (args : list string) : string :=
  String.append format (String.concat " " args).

Abbreviation bar := (@ProgressBar Z).
Abbreviation statusBar := (@StatusBar string).
Abbreviation progress := (@progressWithStatusBarsTTY string Z).

Definition barMem0 (l : positive) : bar :=
  if Pos.eqb l 1 then mkProgressBar "clone" 5 3 10
  else mkProgressBar "build" 5 0 4.

Definition statusBarMem0 (l : positive) : statusBar :=
  if Pos.eqb l 1 then mkStatusBar true "github.com/a/b" "done" []
  else mkStatusBar false "github.com/c/d" "step " ["2"].

(** On a terminal of 80 columns, and on one of 6. *)
Definition p0 : progress :=
  mkProgress [Some 1; Some 2; Some 1]%positive 3 "*" [Some 1; Some 2]%positive 0
             false 80 barMem0 statusBarMem0 [].

Definition p_narrow : progress :=
  mkProgress [Some 1; Some 2; Some 1]%positive 3 "*" [Some 1; Some 2]%positive 0
             false 6 barMem0 statusBarMem0 [].

(** With a nil status bar in the middle, and with a nil progress bar. *)
Definition p_nil : progress :=
  mkProgress [Some 1; Some 2]%positive 3 "*" [Some 1; None; Some 2]%positive 14
             false 80 barMem0 statusBarMem0 [].

Lemma p0_no_nil : None ∉ statusBars p0.
Proof.
  unfold p0. simpl. intros Hin.
  repeat (apply elem_of_cons in Hin as [?|Hin]; [done|]).
  by apply elem_of_nil in Hin.
Qed.

Lemma emojiWidth_in_range : 0 <= 3 < 2 ^ 31.
Proof. lia. Qed.

Lemma Width_in_range : 0 <= 80 < 2 ^ 31.
Proof. lia. Qed.

Lemma narrow_Width_in_range : 0 <= 6 < 2 ^ 31.
Proof. lia. Qed.

Lemma p0_labels : labelsInRange StringWidth p0.
Proof.
  intros l _. simpl. unfold statusBarMem0.
  destruct (Pos.eqb l 1); cbv; (split; [discriminate|reflexivity]).
Qed.

Lemma p_narrow_labels : labelsInRange StringWidth p_narrow.
Proof.
  intros l _. simpl. unfold statusBarMem0.
  destruct (Pos.eqb l 1); cbv; (split; [discriminate|reflexivity]).
Qed.

Lemma determineStatusBarLabelWidth_fits_witness :
  exists w,
    determineStatusBarLabelWidth StringWidth p0 =
      Ret tt (set_statusBarLabelWidth w p0) /\
    w + 2 <= Width p0 ÷ 2 - (emojiWidth p0 + 1) /\
    ((forall l, Some l ∈ statusBars p0 ->
        StringWidth (label (statusBarMem p0 l)) <= w) \/
     w + 2 = Width p0 ÷ 2 - (emojiWidth p0 + 1)) /\
    (w = 0 \/
     (exists l, Some l ∈ statusBars p0 /\
                w = StringWidth (label (statusBarMem p0 l))) \/
     w + 2 = Width p0 ÷ 2 - (emojiWidth p0 + 1)).
Proof.
  exact (determineStatusBarLabelWidth_fits StringWidth p0 p0_no_nil
           emojiWidth_in_range Width_in_range p0_labels).
Defined.

Example p0_label_width :
  determineStatusBarLabelWidth StringWidth p0 =
  Ret tt (set_statusBarLabelWidth 14 p0).
Proof. reflexivity. Qed.

Definition p_narrow' : progress := set_statusBarLabelWidth (-3) p_narrow.

Lemma p_narrow_determined :
  determineStatusBarLabelWidth StringWidth p_narrow = Ret tt p_narrow'.
Proof. reflexivity. Qed.

Lemma statusBarLabelWidth_negative_iff_narrow_witness :
  statusBarLabelWidth p_narrow' < 0 <-> Width p_narrow ÷ 2 < emojiWidth p_narrow + 3.
Proof.
  exact (statusBarLabelWidth_negative_iff_narrow StringWidth p_narrow p_narrow'
           emojiWidth_in_range narrow_Width_in_range p_narrow_labels
           p_narrow_determined).
Defined.

Definition p0' : progress := set_statusBarLabelWidth 14 p0.

Lemma writeStatusBar_text_budget_witness :
  let sb := statusBarMem p0' 2 in
  exists style emoji label',
    writeStatusBar Truncate Fill Fill Sprintf id "ok" 1 (Some 2%positive) p0' =
      Ret tt (record
                (CFprint [OStyle style; OString " "; OString emoji;
                          OString " "; OString label';
                          OString (Truncate
                                     (Sprintf (format sb) (id (args sb)))
                                     (textMaxLength p0') "...");
                          OStyle StyleReset; OString newline])
                (record CClearCurrentLine p0')) /\
    textMaxLength p0' =
      Width p0 - (emojiWidth p0 + 1) - (statusBarLabelWidth p0' + 2) /\
    Width p0 <= 2 * textMaxLength p0'.
Proof.
  exact (writeStatusBar_text_budget StringWidth Truncate Fill Fill Sprintf id "ok"
           p0 p0' 1 2%positive emojiWidth_in_range Width_in_range p0_labels
           p0_label_width).
Defined.

Example p0_text_width : textMaxLength p0' = 60.
Proof. reflexivity. Qed.

Lemma Destroy_clears_the_block_witness :
  let h := blockHeight p0 in
  let cs := [CSpinnerStop; CLock; CMoveUp (Z.of_nat h)] ++ cleared h ++
            [CMoveUp (Z.of_nat h); CUnlock] in
  Destroy p0 = Ret tt (withCalls (calls p0 ++ cs) p0) /\
  Close p0 = Destroy p0 /\
  netDown cs = - Z.of_nat h /\
  length (List.filter isClear cs) = h /\
  List.filter isWrite cs = [].
Proof. exact (Destroy_clears_the_block p0 eq_refl). Defined.

Lemma Complete_fills_every_bar_witness :
  (None ∈ bars p0 -> Complete Truncate Fill Fill Sprintf id "ok" p0 = Panicked) /\
  (None ∉ bars p0 ->
   exists mem',
     Complete Truncate Fill Fill Sprintf id "ok" p0 =
       Ret tt (withCalls
                 (calls p0 ++
                  [CSpinnerStop; CLock; CMoveUp (Z.of_nat (blockHeight p0))] ++
                  drawn Truncate Fill Fill Sprintf id "ok" p0 ++ [CUnlock])
                 (set_barMem mem' p0)) /\
     (forall l, Some l ∈ bars p0 -> Value (mem' l) = Max (barMem p0 l)) /\
     (forall l, Max (mem' l) = Max (barMem p0 l) /\
                Label (mem' l) = Label (barMem p0 l) /\
                labelWidth (mem' l) = labelWidth (barMem p0 l)) /\
     (forall l, Some l ∉ bars p0 -> mem' l = barMem p0 l)).
Proof.
  exact (Complete_fills_every_bar Truncate Fill Fill Sprintf id "ok"
           p0 eq_refl).
Defined.

Definition Resetf (label format : string) (args : list string)
           (sb : statusBar) : statusBar :=
  mkStatusBar false label format args.
Definition Updatef (format : string) (args : list string)
           (sb : statusBar) : statusBar :=
  mkStatusBar (completed sb) (label sb) format args.
Definition Completef (format : string) (args : list string)
           (sb : statusBar) : statusBar :=
  mkStatusBar true (label sb) format args.

Lemma one_is_not_negative : 0 <= 1.
Proof. lia. Qed.

Lemma StatusBarResetf_on_nil_panics_witness :
  let redrawn :=
    withCalls (calls p_nil ++ [CLock; CMoveUp (Z.of_nat (blockHeight p_nil))] ++
               drawn Truncate Fill Fill Sprintf id "ok" p_nil ++
               [CUnlock]) p_nil in
  StatusBarResetf StringWidth Truncate Fill Fill Sprintf id "ok" Resetf
                  1 "github.com/e/f" "queued" [] p_nil = Panicked /\
  StatusBarUpdatef Truncate Fill Fill Sprintf id "ok" Updatef
                   1 "queued" [] p_nil = Ret tt redrawn /\
  StatusBarCompletef Truncate Fill Fill Sprintf id "ok" Completef
                     1 "queued" [] p_nil = Ret tt redrawn.
Proof.
  exact (StatusBarResetf_on_nil_panics StringWidth Truncate Fill Fill Sprintf id
           "ok" Resetf Updatef Completef p_nil 1 "github.com/e/f" "queued" []
           eq_refl one_is_not_negative eq_refl).
Defined.

(** The block of [p_nil] is five lines high for [moveToOrigin], and [draw]
    writes two status lines and two bars, four lines in all. *)
Example p_nil_drawn :
  blockHeight p_nil = 5%nat /\
  length (List.filter isWrite
            (drawn Truncate Fill Fill Sprintf id "ok" p_nil)) = 4%nat.
Proof. split; reflexivity. Qed.

End OutputDemo.
